(** * mpc-tss-lib: the EdDSA threshold-signing core, embedded and checked

    The Go sources are embedded shallowly: [*big.Int] values are [Z], byte
    slices are lists of 8-bit integers, nil-able pointers are [option]s, a
    run-time panic is the [Panic] outcome, Go's [(value, error)] returns are
    sums, and a channel is the list of values sent on it so far.  Library
    code that the sources call but do not contain (the elliptic curves, the
    Poseidon sponge, SHA-512/256, the ed25519 verifier, the random source)
    is the interface [Externals].

    The first part is the embedding, package by package; the second part
    states and proves the properties, with a miniature instance ([Toy]) on
    which the embedded code runs. *)

From stdpp Require Import gmap strings list.
From Stdlib Require Import ZArith Lia Znumtheory Zcong.

Local Open Scope Z_scope.

(** ** Outcomes of Go code that can panic *)

Inductive res (A : Type) : Type :=
| Ret (a : A)
| Panic.
Arguments Ret {A} a.
Arguments Panic {A}.

Definition res_bind {A B} (m : res A) (k : A -> res B) : res B :=
  match m with
  | Ret a => k a
  | Panic => Panic
  end.

#[global] Instance res_mbind : MBind res := fun A B k m => res_bind m k.
#[global] Instance res_mret : MRet res := @Ret.

(** An [option] read as a dereference: [None] is the nil pointer. *)
Definition deref {A} (p : option A) : res A :=
  match p with
  | Some a => Ret a
  | None => Panic
  end.

(** ** math/big *)

Module BigInt.

Definition bytes := list Z.

(** Little-endian base-256 digits of a non-negative number. *)
Fixpoint le_digits (fuel : nat) (n : Z) : list Z :=
  match fuel with
  | O => []
  | S f => if n =? 0 then [] else (n mod 256) :: le_digits f (n / 256)
  end.

(** [x.Bytes()]: the big-endian bytes of [|x|], without leading zeros. *)
Definition Bytes (x : Z) : bytes :=
  let a := Z.abs x in
  rev (le_digits (S (Z.to_nat (Z.log2 a))) a).

(** [new(big.Int).SetBytes(b)]: [b] read as a big-endian unsigned number. *)
Definition SetBytes (b : bytes) : Z :=
  fold_left (fun acc d => acc * 256 + d) b 0.

(** [x.FillBytes(buf)] with [len(buf) = n]: [|x|] zero-extended to [n]
    big-endian bytes; it panics when [|x|] does not fit. *)
Definition FillBytes (x : Z) (n : nat) : res bytes :=
  let b := Bytes x in
  if (length b <=? n)%nat then Ret (replicate (n - length b)%nat 0 ++ b)
  else Panic.

(** [z.Mod(x, m)]: Euclidean modulus, never negative for [m <> 0]. *)
Definition Mod (x m : Z) : Z := x mod (Z.abs m).

(** [x.Sign()] *)
Definition Sign (x : Z) : Z := Z.sgn x.

(** [x.Cmp(y)] *)
Definition Cmp (x y : Z) : Z :=
  match x ?= y with
  | Lt => -1
  | Eq => 0
  | Gt => 1
  end.

End BigInt.

(** ** crypto/elliptic: the [elliptic.Curve] interface *)

Record CurveParams := {
  P : Z;
  N : Z;
  B : Z;
  Gx : Z;
  Gy : Z;
}.

Record Curve := {
  Params : CurveParams;
  IsOnCurve : Z -> Z -> bool;
  Add : Z -> Z -> Z -> Z -> Z * Z;
  ScalarMult : Z -> Z -> BigInt.bytes -> Z * Z;
  ScalarBaseMult : BigInt.bytes -> Z * Z;
}.

(** ** Library code outside the sources *)

Class Externals := {
  (** [poseidon.HashBytes]: [None] is the error return. *)
  poseidon_HashBytes : BigInt.bytes -> option Z;
  (** [poseidon.Hash] over field elements. *)
  poseidon_Hash : list Z -> option Z;
  (** [common.SHA512_256i] *)
  SHA512_256i : list Z -> Z;
  (** [edwards.Verify(pub, hash, r, s)] of dcrd: the stock ed25519 verifier. *)
  edwards_Verify : Z * Z -> BigInt.bytes -> Z -> Z -> bool;
  (** [edwards.ParsePubKey]: the point of a 32-byte encoding. *)
  edwards_ParsePubKey : BigInt.bytes -> option (Z * Z);
  (** [iden3bjj.B8.Mul(k, B8)]: Baby Jubjub base-point multiplication. *)
  bjj_B8_Mul : Z -> Z * Z;
  (** [common.GetRandomPositiveInt(rand, n)]: the sample and the rest of
      the random source. *)
  GetRandomPositiveInt : list Z -> Z -> Z * list Z;
  (** helpers of the signing package that are not among the sources *)
  bigIntToEncodedBytes : Z -> BigInt.bytes;
  encodedBytesToBigInt : BigInt.bytes -> Z;
  bigIntToFixedBytes : Z -> nat -> BigInt.bytes;
  flattenByteSlices : list BigInt.bytes -> BigInt.bytes;
  (** [edwards25519.ScMulAdd(&out, a, b, c)]: [a*b + c] modulo the group
      order, on 32-byte little-endian encodings. *)
  ScMulAdd : BigInt.bytes -> BigInt.bytes -> BigInt.bytes -> BigInt.bytes;
}.

(** ** crypto: [ECPoint] (ecpoint.go) *)

Module Crypto.

(** [ECPoint{curve, coords [2]*big.Int}]; a coordinate may be nil. *)
Record ECPoint := {
  curve : Curve;
  coords : option Z * option Z;
}.

Definition isOnCurve (c : Curve) (x y : option Z) : bool :=
  match x, y with
  | Some x, Some y => IsOnCurve c x y
  | _, _ => false
  end.

(** [NewECPoint]: [inr] is the error return. *)
Definition NewECPoint (c : Curve) (X Y : option Z) : ECPoint + string :=
  if negb (isOnCurve c X Y)
  then inr "NewECPoint: the given point is not on the elliptic curve"%string
  else inl {| curve := c; coords := (X, Y) |}.

Definition NewECPointNoCurveCheck (c : Curve) (X Y : option Z) : ECPoint :=
  {| curve := c; coords := (X, Y) |}.

(** [p.X()] copies the coordinate: [new(big.Int).Set(p.coords[0])]. *)
Definition X (p : ECPoint) : res Z := deref (fst (coords p)).
Definition Y (p : ECPoint) : res Z := deref (snd (coords p)).

Definition ECPoint_IsOnCurve (p : ECPoint) : bool :=
  isOnCurve (curve p) (fst (coords p)) (snd (coords p)).

(** [p.Equals(p2)] on pointers. *)
Definition Equals (p p2 : option ECPoint) : res bool :=
  match p, p2 with
  | Some a, Some b =>
      x1 ← X a; x2 ← X b;
      if negb (BigInt.Cmp x1 x2 =? 0) then Ret false
      else y1 ← Y a; y2 ← Y b; Ret (BigInt.Cmp y1 y2 =? 0)
  | _, _ => Ret false
  end.

End Crypto.

(** ** tss: parties, parameters, errors and the curve registry *)

Module Tss.

Record PartyID := {
  Moniker : string;
  Key : Z;
  Index : Z;
}.

(** [SortedPartyIDs.Keys()] *)
Definition Keys (ids : list PartyID) : list Z := map Key ids.

(** Go [error] values: [errors.New]/[fmt.Errorf] messages, and
    [tss.Error{cause, task, round, victim, culprits}] as built by
    [tss.NewError]. *)
Inductive error :=
| New (msg : string)
| NewError (cause : error) (task : string) (round : Z) (victim : PartyID)
    (culprits : list PartyID).

(** [tss.Parameters], read through its accessors [EC()], [Parties().IDs()],
    [PartyID()], [Threshold()] and [Rand()]. *)
Record Parameters := {
  EC : Curve;
  IDs : list PartyID;
  partyID : PartyID;
  Threshold : Z;
  Rand : list Z;
}.

(** The package-level curve registry and default curve. *)
Record Globals := {
  registry : gmap string Curve;
  ec : Curve;
}.

(** Modelled from the spec: tss/curve.go is not among the sources.  "A
    curve registry maps a string CurveName to a concrete curve
    implementation"; the second result of the Go function is whether the
    name is registered. *)
Definition GetCurveByName (g : Globals) (name : string) : option Curve :=
  registry g !! name.

End Tss.

Module CryptoOps.
Import Crypto.

(** [crypto.ScalarBaseMult(curve, k)].  The point that is checked and
    returned is [iden3bjj.B8.Mul(k, B8)]; [curve.ScalarBaseMult] is only
    printed.  A point off [curve] panics. *)
Definition ScalarBaseMult `{Externals} (c : Curve) (k : Z) : res ECPoint :=
  let k := BigInt.Mod k (N (Params c)) in
  let a := bjj_B8_Mul k in
  match NewECPoint c (Some (fst a)) (Some (snd a)) with
  | inl p => Ret p
  | inr _ => Panic
  end.

(** [FlattenECPoints]: a nil slice, a nil point or a nil coordinate is an
    error. *)
Fixpoint flatten_loop (points : list (option ECPoint)) (flat : list Z)
    : list Z + string :=
  match points with
  | [] => inl flat
  | Some {| coords := (Some x, Some y) |} :: rest =>
      flatten_loop rest (flat ++ [x] ++ [y])
  | _ :: _ => inr "FlattenECPoints found nil point/coordinate"%string
  end.

Definition FlattenECPoints (input : option (list (option ECPoint)))
    : list Z + string :=
  match input with
  | None => inr "FlattenECPoints encountered a nil in slice"%string
  | Some points => flatten_loop points []
  end.

(** What [encoding/json] decodes a payload to: a decoding failure, or the
    auxiliary struct [{Curve string; Coords [2]*big.Int}]. *)
Inductive payload :=
| Malformed (err : string)
| Decoded (Curve : string) (Coords : option Z * option Z).

(** [(p *ECPoint).UnmarshalJSON(payload)]: the receiver after the call and
    the error returned ([None] is nil). *)
Definition UnmarshalJSON (g : Tss.Globals) (p : ECPoint) (pl : payload)
    : ECPoint * option string :=
  match pl with
  | Malformed e => (p, Some e)
  | Decoded name cs =>
      let p := {| curve := curve p; coords := cs |} in
      let looked :=
        if (0 <? String.length name)%nat then
          match Tss.GetCurveByName g name with
          | None => inr ("cannot find curve named with " ++ name ++
                         " in curve registry")%string
          | Some c => inl {| curve := c; coords := coords p |}
          end
        else inl {| curve := Tss.ec g; coords := coords p |} in
      match looked with
      | inr e => (p, Some e)
      | inl p =>
          if negb (ECPoint_IsOnCurve p)
          then (p, Some "ECPoint.UnmarshalJSON: the point is not on the elliptic curve"%string)
          else (p, None)
      end
  end.

End CryptoOps.

(** ** eddsa/signing *)

Module Signing.
Import Crypto CryptoOps.

Definition TaskName : string := "eddsa-signing".

(** [common.SignatureData], the fields the signing rounds fill. *)
Record SignatureData := {
  Signature : BigInt.bytes;
  SigR : BigInt.bytes;  (* field [R] *)
  SigS : BigInt.bytes;  (* field [S] *)
  SigM : BigInt.bytes;  (* field [M] *)
}.

(** The wire messages of eddsa-signing.pb.go. *)
Record SignRound1Message := { Commitment : BigInt.bytes }.

Record SignRound2Message := {
  DeCommitment : list BigInt.bytes;
  ProofAlphaX : BigInt.bytes;
  ProofAlphaY : BigInt.bytes;
  ProofT : BigInt.bytes;
}.

Record SignRound3Message := { MsgS : BigInt.bytes (* field [S] *) }.

Inductive MessageContent :=
| Round1Content (c : SignRound1Message)
| Round2Content (c : SignRound2Message)
| Round3Content (c : SignRound3Message).

(** [tss.ParsedMessage]: routing and content. *)
Record ParsedMessage := {
  From : Tss.PartyID;
  IsBroadcast : bool;
  Content : MessageContent;
}.

(** [keygen.LocalPartySaveData], the fields signing reads. *)
Record LocalPartySaveData := {
  Xi : Z;
  Ks : list Z;
  BigXj : option (list (option ECPoint));
  EDDSAPub : option ECPoint;
}.

(** [localTempData], the fields the embedded rounds touch. *)
Record localTempData := {
  signRound1Messages : list (option ParsedMessage);
  signRound3Messages : list (option ParsedMessage);
  m : Z;
  fullBytesLen : nat;
  deCommit : list Z;
  si : option BigInt.bytes;
  r : Z;
  ssid : option BigInt.bytes;
  ssidNonce : Z;
}.

(** [base]: the state every round shares by pointer; [out_ch] and [end_ch]
    are the values sent so far on [out] and [end]. *)
Record base := {
  params : Tss.Parameters;
  key : LocalPartySaveData;
  data : SignatureData;
  temp : localTempData;
  out_ch : list ParsedMessage;
  end_ch : list SignatureData;
  ok : list bool;
  started : bool;
  number : Z;
}.

Definition set_temp (f : localTempData -> localTempData) (b : base) : base :=
  {| params := params b; key := key b; data := data b; temp := f (temp b);
     out_ch := out_ch b; end_ch := end_ch b; ok := ok b;
     started := started b; number := number b |}.

Definition set_data (d : SignatureData) (b : base) : base :=
  {| params := params b; key := key b; data := d; temp := temp b;
     out_ch := out_ch b; end_ch := end_ch b; ok := ok b;
     started := started b; number := number b |}.

Definition set_ok (o : list bool) (b : base) : base :=
  {| params := params b; key := key b; data := data b; temp := temp b;
     out_ch := out_ch b; end_ch := end_ch b; ok := o;
     started := started b; number := number b |}.

Definition set_started (s : bool) (n : Z) (b : base) : base :=
  {| params := params b; key := key b; data := data b; temp := temp b;
     out_ch := out_ch b; end_ch := end_ch b; ok := ok b;
     started := s; number := n |}.

Definition set_rand (rnd : list Z) (b : base) : base :=
  {| params := {| Tss.EC := Tss.EC (params b); Tss.IDs := Tss.IDs (params b);
                  Tss.partyID := Tss.partyID (params b);
                  Tss.Threshold := Tss.Threshold (params b);
                  Tss.Rand := rnd |};
     key := key b; data := data b; temp := temp b;
     out_ch := out_ch b; end_ch := end_ch b; ok := ok b;
     started := started b; number := number b |}.

Definition send_out (msg : ParsedMessage) (b : base) : base :=
  {| params := params b; key := key b; data := data b; temp := temp b;
     out_ch := out_ch b ++ [msg]; end_ch := end_ch b; ok := ok b;
     started := started b; number := number b |}.

Definition send_end (b : base) : base :=
  {| params := params b; key := key b; data := data b; temp := temp b;
     out_ch := out_ch b; end_ch := end_ch b ++ [data b]; ok := ok b;
     started := started b; number := number b |}.

Definition set_ssid (nonce : Z) (id : option BigInt.bytes)
    (t : localTempData) : localTempData :=
  {| signRound1Messages := signRound1Messages t;
     signRound3Messages := signRound3Messages t; m := m t;
     fullBytesLen := fullBytesLen t; deCommit := deCommit t; si := si t;
     r := r t; ssid := id; ssidNonce := nonce |}.

Definition set_deCommit (d : list Z) (t : localTempData) : localTempData :=
  {| signRound1Messages := signRound1Messages t;
     signRound3Messages := signRound3Messages t; m := m t;
     fullBytesLen := fullBytesLen t; deCommit := d; si := si t;
     r := r t; ssid := ssid t; ssidNonce := ssidNonce t |}.

Definition set_signRound1Messages (ms : list (option ParsedMessage))
    (t : localTempData) : localTempData :=
  {| signRound1Messages := ms;
     signRound3Messages := signRound3Messages t; m := m t;
     fullBytesLen := fullBytesLen t; deCommit := deCommit t; si := si t;
     r := r t; ssid := ssid t; ssidNonce := ssidNonce t |}.

(** *** rounds.go *)

(** [CanProceed] *)
Definition CanProceed (round : base) : bool :=
  if negb (started round) then false
  else forallb (fun o => o) (ok round).

(** [WaitingFor]: the loop over [round.ok], appending [Ps[j]]; indexing
    past the end of [Ps] panics. *)
Fixpoint WaitingFor_loop (Ps : list Tss.PartyID) (j : nat) (oks : list bool)
    (ids : list Tss.PartyID) : res (list Tss.PartyID) :=
  match oks with
  | [] => Ret ids
  | o :: rest =>
      if o then WaitingFor_loop Ps (S j) rest ids
      else p ← deref (Ps !! j); WaitingFor_loop Ps (S j) rest (ids ++ [p])
  end.

Definition WaitingFor (round : base) : res (list Tss.PartyID) :=
  WaitingFor_loop (Tss.IDs (params round)) 0 (ok round) [].

Definition WrapError (round : base) (err : Tss.error)
    (culprits : list Tss.PartyID) : Tss.error :=
  Tss.NewError err TaskName (number round) (Tss.partyID (params round))
    culprits.

(** [resetOK] *)
Definition resetOK (round : base) : base :=
  set_ok (map (fun _ => false) (ok round)) round.

(** The package variable [fieldModulus]. *)
Definition fieldModulus : Z :=
  BigInt.SetBytes
    [0x24; 0x03; 0x4b; 0x62; 0xb0; 0x00; 0x00; 0x00;
     0x18; 0x00; 0x00; 0x00; 0xa8; 0x00; 0x00; 0x00;
     0x01; 0xd8; 0x00; 0x00; 0x00; 0x4f; 0x00; 0x00;
     0x00; 0x3b; 0x00; 0x00; 0x00; 0x01].

(** The reduction loop of [getSSID], for a modulus [q]. *)
Fixpoint validate_loop (q : Z) (items validatedInputs : list Z) : list Z :=
  match items with
  | [] => validatedInputs
  | item :: rest =>
      let reduced := BigInt.Mod item q in
      let reduced :=
        if BigInt.Sign reduced <? 0 then reduced + q else reduced in
      validate_loop q rest (validatedInputs ++ [reduced])
  end.

(** The list [getSSID] assembles before reducing and hashing it. *)
Definition ssidList (round : base) : list Z + Tss.error :=
  let c := Params (Tss.EC (params round)) in
  let l := [P c; N c; Gx c; Gy c] in
  let l := l ++ Tss.Keys (Tss.IDs (params round)) in
  match FlattenECPoints (BigXj (key round)) with
  | inr _ =>
      inr (WrapError round (Tss.New "read BigXj failed")
             [Tss.partyID (params round)])
  | inl BigXjList =>
      let l := l ++ BigXjList in
      let l := l ++ [number round] in
      inl (l ++ [ssidNonce (temp round)])
  end.

(** [getSSID], with the reduction modulus as an argument. *)
Definition getSSID_mod `{Externals} (q : Z) (round : base)
    : BigInt.bytes + Tss.error :=
  match ssidList round with
  | inr e => inr e
  | inl l =>
      let validatedInputs := validate_loop q l [] in
      match poseidon_Hash validatedInputs with
      | None =>
          inr (WrapError round (Tss.New "Poseidon hashing failed")
                 [Tss.partyID (params round)])
      | Some ssidHash => inl (BigInt.Bytes ssidHash)
      end
  end.

(** [getSSID] *)
Definition getSSID `{Externals} (round : base) : BigInt.bytes + Tss.error :=
  getSSID_mod fieldModulus round.

(** *** messages.go (unnamed/part_001) *)

Definition NewSignRound1Message (from : Tss.PartyID) (commitment : Z)
    : ParsedMessage :=
  {| From := from; IsBroadcast := true;
     Content := Round1Content {| Commitment := BigInt.Bytes commitment |} |}.

(** [schnorr.ZKProof] *)
Record ZKProof := {
  Alpha : ECPoint;
  T : Z;
}.

(** The loop filling [dcBzs]: the error of [poseidon.HashBytes] is
    dropped, so a failed hash is a nil [*big.Int] whose [Bytes()] panics. *)
Fixpoint dcBzs_loop `{Externals} (deCommitment : list Z)
    : res (list BigInt.bytes) :=
  match deCommitment with
  | [] => Ret []
  | dc :: rest =>
      poseidonHash ← deref (poseidon_HashBytes (BigInt.Bytes dc));
      bzs ← dcBzs_loop rest;
      Ret (BigInt.Bytes poseidonHash :: bzs)
  end.

Definition NewSignRound2Message `{Externals} (from : Tss.PartyID)
    (deCommitment : list Z) (proof : ZKProof) : res ParsedMessage :=
  dcBzs ← dcBzs_loop deCommitment;
  ax ← X (Alpha proof);
  ay ← Y (Alpha proof);
  Ret {| From := from; IsBroadcast := true;
         Content := Round2Content
           {| DeCommitment := dcBzs;
              ProofAlphaX := BigInt.Bytes ax;
              ProofAlphaY := BigInt.Bytes ay;
              ProofT := BigInt.Bytes (T proof) |} |}.

(** Modelled from the spec: crypto/commitments is not among the sources.
    A decommitment is a list of field elements that travels as the tight
    big-endian bytes of each, so [NewHashDeCommitmentFromBytes] reads
    every entry back with [SetBytes]. *)
Definition NewHashDeCommitmentFromBytes (marshalled : list BigInt.bytes)
    : list Z :=
  map BigInt.SetBytes marshalled.

Definition UnmarshalCommitment (msg : SignRound1Message) : Z :=
  BigInt.SetBytes (Commitment msg).

Definition UnmarshalDeCommitment (msg : SignRound2Message) : list Z :=
  let deComBzs := DeCommitment msg in
  NewHashDeCommitmentFromBytes deComBzs.

Definition NewSignRound3Message (from : Tss.PartyID) (si : Z)
    : ParsedMessage :=
  {| From := from; IsBroadcast := true;
     Content := Round3Content {| MsgS := BigInt.Bytes si |} |}.

Definition UnmarshalS (msg : SignRound3Message) : Z :=
  BigInt.SetBytes (MsgS msg).

(** *** round_1.go *)

(** [round1.Start]: the state after the call and the error returned. *)
Definition round1_Start `{Externals} (round : base)
    : res (base * option Tss.error) :=
  if started round then
    Ret (round, Some (WrapError round (Tss.New "round already started") []))
  else
    let round := set_started true 1 round in
    let round := resetOK round in
    let round := set_temp (set_ssid 0 (ssid (temp round))) round in
    match getSSID round with
    | inr err =>
        let round := set_temp (set_ssid 0 None) round in
        Ret (round, Some (WrapError round err []))
    | inl id =>
        let round := set_temp (set_ssid 0 (Some id)) round in
        (* 1. select ri *)
        let '(ri, rnd) :=
          GetRandomPositiveInt (Tss.Rand (params round))
            (N (Params (Tss.EC (params round)))) in
        let round := set_rand rnd round in
        (* 2. make commitment *)
        pointRi ← ScalarBaseMult (Tss.EC (params round)) ri;
        x ← X pointRi;
        y ← Y pointRi;
        let xBytes := BigInt.Bytes x in
        let yBytes := BigInt.Bytes y in
        match poseidon_HashBytes (xBytes ++ yBytes) with
        | None =>
            Ret (round,
                 Some (WrapError round
                         (Tss.New "poseidon hash computation failed") []))
        | Some poseidonHash =>
            let cmtC := BigInt.SetBytes (BigInt.Bytes poseidonHash) in
            let cmtD := [BigInt.SetBytes xBytes; BigInt.SetBytes yBytes] in
            let round := set_temp (set_deCommit cmtD) round in
            (* 4. broadcast commitment *)
            let r1msg2 :=
              NewSignRound1Message (Tss.partyID (params round)) cmtC in
            let i := Tss.Index (Tss.partyID (params round)) in
            let msgs := signRound1Messages (temp round) in
            if (i <? 0) || (Z.of_nat (length msgs) <=? i) then Panic
            else
              let round :=
                set_temp (set_signRound1Messages
                            (<[Z.to_nat i := Some r1msg2]> msgs)) round in
              Ret (send_out r1msg2 round, None)
        end
    end.

End Signing.

(** *** finalize.go, as it stands in eddsa/signing and in unnamed/part_001 *)

Module Finalize.
Import Crypto Signing.

(** One pass of the loop over [round.Parties().IDs()]: mark [ok[j]], and
    for a peer add its [s_j] to the running sum. *)
Definition sum_step `{Externals} (self : Z)
    (msgs : list (option ParsedMessage))
    (acc : res (list bool * BigInt.bytes)) (j : nat)
    : res (list bool * BigInt.bytes) :=
  '(oks, sumS) ← acc;
  if (length oks <=? j)%nat then Panic
  else
    let oks := <[j := true]> oks in
    if Z.of_nat j =? self then Ret (oks, sumS)
    else
      msg ← deref (mjoin (msgs !! j));
      match Content msg with
      | Round3Content r3msg =>
          let sjBytes := bigIntToEncodedBytes (UnmarshalS r3msg) in
          Ret (oks, ScMulAdd sumS (bigIntToEncodedBytes 1) sjBytes)
      | _ => Panic
      end.

Definition sum_loop `{Externals} (round : base)
    : res (list bool * BigInt.bytes) :=
  sumS ← deref (si (temp round));
  fold_left
    (sum_step (Tss.Index (Tss.partyID (params round)))
              (signRound3Messages (temp round)))
    (seq 0 (length (Tss.IDs (params round))))
    (Ret (ok round, sumS)).

(** The statements shared by both files: guard, bookkeeping, the sum
    [s] and the first three fields of [round.data]. *)
Definition sum_and_save `{Externals} (round : base) : res (base * Z) :=
  let round := set_started true 4 round in
  let round := resetOK round in
  '(oks, sumS) ← sum_loop round;
  let round := set_ok oks round in
  let s := encodedBytesToBigInt sumS in
  let d :=
    {| Signature := bigIntToEncodedBytes (r (temp round)) ++ sumS;
       SigR := BigInt.Bytes (r (temp round));
       SigS := BigInt.Bytes s;
       SigM := SigM (data round) |} in
  Ret (set_data d round, s).

Definition set_M (mb : BigInt.bytes) (round : base) : base :=
  set_data {| Signature := Signature (data round);
              SigR := SigR (data round); SigS := SigS (data round);
              SigM := mb |} round.

Definition already_started (round : base) : base * option Tss.error :=
  (round, Some (WrapError round (Tss.New "round already started") [])).

Definition verification_failed (round : base) : base * option Tss.error :=
  (round,
   Some (WrapError round
           (Tss.New "poseidon-based signature verification failed") [])).

(** [finalization.Start] of eddsa/signing/finalize.go. *)
Definition finalization_Start `{Externals} (round : base)
    : res (base * option Tss.error) :=
  if started round then Ret (already_started round)
  else
    '(round, s) ← sum_and_save round;
    (* Pad the message to a fixed length before hashing *)
    paddedMsg ← BigInt.FillBytes (m (temp round)) 32;
    match poseidon_HashBytes paddedMsg with
    | None =>
        Ret (round,
             Some (WrapError round
                     (Tss.New "poseidon hash computation failed") []))
    | Some poseidonHash =>
        let round := set_M (BigInt.Bytes poseidonHash) round in
        pub ← deref (EDDSAPub (key round));
        pkX ← X pub;
        pkY ← Y pub;
        let poseidonHashBytes := SigM (data round) in
        let okv :=
          edwards_Verify (pkX, pkY) poseidonHashBytes (r (temp round)) s in
        if negb okv then Ret (verification_failed round)
        else Ret (send_end round, None)
    end.

End Finalize.

Module FinalizePart001.
Import Crypto Signing.

(** The challenge the file recomputes: [h = Poseidon(R || A || M) mod N]. *)
Definition challenge `{Externals} (order : Z)
    (RBytes pubKeyBytes MBytes : BigInt.bytes) : option Z :=
  poseidonHash ←
    poseidon_HashBytes (flattenByteSlices [RBytes; pubKeyBytes; MBytes]);
  Some (BigInt.Mod (BigInt.SetBytes (BigInt.Bytes poseidonHash)) order).

(** The comparison [R + hA == s·B] on affine coordinates. *)
Definition equation_holds (c : Curve) (RPoint : Z * Z) (pkX pkY h s : Z)
    : bool :=
  let sB := ScalarBaseMult c (BigInt.Bytes s) in
  let hA := ScalarMult c pkX pkY (BigInt.Bytes h) in
  let RplusHA := Add c (fst RPoint) (snd RPoint) (fst hA) (snd hA) in
  negb (negb (BigInt.Cmp (fst RplusHA) (fst sB) =? 0)
        || negb (BigInt.Cmp (snd RplusHA) (snd sB) =? 0)).

(** [finalization.Start] of unnamed/part_001. *)
Definition finalization_Start `{Externals} (round : base)
    : res (base * option Tss.error) :=
  if started round then Ret (Finalize.already_started round)
  else
    '(round, s) ← Finalize.sum_and_save round;
    MBytes ←
      (if (fullBytesLen (temp round) =? 0)%nat
       then Ret (BigInt.Bytes (m (temp round)))
       else BigInt.FillBytes (m (temp round)) (fullBytesLen (temp round)));
    let round := Finalize.set_M MBytes round in
    pub ← deref (EDDSAPub (key round));
    pkX ← X pub;
    pkY ← Y pub;
    let order := N (Params (Tss.EC (params round))) in
    let RBytes := bigIntToFixedBytes (r (temp round)) 32 in
    let pubKeyBytes := BigInt.Bytes pkX ++ BigInt.Bytes pkY in
    match challenge order RBytes pubKeyBytes MBytes with
    | None =>
        Ret (round,
             Some (WrapError round (Tss.New "poseidon.HashBytes failed") []))
    | Some h =>
        match edwards_ParsePubKey RBytes with
        | None =>
            Ret (round,
                 Some (WrapError round (Tss.New "ParsePubKey failed") []))
        | Some RPoint =>
            if negb (equation_holds (Tss.EC (params round)) RPoint pkX pkY h s)
            then Ret (Finalize.verification_failed round)
            else Ret (send_end round, None)
        end
    end.

End FinalizePart001.

(** ** keygen rounds (unnamed/part_004) *)

Module Keygen.

Definition TaskName : string := "ecdsa-keygen".

(** [base], the fields the embedded methods read. *)
Record base := {
  params : Tss.Parameters;
  ssidNonce : Z;  (* [round.temp.ssidNonce] *)
  ok : list bool;
  started : bool;
  number : Z;
}.

Definition CanProceed (round : base) : bool :=
  if negb (started round) then false
  else forallb (fun o => o) (ok round).

Definition WaitingFor (round : base) : res (list Tss.PartyID) :=
  Signing.WaitingFor_loop (Tss.IDs (params round)) 0 (ok round) [].

(** The list [getSSID] hashes. *)
Definition ssidList (round : base) : list Z :=
  let c := Params (Tss.EC (params round)) in
  let l := [P c; N c; Gx c; Gy c] in
  let l := l ++ Tss.Keys (Tss.IDs (params round)) in
  let l := l ++ [number round] in
  l ++ [ssidNonce round].

(** [getSSID]: SHA-512/256 over the list; the error is always nil. *)
Definition getSSID `{Externals} (round : base) : BigInt.bytes + Tss.error :=
  inl (BigInt.Bytes (SHA512_256i (ssidList round))).

End Keygen.

(** ** ecdsa/signing/rounds.go *)

Module EcdsaSigning.
Import Crypto CryptoOps.

Definition TaskName : string := "signing".

(** [keygen.LocalPartySaveData] and [base], the fields [getSSID] reads. *)
Record LocalPartySaveData := {
  BigXj : option (list (option ECPoint));
  NTildej : list Z;
  H1j : list Z;
  H2j : list Z;
}.

Record base := {
  params : Tss.Parameters;
  key : LocalPartySaveData;
  ssidNonce : Z;  (* [round.temp.ssidNonce] *)
  number : Z;
}.

Definition WrapError (round : base) (err : Tss.error)
    (culprits : list Tss.PartyID) : Tss.error :=
  Tss.NewError err TaskName (number round) (Tss.partyID (params round))
    culprits.

(** The package variable [fieldModulus]: the same thirty bytes as in
    eddsa/signing. *)
Definition fieldModulus : Z :=
  BigInt.SetBytes
    [0x24; 0x03; 0x4b; 0x62; 0xb0; 0x00; 0x00; 0x00; 0x18; 0x00; 0x00; 0x00;
     0xa8; 0x00; 0x00; 0x00; 0x01; 0xd8; 0x00; 0x00; 0x00; 0x4f; 0x00; 0x00;
     0x00; 0x3b; 0x00; 0x00; 0x00; 0x01].

Definition ssidList (round : base) : list Z + Tss.error :=
  let c := Params (Tss.EC (params round)) in
  let l := [P c; N c; B c; Gx c; Gy c] in
  let l := l ++ Tss.Keys (Tss.IDs (params round)) in
  match FlattenECPoints (BigXj (key round)) with
  | inr _ =>
      inr (WrapError round (Tss.New "read BigXj failed")
             [Tss.partyID (params round)])
  | inl BigXjList =>
      let l := l ++ BigXjList in
      let l := l ++ NTildej (key round) in
      let l := l ++ H1j (key round) in
      let l := l ++ H2j (key round) in
      let l := l ++ [number round] in
      inl (l ++ [ssidNonce round])
  end.

Definition maxInputs : nat := 16.

(** The chunking loop [for i := 0; i < len; i += maxInputs]; at most
    [fuel] chunks are taken. *)
Fixpoint chunk_loop `{Externals} (fuel : nat) (rest chunkedHashes : list Z)
    : option (list Z) :=
  match fuel, rest with
  | _, [] => Some chunkedHashes
  | O, _ :: _ => Some chunkedHashes
  | Datatypes.S f, _ :: _ =>
      chunkHash ← poseidon_Hash (take maxInputs rest);
      chunk_loop f (drop maxInputs rest) (chunkedHashes ++ [chunkHash])
  end.

Definition getSSID `{Externals} (round : base) : BigInt.bytes + Tss.error :=
  match ssidList round with
  | inr e => inr e
  | inl l =>
      let validatedInputs := Signing.validate_loop fieldModulus l [] in
      match chunk_loop (length validatedInputs) validatedInputs [] with
      | None =>
          inr (WrapError round (Tss.New "Poseidon hashing for chunk failed")
                 [Tss.partyID (params round)])
      | Some chunkedHashes =>
          match poseidon_Hash chunkedHashes with
          | None =>
              inr (WrapError round (Tss.New "Poseidon final hashing failed")
                     [Tss.partyID (params round)])
          | Some finalHash => inl (BigInt.Bytes finalHash)
          end
      end
  end.

End EcdsaSigning.

(** ** crypto/vss *)

Module VSS.

(** A share [{threshold t, id, share}]. *)
Record Share := {
  Threshold : nat;
  ID : Z;
  Value : Z;  (* field [Share] *)
}.

Inductive error :=
| InvalidParameters
| InsufficientShares.

Definition zsum (l : list Z) : Z := foldr Z.add 0 l.
Definition zprod (l : list Z) : Z := foldr Z.mul 1 l.

Section Scheme.
(** The group order [N] and base-point multiplication [base_mul] of the
    curve abstraction. *)
Context {Point : Type}.
Variable N : Z.
Variable base_mul : Z -> Point.

(** Modelled from the spec: crypto/vss is not among the sources, only
    its tests are.  "[p(x) = s + Σ_{k=1..t} a_k x^k mod N]". *)
Definition evaluatePolynomial (s : Z) (a : list Z) (x : Z) : Z :=
  (s + zsum (imap (fun k a_k => a_k * x ^ Z.of_nat (Datatypes.S k)) a))
    mod N.

(** Modelled from the spec: crypto/vss is not among the sources.
    "Validate: [|I| > t ≥ 1]; every [id ∈ I] is in [(0, N)]; [id]s are
    pairwise distinct." *)
Definition CheckIndexes (t : nat) (ids : list Z) : bool :=
  bool_decide (t < length ids)%nat && bool_decide (1 <= t)%nat
  && forallb (fun id => (0 <? id) && (id <? N)) ids
  && bool_decide (NoDup ids).

(** Modelled from the spec: crypto/vss is not among the sources.
    "Sample [a_1, …, a_t ← U([0, N))]; return [vs = [a_k · G]_{k=0..t}]
    (with [a_0 = s]) and shares [{(id, p(id) mod N) : id ∈ I}]."  The
    samples are the first [t] values of [rng], reduced into [[0, N)]. *)
Definition Create (t : nat) (s : Z) (ids : list Z) (rng : nat -> Z)
    : list Point * list Share + error :=
  if negb (CheckIndexes t ids) then inr InvalidParameters
  else
    let a := map (fun k => rng k mod N) (seq 0 t) in
    let vs := map base_mul (s :: a) in
    let shares :=
      map (fun id => {| Threshold := t; ID := id;
                        Value := evaluatePolynomial s a id |}) ids in
    inl (vs, shares).

(** Modelled from the spec: crypto/vss is not among the sources.
    "[λ_i = Π_{j ≠ i} (−id_j) · (id_i − id_j)^{-1} mod N]", the inverse
    being inversion modulo [N]. *)
Definition lagrange (ids : list Z) (i : nat) (id_i : Z) : Z :=
  zprod (map (fun id_j => (- id_j) * Z.invmod (id_i - id_j) N)
             (delete i ids)) mod N.

(** Modelled from the spec: crypto/vss is not among the sources.
    "Return [Σ λ_i · share_i mod N]." *)
Definition interpolate (S : list Share) : Z :=
  zsum (imap (fun i sh => lagrange (map ID S) i (ID sh) * Value sh) S)
    mod N.

(** Modelled from the spec: crypto/vss is not among the sources.
    "Require [|S| ≥ t+1] and pairwise-distinct [id]s; otherwise fail
    with [InsufficientShares].  Return [Σ λ_i · share_i mod N]." *)
Definition ReConstruct_spec (S : list Share) (t : nat) : Z + error :=
  if bool_decide (t + 1 <= length S)%nat
     && bool_decide (NoDup (map ID S))
  then inl (interpolate S)
  else inr InsufficientShares.

(** [ReConstruct] with the bound the sources fix.  crypto/vss is not
    among the sources, but its tests are: [TestReconstruct] and
    [TestReconstructBJJ] deal with threshold 3 and expect an error from
    [shares[:threshold-1]] and none from [shares[:threshold]], and
    test/utils.go expects none from [pShares[:threshold]].  The tested
    guard therefore refuses fewer than [t] shares, not fewer than
    [t+1]; the rest is as in the specification. *)
Definition ReConstruct (S : list Share) (t : nat) : Z + error :=
  if bool_decide (t <= length S)%nat
     && bool_decide (NoDup (map ID S))
  then inl (interpolate S)
  else inr InsufficientShares.

End Scheme.

(** [shares.ReConstruct(ec)] as the tests call it: the threshold is the
    one the shares carry. *)
Definition Shares_ReConstruct (N : Z) (S : list Share) : Z + error :=
  ReConstruct N S (match S with sh :: _ => Threshold sh | [] => 0%nat end).

Definition Shares_ReConstruct_spec (N : Z) (S : list Share) : Z + error :=
  ReConstruct_spec N S
    (match S with sh :: _ => Threshold sh | [] => 0%nat end).

(** [TestReconstruct] of vss_test ([num, threshold := 5, 3]), for a given
    [ReConstruct], curve order, secret, ids and random source: the three
    assertion groups of the test, in order. *)
Definition TestReconstruct (reconstruct : list Share -> Z + error)
    (shares : list Share) : bool * bool * bool :=
  let threshold := 3%nat in
  let num := 5%nat in
  let a1 :=
    match reconstruct (take (threshold - 1) shares) with
    | inr _ => true   (* assert.Error, assert.Nil *)
    | inl _ => false
    end in
  let a2 :=
    match reconstruct (take threshold shares) with
    | inl secret3 => negb (secret3 =? 0)   (* assert.NoError, NotZero *)
    | inr _ => false
    end in
  let a3 :=
    match reconstruct (take num shares) with
    | inl secret4 => negb (secret4 =? 0)
    | inr _ => false
    end in
  (a1, a2, a3).

End VSS.

(** ** The rest of eddsa/signing/round_1.go *)

Module Round1.
Import Signing.

(** [newRound1]: a fresh [ok] vector with one entry per party; the two
    channels are given by what was sent on them so far. *)
Definition newRound1 (params : Tss.Parameters) (key : LocalPartySaveData)
    (data : SignatureData) (temp : localTempData)
    (out : list ParsedMessage) (end_ : list SignatureData) : base :=
  {| Signing.params := params; Signing.key := key; Signing.data := data;
     Signing.temp := temp; out_ch := out; end_ch := end_;
     ok := replicate (length (Tss.IDs params)) false;
     started := false; number := 1 |}.

(** [round1.CanAccept] *)
Definition CanAccept (msg : ParsedMessage) : bool :=
  match Content msg with
  | Round1Content _ => IsBroadcast msg
  | _ => false
  end.

(** The loop of [round1.Update] over [round.temp.signRound1Messages];
    reading [round.ok[j]] past the end of [ok] panics. *)
Fixpoint Update_loop (j : nat) (msgs : list (option ParsedMessage))
    (oks : list bool) (ret : bool) : res (list bool * bool) :=
  match msgs with
  | [] => Ret (oks, ret)
  | msg :: rest =>
      res_bind (deref (oks !! j)) (fun o : bool =>
      if o then Update_loop (Datatypes.S j) rest oks ret
      else
        match msg with
        | None => Update_loop (Datatypes.S j) rest oks false
        | Some m =>
            if negb (CanAccept m)
            then Update_loop (Datatypes.S j) rest oks false
            else Update_loop (Datatypes.S j) rest (<[j := true]> oks) ret
        end)
  end.

(** [round1.Update]: the round after the call, the boolean and the error
    (always nil). *)
Definition Update (round : base) : res (base * bool * option Tss.error) :=
  r ← Update_loop 0 (signRound1Messages (temp round)) (ok round) true;
  Ret (set_ok r.1 round, r.2, None).

End Round1.

(** ** The rest of the ECPoint file (unnamed/part_000) *)

Module ECPointOps.
Import Crypto CryptoOps.

(** [(p *ECPoint).Add(p1)]: the sum is computed on the receiver's curve
    and passed to [NewECPoint]; a nil coordinate panics in [X()]/[Y()]. *)
Definition Add (p p1 : ECPoint) : res (ECPoint + string) :=
  x0 ← X p; y0 ← Y p; x1 ← X p1; y1 ← Y p1;
  let xy := Add (curve p) x0 y0 x1 y1 in
  Ret (NewECPoint (curve p) (Some (fst xy)) (Some (snd xy))).

(** [(p *ECPoint).ScalarMult(k)]: an error of [NewECPoint] is a panic. *)
Definition ScalarMult (p : ECPoint) (k : Z) : res ECPoint :=
  x0 ← X p; y0 ← Y p;
  let xy := ScalarMult (curve p) x0 y0 (BigInt.Bytes k) in
  match NewECPoint (curve p) (Some (fst xy)) (Some (snd xy)) with
  | inl newP => Ret newP
  | inr _ => Panic
  end.

(** [(p *ECPoint).SetCurve(curve)] *)
Definition SetCurve (c : Curve) (p : ECPoint) : ECPoint :=
  {| curve := c; coords := coords p |}.

(** [(p *ECPoint).ValidateBasic()] on a pointer. *)
Definition ValidateBasic (p : option ECPoint) : bool :=
  match p with
  | None => false
  | Some p =>
      match coords p with
      | (Some _, Some _) => ECPoint_IsOnCurve p
      | _ => false
      end
  end.

(** The first loop of [UnFlattenECPoints], two entries at a time; the
    first pair that [NewECPoint] refuses ends it. *)
Fixpoint unflatten_loop (c : Curve) (check : bool) (input : list (option Z))
    : list ECPoint + string :=
  match input with
  | x :: y :: rest =>
      let next (p : ECPoint) :=
        match unflatten_loop c check rest with
        | inl unFlat => inl (p :: unFlat)
        | inr err => inr err
        end in
      if check then
        match NewECPoint c x y with
        | inl p => next p
        | inr err => inr err
        end
      else next (NewECPointNoCurveCheck c x y)
  | _ => inl []
  end.

Definition nil_coordinate (p : ECPoint) : bool :=
  match coords p with
  | (Some _, Some _) => false
  | _ => true
  end.

(** [UnFlattenECPoints(curve, in, noCurveCheck...)]: [None] is the nil
    slice, [noCurveCheck] the variadic argument. *)
Definition UnFlattenECPoints (c : Curve) (input : option (list (option Z)))
    (noCurveCheck : list bool) : list ECPoint + string :=
  match input with
  | None => inr "UnFlattenECPoints expected an in len divisible by 2"%string
  | Some l =>
      if negb (length l mod 2 =? 0)%nat
      then inr "UnFlattenECPoints expected an in len divisible by 2"%string
      else
        let check :=
          match noCurveCheck with
          | [] => true
          | b :: _ => negb b
          end in
        match unflatten_loop c check l with
        | inr err => inr err
        | inl unFlat =>
            if existsb nil_coordinate unFlat
            then inr "UnFlattenECPoints found nil coordinate after unpack"%string
            else inl unFlat
        end
  end.

End ECPointOps.

(** ** The rest of messages.go (unnamed/part_001) *)

Module Messages.
Import Crypto Signing.

(** [(m *SignRound2Message).UnmarshalZKProof(ec)] *)
Definition UnmarshalZKProof (ec : Curve) (msg : SignRound2Message)
    : ZKProof + string :=
  match NewECPoint ec (Some (BigInt.SetBytes (ProofAlphaX msg)))
          (Some (BigInt.SetBytes (ProofAlphaY msg))) with
  | inr err => inr err
  | inl point =>
      inl {| Alpha := point; T := BigInt.SetBytes (ProofT msg) |}
  end.

End Messages.

(** ** rsa/signShare.go *)

Module RSA.

(** [SignShare]: the [uint] fields are naturals, [Xi] may be nil. *)
Record SignShare := {
  Xi : option Z;
  Index : BinNums.N;
  Players : BinNums.N;
  Threshold : BinNums.N;
}.

Definition MaxUint16 : Z := 65535.
Definition MaxInt16 : Z := 32767.

(** The conversion [uint16(v)]. *)
Definition uint16 (v : Z) : Z := v mod 65536.

(** [binary.BigEndian.PutUint16] and [binary.BigEndian.Uint16]. *)
Definition PutUint16 (v : Z) : BigInt.bytes := [v / 256; v mod 256].
Definition Uint16 (b0 b1 : Z) : Z := b0 * 256 + b1.

(** [(s *SignShare).MarshalBinary()]:
    [| Players | Threshold | Index | xiLen | xi |], the first four as
    big-endian 16-bit numbers.  A nil [Xi] panics in [Bytes()], after the
    three range checks. *)
Definition MarshalBinary (s : SignShare) : res (BigInt.bytes + string) :=
  if MaxUint16 <? Z.of_N (Players s) then
    Ret (inr "rsa_threshold: signshare marshall: Players is too big to fit in a uint16"%string)
  else if MaxUint16 <? Z.of_N (Threshold s) then
    Ret (inr "rsa_threshold: signshare marshall: Threshold is too big to fit in a uint16"%string)
  else if MaxUint16 <? Z.of_N (Index s) then
    Ret (inr "rsa_threshold: signshare marshall: Index is too big to fit in a uint16"%string)
  else
    let players := uint16 (Z.of_N (Players s)) in
    let threshold := uint16 (Z.of_N (Threshold s)) in
    let index := uint16 (Z.of_N (Index s)) in
    xi ← deref (Xi s);
    let xiBytes := BigInt.Bytes xi in
    let xiLen := Z.of_nat (length xiBytes) in
    if MaxInt16 <? xiLen then
      Ret (inr "rsa_threshold: signshare marshall: xiBytes is too big to fit it's length in a uint16"%string)
    else
      let '(xiLen, xiBytes) :=
        if xiLen =? 0 then (1, [0]) else (xiLen, xiBytes) in
      Ret (inl (PutUint16 players ++ PutUint16 threshold ++ PutUint16 index
                  ++ PutUint16 (uint16 xiLen) ++ xiBytes)).

(** [(s *SignShare).UnmarshalBinary(data)]: the share assigned to the
    receiver, or the error (the receiver is then left as it was).  The
    length of the payload is compared after conversion to [uint16], and
    the upper bound of the slice [data[8:8+xiLen]] is a [uint16] sum: it
    wraps for [xiLen] above 65527, and slicing from 8 up to a bound below
    8 panics. *)
Definition UnmarshalBinary (data : BigInt.bytes)
    : res (SignShare + string) :=
  match data with
  | p0 :: p1 :: t0 :: t1 :: i0 :: i1 :: l0 :: l1 :: rest =>
      let players := Uint16 p0 p1 in
      let threshold := Uint16 t0 t1 in
      let index := Uint16 i0 i1 in
      let xiLen := Uint16 l0 l1 in
      if xiLen =? 0 then
        Ret (inr "rsa_threshold: signshare unmarshalKeyShareTest failed: xi is a required field but xiLen was 0"%string)
      else if uint16 (Z.of_nat (length rest)) <? xiLen then
        Ret (inr "rsa_threshold: signshare unmarshalKeyShareTest failed: data length was too short for reading xi"%string)
      else
        let high := uint16 (8 + xiLen) in
        if high <? 8 then Panic
        else
          let bytes := take (Z.to_nat (high - 8)) rest in
          let xi := BigInt.SetBytes bytes in
          Ret (inl {| Xi := Some xi; Index := Z.to_N index;
                      Players := Z.to_N players;
                      Threshold := Z.to_N threshold |})
  | _ =>
      Ret (inr "rsa_threshold: signshare unmarshalKeyShareTest failed: data length was too short for reading Players, Threshold, Index, and xiLen"%string)
  end.

(** The conversion to [int64], two's complement. *)
Definition int64 (z : Z) : Z := (z + 2 ^ 63) mod 2 ^ 64 - 2 ^ 63.

(** The variables of the loop of [ComputeLambda]. *)
Record lambda_vars := {
  foundi : bool;
  foundj : bool;
  num : Z;
  den : Z;
}.

(** The loop of [ComputeLambda] over [S]: [continue] on [j], [break] on
    [i]; the products are [int64] products. *)
Fixpoint lambda_loop (S : list SignShare) (i j : Z) (v : lambda_vars)
    : lambda_vars :=
  match S with
  | [] => v
  | s :: rest =>
      let jprime := int64 (Z.of_N (Index s)) in
      if jprime =? j then
        lambda_loop rest i j
          {| foundi := foundi v; foundj := true; num := num v; den := den v |}
      else if jprime =? i then
        {| foundi := false; foundj := foundj v; num := num v; den := den v |}
      else
        lambda_loop rest i j
          {| foundi := foundi v; foundj := foundj v;
             num := int64 (num v * int64 (i - jprime));
             den := int64 (den v * int64 (j - jprime)) |}
  end.

(** [(z *big.Int).Div(x, y)]: Euclidean division, a panic for [y = 0]. *)
Definition Div (x y : Z) : res Z :=
  if y =? 0 then Panic
  else Ret (if 0 <? y then x / y else - (x / - y)).

(** [ComputeLambda(delta, S, i, j)]; the quotient is taken before the
    two precondition checks. *)
Definition ComputeLambda (delta : Z) (S : list SignShare) (i j : Z)
    : res (Z + string) :=
  if i =? j then
    Ret (inr "rsa_threshold: i and j can't be equal by precondition"%string)
  else
    let v := lambda_loop S i j
               {| foundi := false; foundj := false; num := 1; den := 1 |} in
    lambda ← Div (num v) (den v);
    let lambda := delta * lambda in
    if foundi v then Ret (inr "rsa_threshold: i should not be in S"%string)
    else if negb (foundj v) then
      Ret (inr "rsa_threshold: j should be in S"%string)
    else Ret (inl lambda).

End RSA.

(** ** Gob encoding of an ECPoint (unnamed/part_000) *)

Module Gob.
Import Crypto.

(** [(x *big.Int).GobEncode()]: nothing for a nil pointer, otherwise the
    byte [intGobVersion<<1 | sign] followed by the bytes of [|x|]. *)
Definition Int_GobEncode (x : option Z) : BigInt.bytes :=
  match x with
  | None => []
  | Some v => (if v <? 0 then 3 else 2) :: BigInt.Bytes v
  end.

(** [(z *big.Int).GobDecode(buf)]: an empty buffer is zero; the version in
    the first byte must be 1. *)
Definition Int_GobDecode (buf : BigInt.bytes) : Z + string :=
  match buf with
  | [] => inl 0
  | b :: rest =>
      if negb (b / 2 =? 1)
      then inr "Int.GobDecode: encoding version not supported"%string
      else
        let abs := BigInt.SetBytes rest in
        inl (if negb (b mod 2 =? 0) then - abs else abs)
  end.

(** The conversion [uint32(n)] and [binary.Write(buf, LittleEndian, n)]. *)
Definition uint32 (n : Z) : Z := n mod 2 ^ 32.

Definition PutUint32 (n : Z) : BigInt.bytes :=
  [n mod 256; (n / 256) mod 256; (n / 65536) mod 256; (n / 16777216) mod 256].

(** [(p *ECPoint).GobEncode()]; none of its calls can fail. *)
Definition GobEncode (p : ECPoint) : BigInt.bytes :=
  let x := Int_GobEncode (fst (coords p)) in
  let y := Int_GobEncode (snd (coords p)) in
  PutUint32 (uint32 (Z.of_nat (length x))) ++ x
    ++ PutUint32 (uint32 (Z.of_nat (length y))) ++ y.

(** [binary.Read(reader, LittleEndian, &length)] on what is left of the
    buffer: the number and the rest, or the error when fewer than four
    bytes are left. *)
Definition read_length (unread : BigInt.bytes) : option (Z * BigInt.bytes) :=
  match unread with
  | b0 :: b1 :: b2 :: b3 :: rest =>
      Some (b0 + 256 * b1 + 65536 * b2 + 16777216 * b3, rest)
  | _ => None
  end.

(** [n, err := reader.Read(x)] with [len(x) = length], followed by the
    test [n != int(length) || err != nil]: a reader at its end returns
    [io.EOF] whatever the length asked for. *)
Definition read_bytes (len : Z) (unread : BigInt.bytes)
    : option (BigInt.bytes * BigInt.bytes) :=
  match unread with
  | [] => None
  | _ :: _ =>
      if Z.of_nat (length unread) <? len then None
      else Some (take (Z.to_nat len) unread, drop (Z.to_nat len) unread)
  end.

(** [(p *ECPoint).GobDecode(buf)]: the receiver after the call and the
    error returned ([None] is nil).  The receiver is assigned before the
    curve test, and the curve is always [tss.EC()]. *)
Definition GobDecode (g : Tss.Globals) (p : ECPoint) (buf : BigInt.bytes)
    : ECPoint * option string :=
  match read_length buf with
  | None => (p, Some "unexpected EOF"%string)
  | Some (len, unread) =>
      match read_bytes len unread with
      | None => (p, Some "gob decode failed"%string)
      | Some (x, unread) =>
          match read_length unread with
          | None => (p, Some "unexpected EOF"%string)
          | Some (len, unread) =>
              match read_bytes len unread with
              | None => (p, Some "gob decode failed"%string)
              | Some (y, _) =>
                  match Int_GobDecode x with
                  | inr err => (p, Some err)
                  | inl X =>
                      match Int_GobDecode y with
                      | inr err => (p, Some err)
                      | inl Y =>
                          let p := {| curve := Tss.ec g;
                                      coords := (Some X, Some Y) |} in
                          if negb (ECPoint_IsOnCurve p)
                          then (p, Some "ECPoint.UnmarshalJSON: the point is not on the elliptic curve"%string)
                          else (p, None)
                      end
                  end
              end
          end
      end
  end.

End Gob.

(** ** common: [RejectionSample] (unnamed/part_005) *)

Module Common.

(** [z.Mod(x, y)] with its division-by-zero panic. *)
Definition Mod (x y : Z) : res Z :=
  if y =? 0 then Panic else Ret (BigInt.Mod x y).

(** [RejectionSample(q, eHash)]: [eHash.Mod(eHash, q)] writes into the
    caller's [eHash] and returns that same pointer; the pair is the value
    returned and the value [eHash] holds afterwards. *)
Definition RejectionSample (q eHash : Z) : res (Z * Z) :=
  e ← Mod eHash q;
  Ret (e, e).

(** [RejectionSampleWithPoseidon(q, inputs)] *)
Definition RejectionSampleWithPoseidon `{Externals} (q : Z)
    (inputs : list Z) : res (Z + string) :=
  match poseidon_Hash inputs with
  | None => Ret (inr "poseidon.Hash failed"%string)
  | Some eHash =>
      e ← Mod eHash q;
      Ret (inl e)
  end.

End Common.

(** ** ecdsa/resharing: rounds.go *)

Module Resharing.
Import Crypto CryptoOps.

Definition TaskName : string := "ecdsa-resharing".

(** [base], the fields the embedded methods read; [input] is the
    [keygen.LocalPartySaveData] of the old committee. *)
Record base := {
  params : Tss.Parameters;
  input : EcdsaSigning.LocalPartySaveData;
  ssidNonce : Z;  (* [round.temp.ssidNonce] *)
  oldOK : list bool;
  newOK : list bool;
  started : bool;
  number : Z;
}.

Definition set_ok (old new : list bool) (round : base) : base :=
  {| params := params round; input := input round;
     ssidNonce := ssidNonce round; oldOK := old; newOK := new;
     started := started round; number := number round |}.

(** [CanProceed]: the loop runs over [append(round.oldOK, round.newOK...)]. *)
Definition CanProceed (round : base) : bool :=
  if negb (started round) then false
  else forallb (fun o => o) (oldOK round ++ newOK round).

Definition WrapError (round : base) (err : Tss.error)
    (culprits : list Tss.PartyID) : Tss.error :=
  Tss.NewError err TaskName (number round) (Tss.partyID (params round))
    culprits.

(** [resetOK], [allOldOK], [allNewOK] *)
Definition resetOK (round : base) : base :=
  set_ok (map (fun _ => false) (oldOK round))
         (map (fun _ => false) (newOK round)) round.

Definition allOldOK (round : base) : base :=
  set_ok (map (fun _ => true) (oldOK round)) (newOK round) round.

Definition allNewOK (round : base) : base :=
  set_ok (oldOK round) (map (fun _ => true) (newOK round)) round.

(** [hashWithPoseidon]: the chunking loop is, statement for statement, the
    one of [getSSID] in ecdsa/signing. *)
Definition hashWithPoseidon `{Externals} (inputs : list Z)
    : BigInt.bytes + string :=
  match EcdsaSigning.chunk_loop (length inputs) inputs [] with
  | None => inr "failed to hash chunk"%string
  | Some hashes =>
      match poseidon_Hash hashes with
      | None => inr "failed to hash final hashes"%string
      | Some finalHash => inl (BigInt.Bytes finalHash)
      end
  end.

(** The constant parsed by [SetString] in [getSSID]. *)
Definition poseidonPrime : Z :=
  21888242871839275222246405745257275088548364400416034343698204186575808495617.

Definition ssidList (round : base) : list Z + Tss.error :=
  let c := Params (Tss.EC (params round)) in
  let l := [P c; N c; B c; Gx c; Gy c] in
  let l := l ++ Tss.Keys (Tss.IDs (params round)) in
  match FlattenECPoints (EcdsaSigning.BigXj (input round)) with
  | inr _ =>
      inr (WrapError round (Tss.New "read BigXj failed")
             [Tss.partyID (params round)])
  | inl BigXjList =>
      let l := l ++ BigXjList in
      let l := l ++ EcdsaSigning.NTildej (input round) in
      let l := l ++ EcdsaSigning.H1j (input round) in
      let l := l ++ EcdsaSigning.H2j (input round) in
      let l := l ++ [number round] in
      inl (l ++ [ssidNonce round])
  end.

(** [getSSID(usePoseidon)] *)
Definition getSSID `{Externals} (round : base) (usePoseidon : bool)
    : BigInt.bytes + Tss.error :=
  match ssidList round with
  | inr e => inr e
  | inl l =>
      if usePoseidon then
        let l := map (fun input => BigInt.Mod input poseidonPrime) l in
        match hashWithPoseidon l with
        | inr _ =>
            inr (WrapError round (Tss.New "Poseidon hash computation failed")
                   [Tss.partyID (params round)])
        | inl ssidHash => inl ssidHash
        end
      else inl (BigInt.Bytes (SHA512_256i l))
  end.

End Resharing.

(** ** A miniature instance

    The group is [Z_7] written additively, a point is [(x, 0)] with
    generator [(1, 0)], and every library function is a small stand-in of
    the right shape.  It serves to run the embedded code on concrete
    states. *)

(** The BN254 scalar-field prime [p_F] ([poseidonPrime] in the resharing
    rounds and the tests). *)
Definition BN254_scalar_field : Z :=
  21888242871839275222246405745257275088548364400416034343698204186575808495617.

Module Toy.
Import Crypto Signing.

Definition curve : Curve :=
  {| Params := {| P := 13; N := 7; B := 5; Gx := 1; Gy := 0 |};
     IsOnCurve := fun x y => (0 <=? x) && (x <? 7) && (y =? 0);
     Add := fun x1 y1 x2 y2 => ((x1 + x2) mod 7, 0);
     ScalarMult := fun x y k => ((x * BigInt.SetBytes k) mod 7, 0);
     ScalarBaseMult := fun k => (BigInt.SetBytes k mod 7, 0) |}.

(** [n] little-endian bytes of [a]. *)
Definition le_bytes (n : nat) (a : Z) : BigInt.bytes :=
  map (fun i => (a / 256 ^ Z.of_nat i) mod 256) (seq 0 n).

Definition le_number (b : BigInt.bytes) : Z :=
  foldr (fun d acc => d + 256 * acc) 0 b.

(** The stand-in for the stock verifier: [s·G = R + k·Y] in [Z_7], with
    the challenge [k] drawn from [R], [Y] and the message by a stand-in
    for the standard hash. *)
Definition verify (pk : Z * Z) (msg : BigInt.bytes) (r s : Z) : bool :=
  let k := (r + fst pk + snd pk + BigInt.SetBytes msg + 3) mod 7 in
  s mod 7 =? (r + k * fst pk) mod 7.

#[export] Instance externals : Externals :=
  {| poseidon_HashBytes := fun b =>
       Some ((BigInt.SetBytes b + 1) mod BN254_scalar_field);
     poseidon_Hash := fun l =>
       Some ((VSS.zsum l + 1) mod BN254_scalar_field);
     SHA512_256i := fun l => VSS.zsum l mod 2 ^ 256;
     edwards_Verify := verify;
     edwards_ParsePubKey := fun b =>
       let x := BigInt.SetBytes b in
       if (0 <=? x) && (x <? 7) then Some (x, 0) else None;
     bjj_B8_Mul := fun k => (k mod 7, 0);
     GetRandomPositiveInt := fun rnd n => (hd 0 rnd mod n, tl rnd);
     bigIntToEncodedBytes := le_bytes 32;
     encodedBytesToBigInt := le_number;
     bigIntToFixedBytes := fun a n => rev (le_bytes n a);
     flattenByteSlices := concat (A:=Z);
     ScMulAdd := fun a b c =>
       le_bytes 32 ((le_number a * le_number b + le_number c) mod 7) |}.

(** The same instance with another stand-in for the sponge. *)
Definition externals_other_sponge : Externals :=
  {| poseidon_HashBytes := fun b =>
       Some ((BigInt.SetBytes b + 2) mod BN254_scalar_field);
     poseidon_Hash := @poseidon_Hash externals;
     SHA512_256i := @SHA512_256i externals;
     edwards_Verify := verify;
     edwards_ParsePubKey := @edwards_ParsePubKey externals;
     bjj_B8_Mul := @bjj_B8_Mul externals;
     GetRandomPositiveInt := @GetRandomPositiveInt externals;
     bigIntToEncodedBytes := le_bytes 32;
     encodedBytesToBigInt := le_number;
     bigIntToFixedBytes := fun a n => rev (le_bytes n a);
     flattenByteSlices := concat (A:=Z);
     ScMulAdd := @ScMulAdd externals |}.

Definition P0 : Tss.PartyID :=
  {| Tss.Moniker := "P[1]"; Tss.Key := 1; Tss.Index := 0 |}.
Definition P1 : Tss.PartyID :=
  {| Tss.Moniker := "P[2]"; Tss.Key := 2 ^ 250 + 1; Tss.Index := 1 |}.

Definition parameters : Tss.Parameters :=
  {| Tss.EC := curve; Tss.IDs := [P0; P1]; Tss.partyID := P0;
     Tss.Threshold := 1; Tss.Rand := [3; 5; 6] |}.

Definition point (x : Z) : ECPoint :=
  NewECPointNoCurveCheck curve (Some x) (Some 0).

Definition save_data : LocalPartySaveData :=
  {| Xi := 4; Ks := [1; 2];
     BigXj := Some [Some (point 4); Some (point 2)];
     EDDSAPub := Some (point 1) |}.

Definition no_data : SignatureData :=
  {| Signature := []; SigR := []; SigS := []; SigM := [] |}.

(** A signing party about to start round 1. *)
Definition fresh_round : base :=
  {| params := parameters; key := save_data; data := no_data;
     temp := {| signRound1Messages := [None; None];
                signRound3Messages := [None; None];
                m := 200; fullBytesLen := 0; deCommit := [];
                si := None; r := 0; ssid := None; ssidNonce := 0 |};
     out_ch := []; end_ch := [];
     ok := [false; false]; started := false; number := 1 |}.

(** A signing party about to finalize: [R = 2], own share [s_0] and the
    peer's [s_1] in its round-3 message. *)
Definition final_round (s0 s1 : Z) : base :=
  {| params := parameters; key := save_data; data := no_data;
     temp := {| signRound1Messages := [None; None];
                signRound3Messages :=
                  [None; Some (NewSignRound3Message P1 s1)];
                m := 200; fullBytesLen := 0; deCommit := [];
                si := Some (le_bytes 32 s0); r := 2; ssid := None;
                ssidNonce := 0 |};
     out_ch := []; end_ch := [];
     ok := [true; true]; started := false; number := 3 |}.

(** [final_round s0 s1] after the guard, the bookkeeping, the sum
    [s = s0 + s1] and the first three fields of the signature data. *)
Definition summed_round (s0 s1 : Z) : base :=
  set_data
    {| Signature := le_bytes 32 2 ++ le_bytes 32 ((s0 + s1) mod 7);
       SigR := [2]; SigS := BigInt.Bytes ((s0 + s1) mod 7); SigM := [] |}
    (set_ok [true; true] (set_started true 4 (final_round s0 s1))).

Definition keygen_round : Keygen.base :=
  {| Keygen.params := parameters; Keygen.ssidNonce := 0;
     Keygen.ok := [true; false]; Keygen.started := true;
     Keygen.number := 1 |}.

Definition globals : Tss.Globals :=
  {| Tss.registry := {[ "ed25519"%string := curve ]}; Tss.ec := curve |}.

End Toy.

(** * Properties *)

(** ** math/big: [SetBytes] undoes [Bytes] *)

Section BigIntFacts.
Import BigInt.

Definition le_value (l : list Z) : Z := foldr (fun d acc => d + 256 * acc) 0 l.

Lemma SetBytes_app (b : bytes) (d : Z) :
  SetBytes (b ++ [d]) = SetBytes b * 256 + d.
Proof. unfold SetBytes. now rewrite fold_left_app. Qed.

Lemma SetBytes_rev (l : list Z) : SetBytes (rev l) = le_value l.
Proof.
  induction l as [|d l IH]; [reflexivity|].
  simpl rev. rewrite SetBytes_app, IH. simpl. lia.
Qed.

Lemma le_digits_value (fuel : nat) :
  forall n, 0 <= n < 256 ^ Z.of_nat fuel -> le_value (le_digits fuel n) = n.
Proof.
  induction fuel as [|f IH]; intros n Hn.
  - simpl in *. lia.
  - simpl le_digits. destruct (Z.eqb_spec n 0) as [->|Hnz]; [reflexivity|].
    simpl. rewrite IH.
    + pose proof (Z.div_mod n 256). lia.
    + rewrite Nat2Z.inj_succ, Z.pow_succ_r in Hn by lia.
      split; [apply Z.div_pos; lia|].
      apply Z.div_lt_upper_bound; lia.
Qed.

Lemma le_digits_range (fuel : nat) :
  forall n, Forall (fun d => 0 <= d < 256) (le_digits fuel n).
Proof.
  induction fuel as [|f IH]; intros n; simpl; [constructor|].
  destruct (n =? 0); constructor; [|apply IH].
  apply Z.mod_pos_bound. lia.
Qed.

Lemma log2_fuel (a : Z) : 0 <= a -> a < 256 ^ Z.of_nat (Datatypes.S (Z.to_nat (Z.log2 a))).
Proof.
  intros Ha. destruct (Z.eq_dec a 0) as [->|Hnz].
  - apply Z.pow_pos_nonneg; lia.
  - pose proof (Z.log2_nonneg a) as Hl.
    assert (Hs : a < 2 ^ Z.succ (Z.log2 a)) by (apply Z.log2_spec; lia).
    rewrite Nat2Z.inj_succ, Z2Nat.id by lia.
    eapply Z.lt_le_trans; [exact Hs|].
    apply Z.pow_le_mono_l. lia.
Qed.

Lemma SetBytes_Bytes (x : Z) : SetBytes (Bytes x) = Z.abs x.
Proof.
  unfold Bytes. cbv zeta. rewrite SetBytes_rev.
  apply le_digits_value. split; [lia|]. apply log2_fuel. lia.
Qed.

Lemma Mod_range (x q : Z) : q <> 0 -> 0 <= Mod x q < Z.abs q.
Proof. intros Hq. unfold Mod. apply Z.mod_pos_bound. lia. Qed.

End BigIntFacts.

(** ** [ECPoint.Equals] *)

Section EqualsFacts.
Import Crypto.

Lemma Cmp_eq0 (x y : Z) : (BigInt.Cmp x y =? 0) = bool_decide (x = y).
Proof.
  unfold BigInt.Cmp. destruct (Z.compare_spec x y) as [->|Hlt|Hgt]; simpl.
  - now rewrite bool_decide_eq_true_2.
  - rewrite bool_decide_eq_false_2; [reflexivity|lia].
  - rewrite bool_decide_eq_false_2; [reflexivity|lia].
Qed.

(** C10, amended.  [Equals] answers false, without touching a
    coordinate, as soon as the receiver or the argument is nil.  On two
    points that are not nil it reads the [X] coordinates first and the
    [Y] coordinates only when the [X] coordinates agree: it answers true
    exactly when both coordinate pairs agree if the coordinates are all
    set, answers false on different [X] coordinates whatever the [Y]
    coordinates are, and panics exactly when a coordinate it reads is
    nil. *)
Theorem Equals_nil_safe (p p2 : option ECPoint) :
  ((p = None \/ p2 = None) -> Equals p p2 = Ret false) /\
  (forall a b,
      p = Some a -> p2 = Some b ->
      (forall x1 y1 x2 y2,
          coords a = (Some x1, Some y1) -> coords b = (Some x2, Some y2) ->
          Equals p p2 = Ret (bool_decide (x1 = x2 /\ y1 = y2))) /\
      (forall x1 x2,
          fst (coords a) = Some x1 -> fst (coords b) = Some x2 ->
          x1 <> x2 -> Equals p p2 = Ret false) /\
      (Equals p p2 = Panic
       <-> fst (coords a) = None \/ fst (coords b) = None \/
           (fst (coords a) = fst (coords b) /\
            (snd (coords a) = None \/ snd (coords b) = None)))).
Proof.
  split.
  - intros [-> | ->]; [reflexivity|]. now destruct p.
  - intros a b -> ->. split; [|split].
    + intros x1 y1 x2 y2 Ha Hb.
      unfold Equals, X, Y. rewrite Ha, Hb. simpl.
      rewrite !Cmp_eq0.
      destruct (decide (x1 = x2)) as [->|Hx].
      * rewrite bool_decide_eq_true_2 by reflexivity. simpl.
        destruct (decide (y1 = y2)) as [->|Hy].
        -- now rewrite !bool_decide_eq_true_2.
        -- rewrite !bool_decide_eq_false_2; [reflexivity| |]; tauto.
      * rewrite bool_decide_eq_false_2 by assumption. simpl.
        rewrite bool_decide_eq_false_2; [reflexivity|tauto].
    + intros x1 x2 Ha Hb Hx.
      unfold Equals, X, Y. rewrite Ha, Hb. simpl.
      rewrite Cmp_eq0, bool_decide_eq_false_2 by assumption. reflexivity.
    + unfold Equals, X, Y.
      destruct (coords a) as [[x1|] ya], (coords b) as [[x2|] yb]; simpl;
        try (split; [intros _|reflexivity]; tauto).
      rewrite Cmp_eq0.
      destruct (decide (x1 = x2)) as [->|Hx].
      * rewrite bool_decide_eq_true_2 by reflexivity. simpl.
        destruct ya as [y1|], yb as [y2|]; simpl;
          try (split; [intros _|reflexivity]; tauto).
        split; [discriminate|].
        intros [H1|[H1|[_ [H1|H1]]]]; discriminate.
      * rewrite bool_decide_eq_false_2 by assumption. simpl.
        split; [discriminate|].
        intros [H1|[H1|[H1 _]]]; try discriminate. congruence.
Qed.

Lemma Equals_nil_safe_witness :
  Equals None (Some (NewECPointNoCurveCheck Toy.curve (Some 3) (Some 0)))
    = Ret false /\
  Equals (Some (NewECPointNoCurveCheck Toy.curve (Some 3) (Some 0)))
         (Some (NewECPointNoCurveCheck Toy.curve (Some 3) (Some 0)))
    = Ret (bool_decide (3 = 3 /\ 0 = 0)) /\
  Equals (Some (NewECPointNoCurveCheck Toy.curve (Some 3) None))
         (Some (NewECPointNoCurveCheck Toy.curve (Some 4) (Some 0)))
    = Ret false.
Proof.
  set (a := NewECPointNoCurveCheck Toy.curve (Some 3) (Some 0)).
  set (b := NewECPointNoCurveCheck Toy.curve (Some 3) None).
  set (c := NewECPointNoCurveCheck Toy.curve (Some 4) (Some 0)).
  split; [|split].
  - apply (proj1 (Equals_nil_safe None (Some a))). now left.
  - apply (proj1 (proj2 (Equals_nil_safe (Some a) (Some a)) a a
                    eq_refl eq_refl) 3 0 3 0); reflexivity.
  - apply (proj1 (proj2 (proj2 (Equals_nil_safe (Some b) (Some c)) b c
                           eq_refl eq_refl)) 3 4); [reflexivity..|lia].
Defined.

(** C10, as stated, fails: a point that is not nil but lacks a
    coordinate, as [NewECPointNoCurveCheck] or a failed [UnmarshalJSON]
    leaves it, makes [X()] panic, so [Equals] returns neither true nor
    false, not even on two equal coordinate pairs. *)
Example Equals_nil_coordinate_panics :
  (Equals (Some (NewECPointNoCurveCheck Toy.curve None (Some 0)))
          (Some (NewECPointNoCurveCheck Toy.curve (Some 3) (Some 0)))
   = Panic) /\
  (Equals (Some (NewECPointNoCurveCheck Toy.curve None (Some 0)))
          (Some (NewECPointNoCurveCheck Toy.curve None (Some 0)))
   = Panic).
Proof. split; reflexivity. Qed.

End EqualsFacts.

(** ** [WaitingFor] *)

Section WaitingForFacts.
Import Signing.

(** The peers still awaited, read off the two vectors side by side. *)
Definition awaited (oks : list bool) (Ps : list Tss.PartyID)
    : list Tss.PartyID :=
  snd <$> filter (fun op => fst op = false) (zip oks Ps).

Lemma WaitingFor_loop_spec (Ps : list Tss.PartyID) :
  forall oks j ids,
    (length oks <= length (drop j Ps))%nat ->
    WaitingFor_loop Ps j oks ids = Ret (ids ++ awaited oks (drop j Ps)).
Proof.
  induction oks as [|o rest IH]; intros j ids Hlen.
  - simpl. unfold awaited. simpl. now rewrite app_nil_r.
  - simpl in Hlen.
    destruct (Ps !! j) as [p|] eqn:Hj.
    2:{ apply lookup_ge_None in Hj. rewrite length_drop in Hlen. lia. }
    pose proof (drop_S _ _ _ Hj) as Hd. rewrite Hd in *. simpl in Hlen.
    simpl. unfold awaited. simpl zip. rewrite filter_cons. simpl.
    destruct o; simpl.
    + apply IH. lia.
    + rewrite Hj. simpl.
      rewrite IH by lia. unfold awaited. now rewrite <- app_assoc.
Qed.

Lemma awaited_elem (oks : list bool) (Ps : list Tss.PartyID) (p : Tss.PartyID) :
  p ∈ awaited oks Ps <->
  exists j, oks !! j = Some false /\ Ps !! j = Some p.
Proof.
  unfold awaited. rewrite list_elem_of_fmap. split.
  - intros [[o q] [-> Hin]]. apply list_elem_of_filter in Hin as [Ho Hin].
    simpl in Ho. subst o.
    apply elem_of_lookup_zip_with in Hin as (j & x & y & Heq & Hx & Hy).
    inversion Heq; subst. eauto.
  - intros (j & Ho & Hp). exists (false, p). split; [reflexivity|].
    apply list_elem_of_filter. split; [reflexivity|].
    apply elem_of_lookup_zip_with. eauto 10.
Qed.

(** C9. In a round whose [ok] vector has one entry per party, [WaitingFor]
    returns the parties [Ps[j]] with [ok[j] = false], in index order, and
    nobody else; so does the copy in the keygen rounds. *)
Theorem WaitingFor_exact :
  (forall round : Signing.base,
      length (Signing.ok round) = length (Tss.IDs (Signing.params round)) ->
      exists ids,
        Signing.WaitingFor round = Ret ids /\
        ids = awaited (Signing.ok round) (Tss.IDs (Signing.params round)) /\
        forall p, p ∈ ids <->
          exists j, Signing.ok round !! j = Some false /\
                    Tss.IDs (Signing.params round) !! j = Some p) /\
  (forall round : Keygen.base,
      length (Keygen.ok round) = length (Tss.IDs (Keygen.params round)) ->
      exists ids,
        Keygen.WaitingFor round = Ret ids /\
        ids = awaited (Keygen.ok round) (Tss.IDs (Keygen.params round)) /\
        forall p, p ∈ ids <->
          exists j, Keygen.ok round !! j = Some false /\
                    Tss.IDs (Keygen.params round) !! j = Some p).
Proof.
  split; intros round Hlen; eexists; (split; [|split; [reflexivity|]]).
  - unfold Signing.WaitingFor. rewrite WaitingFor_loop_spec.
    + now rewrite drop_0.
    + rewrite drop_0. lia.
  - apply awaited_elem.
  - unfold Keygen.WaitingFor. rewrite WaitingFor_loop_spec.
    + now rewrite drop_0.
    + rewrite drop_0. lia.
  - apply awaited_elem.
Qed.

End WaitingForFacts.

(** ** [ECPoint.UnmarshalJSON] and the curve registry *)

Section UnmarshalJSONFacts.
Import Crypto CryptoOps.

(** C8, as stated, fails: a payload whose curve name is the empty string,
    a name the registry does not hold, loads without error, against the
    package default curve. *)
Lemma UnmarshalJSON_empty_name_loads :
  Tss.GetCurveByName Toy.globals "" = None /\
  UnmarshalJSON Toy.globals (Toy.point 1) (Decoded "" (Some 3, Some 0))
    = (Toy.point 3, None).
Proof. split; reflexivity. Qed.

(** C8, amended.  A payload with a non-empty curve name that the registry
    does not hold is refused with an error; the receiver keeps its curve,
    its coordinates are already overwritten.  A load succeeds only with
    the decoded coordinates on the curve chosen for them: the registry's
    curve for a non-empty name, the default curve [tss.EC()] for an empty
    one. *)
Theorem UnmarshalJSON_registry (g : Tss.Globals) (p : ECPoint)
    (name : string) (cs : option Z * option Z) :
  ((0 < String.length name)%nat -> Tss.GetCurveByName g name = None ->
     exists e, UnmarshalJSON g p (Decoded name cs)
               = ({| curve := curve p; coords := cs |}, Some e)) /\
  (forall p', UnmarshalJSON g p (Decoded name cs) = (p', None) ->
     coords p' = cs /\ ECPoint_IsOnCurve p' = true /\
     (((0 < String.length name)%nat /\
        Tss.GetCurveByName g name = Some (curve p')) \/
      (name = ""%string /\ curve p' = Tss.ec g))).
Proof.
  split.
  - intros Hlen Hnone. unfold UnmarshalJSON.
    apply Nat.ltb_lt in Hlen. rewrite Hlen, Hnone. simpl. eauto.
  - intros p' Hok. unfold UnmarshalJSON in Hok.
    destruct (0 <? String.length name)%nat eqn:Hlen.
    + destruct (Tss.GetCurveByName g name) as [c|] eqn:Hc;
        [|discriminate].
      simpl in Hok.
      destruct (ECPoint_IsOnCurve _) eqn:Hon; simpl in Hok; [|discriminate].
      inversion Hok; subst p'. simpl. repeat split; [exact Hon|].
      left. split; [now apply Nat.ltb_lt|reflexivity].
    + simpl in Hok.
      destruct (ECPoint_IsOnCurve _) eqn:Hon; simpl in Hok; [|discriminate].
      inversion Hok; subst p'. simpl. repeat split; [exact Hon|].
      right. split; [|reflexivity].
      apply Nat.ltb_ge in Hlen. destruct name; [reflexivity|simpl in Hlen; lia].
Qed.

Lemma UnmarshalJSON_registry_witness :
  (exists e, UnmarshalJSON Toy.globals (Toy.point 1)
               (Decoded "secp256k1" (Some 3, Some 0))
             = ({| curve := curve (Toy.point 1); coords := (Some 3, Some 0) |},
                Some e)) /\
  (coords (Toy.point 3) = (Some 3, Some 0) /\
   ECPoint_IsOnCurve (Toy.point 3) = true /\
   (((0 < String.length "ed25519")%nat /\
      Tss.GetCurveByName Toy.globals "ed25519" = Some (curve (Toy.point 3))) \/
    ("ed25519"%string = ""%string /\ curve (Toy.point 3) = Tss.ec Toy.globals))).
Proof.
  split.
  - apply (proj1 (UnmarshalJSON_registry Toy.globals (Toy.point 1)
                    "secp256k1" (Some 3, Some 0))).
    + simpl. lia.
    + reflexivity.
  - apply (proj2 (UnmarshalJSON_registry Toy.globals (Toy.point 1)
                    "ed25519" (Some 3, Some 0)) (Toy.point 3)).
    reflexivity.
Defined.

End UnmarshalJSONFacts.

(** ** The SSID *)

Section SSIDFacts.
Import Crypto CryptoOps.

Lemma validate_loop_map (q : Z) :
  0 < q ->
  forall items validatedInputs,
    Signing.validate_loop q items validatedInputs
    = validatedInputs ++ map (fun item => item mod q) items.
Proof.
  intros Hq. induction items as [|item rest IH]; intros acc; simpl.
  - now rewrite app_nil_r.
  - rewrite IH, <- app_assoc. simpl. do 3 f_equal.
    unfold BigInt.Mod, BigInt.Sign. rewrite Z.abs_eq by lia.
    pose proof (Z.mod_pos_bound item q Hq) as Hr.
    destruct (Z.ltb_spec (Z.sgn (item mod q)) 0) as [Hneg|_]; [|reflexivity].
    apply Z.sgn_neg_iff in Hneg. lia.
Qed.

Lemma fieldModulus_value :
  Signing.fieldModulus
  = 248551687344019640224147343305836482935833298426042861864434213249351681
  /\ EcdsaSigning.fieldModulus = Signing.fieldModulus.
Proof. split; reflexivity. Qed.

Lemma fieldModulus_bounds :
  0 < Signing.fieldModulus < BN254_scalar_field.
Proof. rewrite (proj1 fieldModulus_value). unfold BN254_scalar_field. lia. Qed.

(** C6, as stated, fails: in the EdDSA rounds the hashed tuple has no
    [B]; its third entry is [Gx]. *)
Lemma ssid_tuple_has_no_B :
  let c := Params Toy.curve in
  (exists l, Signing.ssidList Toy.fresh_round = inl l /\
             take 5 l <> [P c; N c; B c; Gx c; Gy c] /\
             take 4 l = [P c; N c; Gx c; Gy c]) /\
  take 5 (Keygen.ssidList Toy.keygen_round) <> [P c; N c; B c; Gx c; Gy c] /\
  take 4 (Keygen.ssidList Toy.keygen_round) = [P c; N c; Gx c; Gy c].
Proof.
  cbv zeta. split; [eexists; split; [reflexivity|]|]; split;
    solve [reflexivity | discriminate].
Qed.

(** C6, amended.  The EdDSA signing rounds hash (with Poseidon, after the
    reduction) the tuple [(P, N, Gx, Gy, party keys…, BigXj coordinates…,
    round number, ssid nonce)]; the keygen rounds hash (with SHA-512/256)
    [(P, N, Gx, Gy, party keys…, round number, ssid nonce)]. *)
Theorem ssid_tuple `{Externals} :
  (forall (round : Signing.base) flat,
      FlattenECPoints (Signing.BigXj (Signing.key round)) = inl flat ->
      let c := Params (Tss.EC (Signing.params round)) in
      let tuple :=
        [P c; N c; Gx c; Gy c]
          ++ Tss.Keys (Tss.IDs (Signing.params round))
          ++ flat
          ++ [Signing.number round; Signing.ssidNonce (Signing.temp round)] in
      Signing.ssidList round = inl tuple /\
      Signing.getSSID round
      = match poseidon_Hash
                (map (fun item => item mod Signing.fieldModulus) tuple) with
        | Some ssidHash => inl (BigInt.Bytes ssidHash)
        | None =>
            inr (Signing.WrapError round (Tss.New "Poseidon hashing failed")
                   [Tss.partyID (Signing.params round)])
        end) /\
  (forall round : Keygen.base,
      let c := Params (Tss.EC (Keygen.params round)) in
      Keygen.getSSID round
      = inl (BigInt.Bytes
               (SHA512_256i
                  ([P c; N c; Gx c; Gy c]
                     ++ Tss.Keys (Tss.IDs (Keygen.params round))
                     ++ [Keygen.number round; Keygen.ssidNonce round])))).
Proof.
  split.
  - intros round flat Hflat c tuple.
    assert (Hl : Signing.ssidList round = inl tuple).
    { unfold Signing.ssidList. rewrite Hflat. subst tuple c.
      f_equal. simpl. rewrite <- !app_assoc. reflexivity. }
    split; [exact Hl|].
    unfold Signing.getSSID, Signing.getSSID_mod. rewrite Hl.
    rewrite validate_loop_map by apply fieldModulus_bounds. reflexivity.
  - intros round c. unfold Keygen.getSSID, Keygen.ssidList. subst c.
    do 3 f_equal. simpl. rewrite <- !app_assoc. reflexivity.
Qed.

Lemma ssid_tuple_witness :
  Signing.ssidList Toy.fresh_round
  = inl [13; 7; 1; 0; 1; 2 ^ 250 + 1; 4; 0; 2; 0; 1; 0].
Proof.
  pose proof (proj1 (@ssid_tuple Toy.externals) Toy.fresh_round
                [4; 0; 2; 0] eq_refl) as Hw.
  cbv zeta in Hw. exact (proj1 Hw).
Defined.

(** The chunking loop never runs out of fuel: any fuel of at least the
    number of inputs gives the same result. *)
Lemma chunk_loop_fuel `{Externals} (fuel : nat) :
  forall fuel' rest chunkedHashes,
    (length rest <= fuel)%nat -> (length rest <= fuel')%nat ->
    EcdsaSigning.chunk_loop fuel rest chunkedHashes
    = EcdsaSigning.chunk_loop fuel' rest chunkedHashes.
Proof.
  induction fuel as [|f IH]; intros fuel' rest acc Hf Hf'.
  - destruct rest; [|simpl in Hf; lia]. now destruct fuel'.
  - destruct rest as [|x rest]; [now destruct fuel'|].
    destruct fuel' as [|f']; [simpl in Hf'; lia|].
    simpl. destruct (poseidon_Hash _) as [chunkHash|]; [|reflexivity].
    simpl. apply IH; rewrite length_drop; simpl in *; lia.
Qed.

(** C5, as stated, fails: [getSSID] of the signing rounds reduces its
    inputs by the package's [fieldModulus], which is not [p_F].  A party
    key of 251 bits is absorbed as its residue modulo [fieldModulus], not
    modulo [p_F], and the SSID changes when [p_F] is put in its place. *)
Lemma fieldModulus_is_used :
  Signing.fieldModulus <> BN254_scalar_field /\
  Signing.validate_loop Signing.fieldModulus [2 ^ 250 + 1] []
    = [(2 ^ 250 + 1) mod Signing.fieldModulus] /\
  (2 ^ 250 + 1) mod Signing.fieldModulus
    <> (2 ^ 250 + 1) mod BN254_scalar_field /\
  @Signing.getSSID Toy.externals Toy.fresh_round
    <> @Signing.getSSID_mod Toy.externals BN254_scalar_field Toy.fresh_round.
Proof.
  repeat split; try reflexivity; vm_compute; discriminate.
Qed.

(** C5, amended.  [getSSID] of the EdDSA and ECDSA signing rounds uses
    the [fieldModulus] constant: every list entry is replaced, before
    Poseidon absorbs it, by its residue modulo that constant, which is
    non-negative and below [p_F]. *)
Theorem ssid_inputs_reduced `{Externals} (items : list Z) :
  let validatedInputs :=
    map (fun item => item mod Signing.fieldModulus) items in
  Signing.validate_loop Signing.fieldModulus items [] = validatedInputs /\
  Signing.validate_loop EcdsaSigning.fieldModulus items [] = validatedInputs /\
  Forall (fun v => 0 <= v < Signing.fieldModulus /\ v < BN254_scalar_field)
         validatedInputs /\
  (forall round : Signing.base,
      Signing.ssidList round = inl items ->
      Signing.getSSID round
      = match poseidon_Hash validatedInputs with
        | Some ssidHash => inl (BigInt.Bytes ssidHash)
        | None =>
            inr (Signing.WrapError round (Tss.New "Poseidon hashing failed")
                   [Tss.partyID (Signing.params round)])
        end) /\
  (forall round : EcdsaSigning.base,
      EcdsaSigning.ssidList round = inl items ->
      forall chunkedHashes finalHash,
        EcdsaSigning.chunk_loop (length validatedInputs) validatedInputs []
          = Some chunkedHashes ->
        poseidon_Hash chunkedHashes = Some finalHash ->
        EcdsaSigning.getSSID round = inl (BigInt.Bytes finalHash)).
Proof.
  cbv zeta. pose proof fieldModulus_bounds as Hb.
  repeat split.
  - now rewrite validate_loop_map.
  - rewrite (proj2 fieldModulus_value). now rewrite validate_loop_map.
  - apply Forall_forall. intros v Hv.
    apply list_elem_of_fmap in Hv as [item [-> _]].
    pose proof (Z.mod_pos_bound item Signing.fieldModulus (proj1 Hb)). lia.
  - intros round Hl. unfold Signing.getSSID, Signing.getSSID_mod.
    rewrite Hl. now rewrite validate_loop_map.
  - intros round Hl chunked final Hc Hf. unfold EcdsaSigning.getSSID.
    rewrite Hl, (proj2 fieldModulus_value).
    rewrite validate_loop_map by easy. simpl app.
    now rewrite Hc, Hf.
Qed.

End SSIDFacts.

(** ** Runs of code that can panic *)

Lemma res_bind_Ret {A C} (m : res A) (k : A -> res C) (c : C) :
  (a ← m; k a) = Ret c -> exists a, m = Ret a /\ k a = Ret c.
Proof. destruct m as [a|]; [eauto|discriminate]. Qed.

Lemma deref_Ret {A} (p : option A) (a : A) : deref p = Ret a -> p = Some a.
Proof. destruct p; simpl; congruence. Qed.

(** One step of a run that returned: name the value bound and the
    equation that produced it. *)
Ltac step H a Ha := apply res_bind_Ret in H as (a & Ha & H).

(** ** The round-2 broadcast of the signing protocol *)

Section Round2MessageFacts.
Import Crypto Signing.

(** Poseidon returns elements of the BN254 scalar field. *)
Definition field_valued (E : Externals) : Prop :=
  forall b h, poseidon_HashBytes b = Some h -> 0 <= h < BN254_scalar_field.

Lemma dcBzs_loop_spec `{Externals} (deCommitment : list Z) :
  forall dcBzs,
    dcBzs_loop deCommitment = Ret dcBzs ->
    exists hs,
      Forall2 (fun dc h => poseidon_HashBytes (BigInt.Bytes dc) = Some h)
              deCommitment hs /\
      dcBzs = map BigInt.Bytes hs.
Proof.
  induction deCommitment as [|dc rest IH]; intros dcBzs Hrun; simpl in Hrun.
  - inversion Hrun. exists []. split; [constructor|reflexivity].
  - step Hrun h Hh.
    step Hrun bzs Hrest.
    inversion Hrun; subst dcBzs.
    apply deref_Ret in Hh. destruct (IH _ Hrest) as (hs & Hall & ->).
    exists (h :: hs). split; [now constructor|reflexivity].
Qed.

Lemma dcBzs_loop_total `{Externals} (deCommitment hs : list Z) :
  Forall2 (fun dc h => poseidon_HashBytes (BigInt.Bytes dc) = Some h)
          deCommitment hs ->
  dcBzs_loop deCommitment = Ret (map BigInt.Bytes hs).
Proof.
  induction 1 as [|dc h rest hs Hh _ IH]; simpl; [reflexivity|].
  rewrite Hh. simpl. now rewrite IH.
Qed.

Lemma map_SetBytes_Bytes (hs : list Z) :
  map BigInt.SetBytes (map BigInt.Bytes hs) = map Z.abs hs.
Proof.
  rewrite map_map. apply map_ext. intros h. apply SetBytes_Bytes.
Qed.

(** C2, as stated, fails.  With the stand-in sponge the broadcast built
    for [D = [3; 0]] unmarshals to [[4; 1]]; and whatever the sponge, as
    long as its values lie in the field, a decommitment entry equal to
    [p_F] never comes back. *)
Lemma round2_broadcast_not_D :
  (exists msg c,
      @NewSignRound2Message Toy.externals Toy.P0 [3; 0]
        {| Alpha := Toy.point 5; T := 6 |} = Ret msg /\
      Content msg = Round2Content c /\
      UnmarshalDeCommitment c = [4; 1] /\
      UnmarshalDeCommitment c <> [3; 0]) /\
  (forall E : Externals, field_valued E ->
     forall from proof msg c,
       NewSignRound2Message from [BN254_scalar_field] proof = Ret msg ->
       Content msg = Round2Content c ->
       UnmarshalDeCommitment c <> [BN254_scalar_field]).
Proof.
  split.
  - do 2 eexists. repeat split; try reflexivity. discriminate.
  - intros E HE from proof msg c Hnew Hc.
    unfold NewSignRound2Message in Hnew.
    step Hnew bzs Hbzs.
    apply res_bind_Ret in Hnew as (ax & _ & Hnew).
    apply res_bind_Ret in Hnew as (ay & _ & Hnew).
    inversion Hnew; subst msg. simpl in Hc. inversion Hc; subst c.
    apply dcBzs_loop_spec in Hbzs as (hs & Hall & ->).
    unfold UnmarshalDeCommitment, NewHashDeCommitmentFromBytes. simpl.
    rewrite map_SetBytes_Bytes.
    inversion Hall as [|dc h rest hs' Hh Hrest]; subst.
    inversion Hrest; subst. simpl. intros Heq. inversion Heq as [Habs].
    apply HE in Hh. lia.
Qed.

(** C2, amended.  The round-2 broadcast carries, for every entry of
    [D_i], the bytes of the Poseidon hash of that entry's bytes;
    [UnmarshalDeCommitment] returns these hashes, one per entry of
    [D_i].  The message is built whenever every hash succeeds and the
    proof's point has both coordinates. *)
Theorem round2_broadcast_hashes `{Externals} (from : Tss.PartyID)
    (deCommitment : list Z) (proof : ZKProof) :
  (forall msg,
      NewSignRound2Message from deCommitment proof = Ret msg ->
      exists c hs,
        Content msg = Round2Content c /\
        Forall2 (fun dc h => poseidon_HashBytes (BigInt.Bytes dc) = Some h)
                deCommitment hs /\
        DeCommitment c = map BigInt.Bytes hs /\
        UnmarshalDeCommitment c = map Z.abs hs) /\
  (forall hs ax ay,
      Forall2 (fun dc h => poseidon_HashBytes (BigInt.Bytes dc) = Some h)
              deCommitment hs ->
      coords (Alpha proof) = (Some ax, Some ay) ->
      exists msg, NewSignRound2Message from deCommitment proof = Ret msg).
Proof.
  split.
  - intros msg Hnew. unfold NewSignRound2Message in Hnew.
    step Hnew bzs Hbzs.
    apply res_bind_Ret in Hnew as (ax & _ & Hnew).
    apply res_bind_Ret in Hnew as (ay & _ & Hnew).
    inversion Hnew; subst msg. simpl.
    apply dcBzs_loop_spec in Hbzs as (hs & Hall & ->).
    eexists _, hs. repeat split; [exact Hall|].
    unfold UnmarshalDeCommitment, NewHashDeCommitmentFromBytes. simpl.
    apply map_SetBytes_Bytes.
  - intros hs ax ay Hall Hc. unfold NewSignRound2Message, X, Y.
    rewrite (dcBzs_loop_total _ _ Hall), Hc. simpl. eauto.
Qed.

Lemma round2_broadcast_hashes_witness :
  exists c hs,
    Content {| From := Toy.P0; IsBroadcast := true;
               Content := Round2Content
                 {| DeCommitment := [[4]; [1]]; ProofAlphaX := [5];
                    ProofAlphaY := []; ProofT := [6] |} |}
      = Round2Content c /\
    Forall2 (fun dc h =>
               @poseidon_HashBytes Toy.externals (BigInt.Bytes dc) = Some h)
            [3; 0] hs /\
    DeCommitment c = map BigInt.Bytes hs /\
    UnmarshalDeCommitment c = map Z.abs hs.
Proof.
  apply (proj1 (@round2_broadcast_hashes Toy.externals Toy.P0 [3; 0]
                  {| Alpha := Toy.point 5; T := 6 |})).
  reflexivity.
Defined.

End Round2MessageFacts.

(** ** Round 1 of signing: the commitment *)

Section Round1Facts.
Import Crypto CryptoOps Signing.

Lemma ScalarBaseMult_coords `{Externals} (c : Curve) (k : Z) (p : ECPoint) :
  ScalarBaseMult c k = Ret p ->
  coords p = (Some (fst (bjj_B8_Mul (BigInt.Mod k (N (Params c))))),
              Some (snd (bjj_B8_Mul (BigInt.Mod k (N (Params c)))))).
Proof.
  unfold ScalarBaseMult, NewECPoint. cbv zeta.
  destruct (negb _); [discriminate|]. intros Hp. now inversion Hp.
Qed.

(** C3, as stated, fails.  Round 1 run on the miniature instance draws
    one value from the random source ([r_i = 3]), stores the
    decommitment [[3; 0]], the two coordinates of [R_i], and broadcasts
    the hash of their bytes: no blinding value leads the decommitment. *)
Lemma round1_commitment_unblinded :
  exists round',
    @round1_Start Toy.externals Toy.fresh_round = Ret (round', None) /\
    Tss.Rand (params round') = [5; 6] /\
    deCommit (temp round') = [3; 0] /\
    out_ch round' = [NewSignRound1Message Toy.P0 4] /\
    ~ (exists r, deCommit (temp round') = [r] ++ [3; 0]).
Proof.
  eexists. repeat split; try reflexivity.
  intros [r Hr]. discriminate Hr.
Qed.

(** C3, amended.  A successful round 1 of signing takes exactly one
    sample, [r_i], from the random source; with [(x, y)] the coordinates
    of [R_i] it stores the decommitment [D = [x; y]] and broadcasts
    [C = Poseidon(bytes(x) ++ bytes(y))]: the commitment has no random
    blinding value. *)
Theorem round1_commitment `{Externals} (round round' : base) :
  round1_Start round = Ret (round', None) ->
  exists ri rnd pointRi x y poseidonHash,
    GetRandomPositiveInt (Tss.Rand (params round))
      (N (Params (Tss.EC (params round)))) = (ri, rnd) /\
    Tss.Rand (params round') = rnd /\
    ScalarBaseMult (Tss.EC (params round)) ri = Ret pointRi /\
    coords pointRi = (Some x, Some y) /\
    poseidon_HashBytes (BigInt.Bytes x ++ BigInt.Bytes y)
      = Some poseidonHash /\
    deCommit (temp round') = [Z.abs x; Z.abs y] /\
    out_ch round'
      = out_ch round
          ++ [NewSignRound1Message (Tss.partyID (params round))
                (Z.abs poseidonHash)].
Proof.
  unfold round1_Start. intros Hrun.
  destruct (started round); [discriminate|].
  destruct (getSSID _) as [id|err]; [|discriminate].
  destruct (GetRandomPositiveInt _ _) as [ri rnd] eqn:Hrand.
  step Hrun pointRi Hpoint.
  step Hrun x Hx.
  step Hrun y Hy.
  apply deref_Ret in Hx, Hy.
  destruct (poseidon_HashBytes _) as [h|] eqn:Hh; [|discriminate].
  destruct (_ || _); [discriminate|].
  inversion Hrun; subst round'; clear Hrun.
  simpl in *.
  exists ri, rnd, pointRi, x, y, h.
  rewrite !SetBytes_Bytes.
  repeat split; try assumption; try reflexivity.
  destruct (coords pointRi) as [cx cy]. simpl in *. now subst.
Qed.

Lemma round1_commitment_witness :
  exists ri rnd pointRi x y poseidonHash,
    @GetRandomPositiveInt Toy.externals [3; 5; 6] 7 = (ri, rnd) /\
    [5; 6] = rnd /\
    @ScalarBaseMult Toy.externals Toy.curve ri = Ret pointRi /\
    coords pointRi = (Some x, Some y) /\
    @poseidon_HashBytes Toy.externals (BigInt.Bytes x ++ BigInt.Bytes y)
      = Some poseidonHash /\
    [3; 0] = [Z.abs x; Z.abs y] /\
    [NewSignRound1Message Toy.P0 4]
      = [] ++ [NewSignRound1Message Toy.P0 (Z.abs poseidonHash)].
Proof.
  apply (@round1_commitment Toy.externals Toy.fresh_round
           (send_out (NewSignRound1Message Toy.P0 4)
              (set_temp (set_signRound1Messages
                           [Some (NewSignRound1Message Toy.P0 4); None])
                 (set_temp (set_deCommit [3; 0])
                    (set_rand [5; 6]
                       (set_temp
                          (set_ssid 0
                             (Some [6; 83; 132; 245; 175; 255; 253; 85; 151;
                                    255; 237; 87; 39; 255; 255; 203; 147; 87;
                                    255; 247; 57; 190; 255; 249; 114; 106;
                                    255; 255; 227; 176]))
                          (resetOK (set_started true 1 Toy.fresh_round)))))))).
  vm_compute. reflexivity.
Defined.

End Round1Facts.

(** ** Finalization of signing *)

Section FinalizationFacts.
Import Crypto Signing.
Context `{Externals}.

(** The self-verification of eddsa/signing/finalize.go: the stock
    verifier accepts [(R, s)] under the group key for the Poseidon hash
    of the padded message. *)
Definition stock_verified (round : base) (s : Z) : Prop :=
  exists paddedMsg poseidonHash pub pkX pkY,
    BigInt.FillBytes (m (temp round)) 32 = Ret paddedMsg /\
    poseidon_HashBytes paddedMsg = Some poseidonHash /\
    EDDSAPub (key round) = Some pub /\
    coords pub = (Some pkX, Some pkY) /\
    edwards_Verify (pkX, pkY) (BigInt.Bytes poseidonHash)
      (r (temp round)) s = true.

(** The message bytes unnamed/part_001 hashes and emits. *)
Definition MBytes_of (round : base) : res BigInt.bytes :=
  if (fullBytesLen (temp round) =? 0)%nat
  then Ret (BigInt.Bytes (m (temp round)))
  else BigInt.FillBytes (m (temp round)) (fullBytesLen (temp round)).

(** The self-verification of unnamed/part_001: [s·G = R + h·Y] with the
    Poseidon challenge [h]. *)
Definition equation_verified (round : base) (s : Z) : Prop :=
  exists MBytes pub pkX pkY h RPoint,
    MBytes_of round = Ret MBytes /\
    EDDSAPub (key round) = Some pub /\
    coords pub = (Some pkX, Some pkY) /\
    FinalizePart001.challenge (N (Params (Tss.EC (params round))))
      (bigIntToFixedBytes (r (temp round)) 32)
      (BigInt.Bytes pkX ++ BigInt.Bytes pkY) MBytes = Some h /\
    edwards_ParsePubKey (bigIntToFixedBytes (r (temp round)) 32)
      = Some RPoint /\
    let c := Tss.EC (params round) in
    let hA := ScalarMult c pkX pkY (BigInt.Bytes h) in
    Add c (fst RPoint) (snd RPoint) (fst hA) (snd hA)
      = ScalarBaseMult c (BigInt.Bytes s).

Lemma app_singleton_ne {A} (l : list A) (x : A) : l ++ [x] <> l.
Proof.
  intros Heq. apply (f_equal length) in Heq.
  rewrite length_app in Heq. simpl in Heq. lia.
Qed.

Lemma coords_XY (pub : ECPoint) (x y : Z) :
  X pub = Ret x -> Y pub = Ret y -> coords pub = (Some x, Some y).
Proof.
  unfold X, Y. destruct (coords pub) as [[cx|] [cy|]]; simpl;
    intros Hx Hy; try discriminate. now inversion Hx; inversion Hy.
Qed.

Lemma sum_and_save_frame (round round1 : base) (s : Z) :
  Finalize.sum_and_save round = Ret (round1, s) ->
  params round1 = params round /\ key round1 = key round /\
  temp round1 = temp round /\ end_ch round1 = end_ch round /\
  number round1 = 4 /\
  exists sumS,
    s = encodedBytesToBigInt sumS /\
    Signature (data round1)
      = bigIntToEncodedBytes (r (temp round)) ++ sumS /\
    SigR (data round1) = BigInt.Bytes (r (temp round)) /\
    SigS (data round1) = BigInt.Bytes s.
Proof.
  unfold Finalize.sum_and_save. intros Hrun.
  apply res_bind_Ret in Hrun as ([oks sumS] & _ & Hrun).
  inversion Hrun; subst; clear Hrun. simpl.
  repeat split. exists sumS. repeat split.
Qed.

Lemma equation_holds_iff (c : Curve) (RPoint : Z * Z) (pkX pkY h s : Z) :
  FinalizePart001.equation_holds c RPoint pkX pkY h s = true <->
  (let hA := ScalarMult c pkX pkY (BigInt.Bytes h) in
   Add c (fst RPoint) (snd RPoint) (fst hA) (snd hA)
     = ScalarBaseMult c (BigInt.Bytes s)).
Proof.
  unfold FinalizePart001.equation_holds. cbv zeta. rewrite !Cmp_eq0.
  destruct (Add c _ _ _ _) as [ax ay], (ScalarBaseMult c _) as [bx by_].
  simpl. rewrite negb_true_iff, orb_false_iff, !negb_false_iff,
    !bool_decide_eq_true. split; [intros [-> ->]; reflexivity|].
  intros Heq. now inversion Heq.
Qed.

(** What a run of eddsa/signing/finalize.go that does not panic did. *)
Lemma Finalize_Start_cases (round round' : base) (err : option Tss.error) :
  started round = false ->
  Finalize.finalization_Start round = Ret (round', err) ->
  exists round1 s,
    Finalize.sum_and_save round = Ret (round1, s) /\
    ((stock_verified round s /\ err = None /\
      end_ch round' = end_ch round ++ [data round'] /\
      Signature (data round') = Signature (data round1) /\
      exists paddedMsg poseidonHash,
        BigInt.FillBytes (m (temp round)) 32 = Ret paddedMsg /\
        poseidon_HashBytes paddedMsg = Some poseidonHash /\
        SigM (data round') = BigInt.Bytes poseidonHash) \/
     (~ stock_verified round s /\ end_ch round' = end_ch round /\
      exists e,
        err = Some (Tss.NewError e TaskName 4
                      (Tss.partyID (params round)) []))).
Proof.
  intros Hns Hrun. unfold Finalize.finalization_Start in Hrun.
  rewrite Hns in Hrun.
  apply res_bind_Ret in Hrun as ([round1 s] & Hsum & Hrun).
  exists round1, s. split; [exact Hsum|].
  destruct (sum_and_save_frame _ _ _ Hsum)
    as (Hp & Hk & Ht & He & Hn & _).
  rewrite Ht in Hrun.
  step Hrun padded Hpad.
  destruct (poseidon_HashBytes padded) as [h|] eqn:Hh.
  - step Hrun pub Hpub.
    step Hrun pkX Hx.
    step Hrun pkY Hy.
    apply deref_Ret in Hpub. simpl in Hpub. rewrite Hk in Hpub.
    pose proof (coords_XY _ _ _ Hx Hy) as Hc.
    simpl in Hrun. rewrite Ht in Hrun.
    destruct (edwards_Verify _ _ _ _) eqn:Hv; simpl in Hrun;
      inversion Hrun; subst round' err; clear Hrun.
    + left. split; [exists padded, h, pub, pkX, pkY; auto|].
      simpl. rewrite He. repeat split. eauto.
    + right. split.
      * intros (padded' & h' & pub' & x' & y' & Hpad' & Hh' & Hpub' & Hc' & Hv').
        rewrite Hpad in Hpad'. inversion Hpad'; subst padded'.
        rewrite Hh in Hh'. inversion Hh'; subst h'.
        rewrite Hpub in Hpub'. inversion Hpub'; subst pub'.
        rewrite Hc in Hc'. inversion Hc'; subst x' y'. congruence.
      * simpl. split; [exact He|]. unfold WrapError. simpl.
        rewrite Hn, Hp. eauto.
  - inversion Hrun; subst round' err; clear Hrun. right. split.
    + intros (padded' & h' & _ & _ & _ & Hpad' & Hh' & _).
      rewrite Hpad in Hpad'. inversion Hpad'; subst padded'. congruence.
    + split; [exact He|]. unfold WrapError. rewrite Hn, Hp. eauto.
Qed.

(** What a run of the finalization of unnamed/part_001 that does not
    panic did. *)
Lemma FinalizePart001_Start_cases (round round' : base)
    (err : option Tss.error) :
  started round = false ->
  FinalizePart001.finalization_Start round = Ret (round', err) ->
  exists round1 s,
    Finalize.sum_and_save round = Ret (round1, s) /\
    ((equation_verified round s /\ err = None /\
      end_ch round' = end_ch round ++ [data round'] /\
      Signature (data round') = Signature (data round1) /\
      MBytes_of round = Ret (SigM (data round'))) \/
     (~ equation_verified round s /\ end_ch round' = end_ch round /\
      exists e,
        err = Some (Tss.NewError e TaskName 4
                      (Tss.partyID (params round)) []))).
Proof.
  intros Hns Hrun. unfold FinalizePart001.finalization_Start in Hrun.
  rewrite Hns in Hrun.
  apply res_bind_Ret in Hrun as ([round1 s] & Hsum & Hrun).
  exists round1, s. split; [exact Hsum|].
  destruct (sum_and_save_frame _ _ _ Hsum)
    as (Hp & Hk & Ht & He & Hn & _).
  rewrite Ht in Hrun. fold (MBytes_of round) in Hrun.
  step Hrun MBytes HM.
  step Hrun pub Hpub.
  step Hrun pkX Hx.
  step Hrun pkY Hy.
  apply deref_Ret in Hpub. simpl in Hpub. rewrite Hk in Hpub.
  pose proof (coords_XY _ _ _ Hx Hy) as Hc.
  simpl in Hrun. rewrite Ht, Hp in Hrun.
  assert (Hfail : forall e,
    Tss.NewError e TaskName (number (Finalize.set_M MBytes round1))
      (Tss.partyID (params (Finalize.set_M MBytes round1))) []
    = Tss.NewError e TaskName 4 (Tss.partyID (params round)) []).
  { intros e. simpl. now rewrite Hn, Hp. }
  assert (Huniq : forall M' pub' x' y',
    MBytes_of round = Ret M' -> EDDSAPub (key round) = Some pub' ->
    coords pub' = (Some x', Some y') ->
    M' = MBytes /\ x' = pkX /\ y' = pkY).
  { intros M' pub' x' y' HM' Hpub' Hc'. rewrite HM in HM'.
    rewrite Hpub in Hpub'. inversion HM'; inversion Hpub'; subst.
    rewrite Hc in Hc'. now inversion Hc'. }
  destruct (FinalizePart001.challenge _ _ _ _) as [h|] eqn:Hh.
  - destruct (edwards_ParsePubKey _) as [RPoint|] eqn:HR.
    + destruct (FinalizePart001.equation_holds _ _ _ _ _ _) eqn:Heq;
        simpl in Hrun; inversion Hrun; subst round' err; clear Hrun.
      * left. split.
        { exists MBytes, pub, pkX, pkY, h, RPoint.
          repeat split; try assumption. now apply equation_holds_iff. }
        simpl. rewrite He. repeat split. exact HM.
      * right. split.
        { intros (M' & pub' & x' & y' & h' & R' & HM' & Hpub' & Hc' & Hh'
                  & HR' & Heq').
          destruct (Huniq _ _ _ _ HM' Hpub' Hc') as (-> & -> & ->).
          rewrite Hh in Hh'. inversion Hh'; subst h'.
          rewrite HR in HR'. inversion HR'; subst R'.
          apply equation_holds_iff in Heq'. congruence. }
        simpl. split; [exact He|]. unfold WrapError. rewrite Hfail. eauto.
    + inversion Hrun; subst round' err; clear Hrun. right. split.
      { intros (M' & pub' & x' & y' & h' & R' & HM' & Hpub' & Hc' & Hh'
                & HR' & _). congruence. }
      simpl. split; [exact He|]. unfold WrapError. rewrite Hfail. eauto.
  - inversion Hrun; subst round' err; clear Hrun. right. split.
    { intros (M' & pub' & x' & y' & h' & R' & HM' & Hpub' & Hc' & Hh' & _).
      destruct (Huniq _ _ _ _ HM' Hpub' Hc') as (-> & -> & ->). congruence. }
    simpl. split; [exact He|]. unfold WrapError. rewrite Hfail. eauto.
Qed.

End FinalizationFacts.

Section FinalizationClaims.
Import Crypto Signing.

(** C7. A finalization that runs to its self-verification sends the
    signature data on the end channel if and only if the verification
    succeeds, and then returns nil; when it fails the call returns an
    error wrapped for round 4 of this party and sends nothing.  This
    holds for eddsa/signing/finalize.go, whose check is the stock
    verifier, and for unnamed/part_001, whose check is the equation
    [s·G = R + h·Y]. *)
Theorem finalization_delivers_iff_verified `{Externals}
    (round round' : base) (err : option Tss.error) :
  started round = false ->
  (Finalize.finalization_Start round = Ret (round', err) ->
   exists round1 s,
     Finalize.sum_and_save round = Ret (round1, s) /\
     (end_ch round' = end_ch round ++ [data round']
      <-> stock_verified round s) /\
     (stock_verified round s -> err = None) /\
     (~ stock_verified round s ->
      end_ch round' = end_ch round /\
      exists e, err = Some (Tss.NewError e TaskName 4
                              (Tss.partyID (params round)) []))) /\
  (FinalizePart001.finalization_Start round = Ret (round', err) ->
   exists round1 s,
     Finalize.sum_and_save round = Ret (round1, s) /\
     (end_ch round' = end_ch round ++ [data round']
      <-> equation_verified round s) /\
     (equation_verified round s -> err = None) /\
     (~ equation_verified round s ->
      end_ch round' = end_ch round /\
      exists e, err = Some (Tss.NewError e TaskName 4
                              (Tss.partyID (params round)) []))).
Proof.
  intros Hns. split; intros Hrun.
  - destruct (Finalize_Start_cases _ _ _ Hns Hrun)
      as (round1 & s & Hsum & [(Hv & -> & Hend & _) | (Hnv & Hend & Herr)]);
      exists round1, s; (split; [exact Hsum|]); repeat split; try tauto.
    intros Hd. rewrite Hend in Hd. symmetry in Hd.
    now apply app_singleton_ne in Hd.
  - destruct (FinalizePart001_Start_cases _ _ _ Hns Hrun)
      as (round1 & s & Hsum & [(Hv & -> & Hend & _) | (Hnv & Hend & Herr)]);
      exists round1, s; (split; [exact Hsum|]); repeat split; try tauto.
    intros Hd. rewrite Hend in Hd. symmetry in Hd.
    now apply app_singleton_ne in Hd.
Qed.

Lemma finalization_delivers_iff_verified_witness :
  (exists s, @stock_verified Toy.externals (Toy.final_round 1 5) s) /\
  (exists s, @equation_verified Toy.externals (Toy.final_round 3 5) s) /\
  (exists s, ~ @stock_verified Toy.externals (Toy.final_round 1 2) s).
Proof.
  split; [|split].
  - destruct (proj1 (@finalization_delivers_iff_verified Toy.externals
                       (Toy.final_round 1 5)
                       (send_end (Finalize.set_M [201] (Toy.summed_round 1 5)))
                       None eq_refl)
                ltac:(vm_compute; reflexivity))
      as (round1 & s & _ & Hiff & _).
    exists s. apply Hiff. reflexivity.
  - destruct (proj2 (@finalization_delivers_iff_verified Toy.externals
                       (Toy.final_round 3 5)
                       (send_end (Finalize.set_M [200] (Toy.summed_round 3 5)))
                       None eq_refl)
                ltac:(vm_compute; reflexivity))
      as (round1 & s & _ & Hiff & _).
    exists s. apply Hiff. reflexivity.
  - destruct (proj1 (@finalization_delivers_iff_verified Toy.externals
                       (Toy.final_round 1 2)
                       (Finalize.set_M [201] (Toy.summed_round 1 2))
                       (Some (Tss.NewError
                                (Tss.New "poseidon-based signature verification failed")
                                TaskName 4 Toy.P0 []))
                       eq_refl)
                ltac:(vm_compute; reflexivity))
      as (round1 & s & _ & Hiff & _).
    exists s. intros Hv. apply Hiff in Hv. discriminate Hv.
Defined.

(** The failing run above, in full: an error for round 4, nothing sent. *)
Example finalization_rejects :
  exists round' e,
    @Finalize.finalization_Start Toy.externals (Toy.final_round 1 2)
      = Ret (round', Some e) /\
    e = Tss.NewError (Tss.New "poseidon-based signature verification failed")
          "eddsa-signing" 4 Toy.P0 [] /\
    end_ch round' = [].
Proof. do 2 eexists. repeat split; vm_compute; reflexivity. Qed.

(** C1, as stated, fails.  On the miniature instance both finalizations
    complete and emit [(R, s)], yet the stock verifier rejects [(R, s)]
    for the message [m]; in eddsa/signing/finalize.go the emitted [M] is
    the Poseidon hash of [m], and in unnamed/part_001 the challenge comes
    from the sponge: with another sponge the same state fails. *)
Lemma finalization_not_standard :
  (exists round',
      @Finalize.finalization_Start Toy.externals (Toy.final_round 1 5)
        = Ret (round', None) /\
      end_ch round' = [data round'] /\
      SigS (data round') = [6] /\ SigM (data round') = [201] /\
      BigInt.Bytes (m (temp (Toy.final_round 1 5))) = [200] /\
      @edwards_Verify Toy.externals (1, 0) [200] 2 6 = false) /\
  (exists round',
      @FinalizePart001.finalization_Start Toy.externals (Toy.final_round 3 5)
        = Ret (round', None) /\
      end_ch round' = [data round'] /\
      SigS (data round') = [1] /\ SigM (data round') = [200] /\
      @edwards_Verify Toy.externals (1, 0) [200] 2 1 = false /\
      @FinalizePart001.challenge Toy.externals 7
        (@bigIntToFixedBytes Toy.externals 2 32) [1] [200] = Some 6 /\
      @FinalizePart001.challenge Toy.externals_other_sponge 7
        (@bigIntToFixedBytes Toy.externals 2 32) [1] [200] = Some 0 /\
      exists st e,
        @FinalizePart001.finalization_Start Toy.externals_other_sponge
          (Toy.final_round 3 5) = Ret (st, Some e) /\
        end_ch st = []).
Proof.
  split; eexists; repeat split; try (vm_compute; reflexivity).
  do 2 eexists. split; vm_compute; reflexivity.
Qed.

(** C1, amended.  A completed finalization emits the 64-byte signature
    [enc(R) ++ enc(s)] with [s] the sum of the shares.  In
    eddsa/signing/finalize.go the stock verifier accepts [(R, s)] under
    the group key [Y] for the message the data carries as [M], the
    Poseidon hash of [m] padded to 32 bytes.  In unnamed/part_001 the
    pair satisfies [s·G = R + h·Y] for the challenge
    [h = Poseidon(R || X(Y) || Y(Y) || M) mod N].  SHA-512 over
    [encode(R) || encode(Y) || m] is computed by neither. *)
Theorem finalization_challenge `{Externals} (round round' : base) :
  started round = false ->
  (Finalize.finalization_Start round = Ret (round', None) ->
   exists round1 s sumS paddedMsg poseidonHash pub pkX pkY,
     Finalize.sum_and_save round = Ret (round1, s) /\
     s = encodedBytesToBigInt sumS /\
     Signature (data round')
       = bigIntToEncodedBytes (r (temp round)) ++ sumS /\
     BigInt.FillBytes (m (temp round)) 32 = Ret paddedMsg /\
     poseidon_HashBytes paddedMsg = Some poseidonHash /\
     SigM (data round') = BigInt.Bytes poseidonHash /\
     EDDSAPub (key round) = Some pub /\
     coords pub = (Some pkX, Some pkY) /\
     edwards_Verify (pkX, pkY) (SigM (data round')) (r (temp round)) s
       = true /\
     end_ch round' = end_ch round ++ [data round']) /\
  (FinalizePart001.finalization_Start round = Ret (round', None) ->
   exists round1 s sumS,
     Finalize.sum_and_save round = Ret (round1, s) /\
     s = encodedBytesToBigInt sumS /\
     Signature (data round')
       = bigIntToEncodedBytes (r (temp round)) ++ sumS /\
     MBytes_of round = Ret (SigM (data round')) /\
     equation_verified round s /\
     end_ch round' = end_ch round ++ [data round']).
Proof.
  intros Hns. split; intros Hrun.
  - destruct (Finalize_Start_cases _ _ _ Hns Hrun)
      as (round1 & s & Hsum & [(Hv & _ & Hend & Hsig & Hm) | (_ & _ & e & He)]);
      [|discriminate].
    destruct (sum_and_save_frame _ _ _ Hsum)
      as (_ & _ & _ & _ & _ & sumS & Hs & Hsg & _).
    destruct Hm as (padded & h & Hpad & Hh & HM).
    destruct Hv as (padded' & h' & pub & pkX & pkY & Hpad' & Hh' & Hpub
                    & Hc & Hv).
    rewrite Hpad in Hpad'. inversion Hpad'; subst padded'.
    rewrite Hh in Hh'. inversion Hh'; subst h'.
    exists round1, s, sumS, padded, h, pub, pkX, pkY.
    rewrite HM, Hsig. repeat split; assumption.
  - destruct (FinalizePart001_Start_cases _ _ _ Hns Hrun)
      as (round1 & s & Hsum & [(Hv & _ & Hend & Hsig & HM) | (_ & _ & e & He)]);
      [|discriminate].
    destruct (sum_and_save_frame _ _ _ Hsum)
      as (_ & _ & _ & _ & _ & sumS & Hs & Hsg & _).
    exists round1, s, sumS. rewrite Hsig. repeat split; assumption.
Qed.

Lemma finalization_challenge_witness :
  exists round1 s sumS,
    @Finalize.sum_and_save Toy.externals (Toy.final_round 3 5)
      = Ret (round1, s) /\
    s = @encodedBytesToBigInt Toy.externals sumS /\
    Signature (data (send_end (Finalize.set_M [200] (Toy.summed_round 3 5))))
      = @bigIntToEncodedBytes Toy.externals (r (temp (Toy.final_round 3 5)))
          ++ sumS /\
    @MBytes_of (Toy.final_round 3 5)
      = Ret (SigM (data (send_end
                           (Finalize.set_M [200] (Toy.summed_round 3 5))))) /\
    @equation_verified Toy.externals (Toy.final_round 3 5) s /\
    end_ch (send_end (Finalize.set_M [200] (Toy.summed_round 3 5)))
      = end_ch (Toy.final_round 3 5)
          ++ [data (send_end (Finalize.set_M [200] (Toy.summed_round 3 5)))].
Proof.
  apply (proj2 (@finalization_challenge Toy.externals
                  (Toy.final_round 3 5)
                  (send_end (Finalize.set_M [200] (Toy.summed_round 3 5)))
                  eq_refl)).
  vm_compute. reflexivity.
Defined.

End FinalizationClaims.

(** ** Verifiable secret sharing: reconstruction is interpolation at 0 *)

(** Congruence modulo [N], and polynomials over [Z] as coefficient lists
    (constant term first). *)
Section Interpolation.
Variable N : Z.
Hypothesis N_prime : Z.prime N.

Definition cong (a b : Z) : Prop := a mod N = b mod N.

#[local] Instance cong_equiv : Equivalence cong.
Proof.
  split; unfold cong; [intros x|intros x y|intros x y z]; congruence.
Qed.

#[local] Instance cong_add : Proper (cong ==> cong ==> cong) Z.add.
Proof.
  intros a a' Ha b b' Hb. unfold cong in *.
  rewrite (Zplus_mod a b), (Zplus_mod a' b'). now rewrite Ha, Hb.
Qed.

#[local] Instance cong_mul : Proper (cong ==> cong ==> cong) Z.mul.
Proof.
  intros a a' Ha b b' Hb. unfold cong in *.
  rewrite (Zmult_mod a b), (Zmult_mod a' b'). now rewrite Ha, Hb.
Qed.

#[local] Instance cong_opp : Proper (cong ==> cong) Z.opp.
Proof.
  intros a a' Ha. rewrite <- (Z.mul_1_l a), <- (Z.mul_1_l a'), <- !Z.mul_opp_l.
  now rewrite Ha.
Qed.

#[local] Instance cong_sub : Proper (cong ==> cong ==> cong) Z.sub.
Proof.
  intros a a' Ha b b' Hb. rewrite <- !Z.add_opp_r. now rewrite Ha, Hb.
Qed.

Lemma N_gt_1 : 1 < N.
Proof. exact (proj1 N_prime). Qed.

Lemma eq_cong (a b : Z) : a = b -> cong a b.
Proof. now intros ->. Qed.

Lemma cong_mod (a : Z) : cong (a mod N) a.
Proof. unfold cong. apply Z.mod_mod. pose proof N_gt_1. lia. Qed.

Lemma cong_inv (a : Z) : ~ cong a 0 -> cong (Z.invmod a N * a) 1.
Proof.
  intros Ha. unfold cong in *. rewrite Z.invmod_prime; [|exact N_prime|].
  - symmetry. apply Z.mod_small. pose proof N_gt_1. lia.
  - now rewrite Z.mod_0_l in Ha by (pose proof N_gt_1; lia).
Qed.

Lemma cong_cancel (d q : Z) : ~ cong d 0 -> cong (d * q) 0 -> cong q 0.
Proof.
  intros Hd Hq.
  assert (Hi : cong (Z.invmod d N * (d * q)) q).
  { rewrite Z.mul_assoc, (cong_inv d Hd). now rewrite Z.mul_1_l. }
  rewrite <- Hi, Hq. now rewrite Z.mul_0_r.
Qed.

Lemma cong_sub_0 (a b : Z) : cong (a - b) 0 <-> cong a b.
Proof.
  split; intros Hc.
  - replace a with ((a - b) + b) by lia. rewrite Hc. reflexivity.
  - rewrite Hc. now rewrite Z.sub_diag.
Qed.

Fixpoint peval (cs : list Z) (x : Z) : Z :=
  match cs with
  | [] => 0
  | c :: rest => c + x * peval rest x
  end.

(** Division by [x - a]: [cs(x) = cs(a) + (x - a) * (pquot cs a)(x)]. *)
Fixpoint pquot (cs : list Z) (a : Z) : list Z :=
  match cs with
  | [] => []
  | _ :: rest =>
      match rest with
      | [] => []
      | _ :: _ => peval rest a :: pquot rest a
      end
  end.

Lemma pquot_spec (cs : list Z) (a x : Z) :
  peval cs x = peval cs a + (x - a) * peval (pquot cs a) x.
Proof.
  induction cs as [|c rest IH]; [simpl; lia|].
  destruct rest as [|c' rest']; [simpl; lia|].
  change (pquot (c :: c' :: rest') a)
    with (peval (c' :: rest') a :: pquot (c' :: rest') a).
  change (peval (c :: c' :: rest') x) with (c + x * peval (c' :: rest') x).
  change (peval (c :: c' :: rest') a) with (c + a * peval (c' :: rest') a).
  change (peval (peval (c' :: rest') a :: pquot (c' :: rest') a) x)
    with (peval (c' :: rest') a + x * peval (pquot (c' :: rest') a) x).
  rewrite IH. ring.
Qed.

Lemma length_pquot (cs : list Z) (a : Z) :
  length (pquot cs a) = pred (length cs).
Proof.
  induction cs as [|c rest IH]; [reflexivity|].
  destruct rest as [|c' rest']; [reflexivity|].
  change (pquot (c :: c' :: rest') a)
    with (peval (c' :: rest') a :: pquot (c' :: rest') a).
  simpl length in *. now rewrite IH.
Qed.

Lemma pquot_zero (cs : list Z) (a : Z) :
  Forall (fun c => cong c 0) (pquot cs a) -> cong (peval cs a) 0 ->
  Forall (fun c => cong c 0) cs.
Proof.
  induction cs as [|c rest IH]; intros Hq Ha; [constructor|].
  destruct rest as [|c' rest'].
  - constructor; [|constructor]. simpl in Ha. now rewrite Z.mul_0_r, Z.add_0_r in Ha.
  - change (pquot (c :: c' :: rest') a)
      with (peval (c' :: rest') a :: pquot (c' :: rest') a) in Hq.
    inversion Hq as [|? ? Hr Hq']; subst.
    change (peval (c :: c' :: rest') a)
      with (c + a * peval (c' :: rest') a) in Ha.
    constructor; [|now apply IH].
    rewrite Hr in Ha. now rewrite Z.mul_0_r, Z.add_0_r in Ha.
Qed.

Lemma peval_zero (cs : list Z) (x : Z) :
  Forall (fun c => cong c 0) cs -> cong (peval cs x) 0.
Proof.
  induction 1 as [|c rest Hc _ IH]; simpl; [reflexivity|].
  rewrite Hc, IH. now rewrite Z.mul_0_r.
Qed.

(** Nodes that are pairwise distinct modulo [N]. *)
Definition distinct_mod (xs : list Z) : Prop :=
  NoDup (map (fun x => x mod N) xs).

(** A polynomial with fewer coefficients than it has roots that are
    distinct modulo the prime [N] vanishes modulo [N]. *)
Lemma poly_roots (xs : list Z) :
  forall cs,
    (length cs <= length xs)%nat -> distinct_mod xs ->
    (forall x, x ∈ xs -> cong (peval cs x) 0) ->
    Forall (fun c => cong c 0) cs.
Proof.
  induction xs as [|a xs IH]; intros cs Hlen Hd Hroots.
  - destruct cs; [constructor|simpl in Hlen; lia].
  - unfold distinct_mod in Hd. simpl in Hd. apply NoDup_cons in Hd as [Ha Hd].
    apply (pquot_zero cs a); [|apply Hroots; left].
    apply IH; [rewrite length_pquot; simpl in Hlen; lia|exact Hd|].
    intros x Hx. apply (cong_cancel (x - a)).
    + rewrite cong_sub_0. intros Hxa. apply Ha.
      unfold cong in Hxa. rewrite <- Hxa.
      apply list_elem_of_fmap. eauto.
    + assert (H0 : (x - a) * peval (pquot cs a) x
                   = peval cs x - peval cs a)
        by (rewrite (pquot_spec cs a x); ring).
      rewrite H0, (Hroots x), (Hroots a); [reflexivity|left|now right].
Qed.

Fixpoint padd (a b : list Z) : list Z :=
  match a, b with
  | [], _ => b
  | _, [] => a
  | x :: a', y :: b' => (x + y) :: padd a' b'
  end.

Definition pscale (c : Z) (a : list Z) : list Z := map (Z.mul c) a.

(** [(x - r) * a(x)] *)
Definition pmul_lin (r : Z) (a : list Z) : list Z :=
  padd (0 :: a) (pscale (- r) a).

Lemma peval_padd (a b : list Z) (x : Z) :
  peval (padd a b) x = peval a x + peval b x.
Proof.
  revert b. induction a as [|c a IH]; intros [|d b]; simpl; try lia.
  rewrite IH. ring.
Qed.

Lemma peval_pscale (c : Z) (a : list Z) (x : Z) :
  peval (pscale c a) x = c * peval a x.
Proof.
  induction a as [|d a IH]; simpl; [lia|]. rewrite IH. ring.
Qed.

Lemma peval_pmul_lin (r : Z) (a : list Z) (x : Z) :
  peval (pmul_lin r a) x = (x - r) * peval a x.
Proof.
  unfold pmul_lin. rewrite peval_padd, peval_pscale. simpl. ring.
Qed.

Lemma length_padd (a b : list Z) :
  length (padd a b) = Nat.max (length a) (length b).
Proof.
  revert b. induction a as [|c a IH]; intros [|d b]; simpl; try lia.
  now rewrite IH.
Qed.

Lemma length_pscale (c : Z) (a : list Z) : length (pscale c a) = length a.
Proof. apply length_map. Qed.

Lemma length_pmul_lin (r : Z) (a : list Z) :
  length (pmul_lin r a) = Datatypes.S (length a).
Proof.
  unfold pmul_lin. rewrite length_padd, length_pscale. simpl. lia.
Qed.

(** The Lagrange basis polynomial of the node [xi] against [others]. *)
Fixpoint basis (xi : Z) (others : list Z) : list Z :=
  match others with
  | [] => [1]
  | xj :: rest => pscale (Z.invmod (xi - xj) N) (pmul_lin xj (basis xi rest))
  end.

Lemma length_basis (xi : Z) (others : list Z) :
  length (basis xi others) = Datatypes.S (length others).
Proof.
  induction others as [|xj rest IH]; [reflexivity|].
  simpl. now rewrite length_pscale, length_pmul_lin, IH.
Qed.

Lemma peval_basis (xi : Z) (others : list Z) (x : Z) :
  peval (basis xi others) x
  = VSS.zprod (map (fun xj => Z.invmod (xi - xj) N * (x - xj)) others).
Proof.
  induction others as [|xj rest IH]; simpl; [lia|].
  rewrite peval_pscale, peval_pmul_lin, IH. ring.
Qed.

Lemma basis_at_other (xi : Z) (others : list Z) (x : Z) :
  x ∈ others -> peval (basis xi others) x = 0.
Proof.
  rewrite peval_basis. induction others as [|xj rest IH]; intros Hin.
  - now apply elem_of_nil in Hin.
  - simpl. apply elem_of_cons in Hin as [->|Hin].
    + rewrite Z.sub_diag. ring.
    + rewrite IH by assumption. ring.
Qed.

Lemma basis_at_self (xi : Z) (others : list Z) :
  (forall xj, xj ∈ others -> ~ cong xi xj) ->
  cong (peval (basis xi others) xi) 1.
Proof.
  rewrite peval_basis. induction others as [|xj rest IH]; intros Hd.
  - reflexivity.
  - simpl. rewrite IH by (intros; apply Hd; now right).
    rewrite Z.mul_1_r. apply cong_inv. rewrite cong_sub_0. apply Hd. now left.
Qed.

(** The interpolant through the points [after], each basis polynomial
    taken against all other nodes: those in [before] and the rest of
    [after]. *)
Fixpoint interp (before : list Z) (after : list (Z * Z)) : list Z :=
  match after with
  | [] => []
  | (xi, yi) :: rest =>
      padd (pscale yi (basis xi (before ++ map fst rest)))
           (interp (before ++ [xi]) rest)
  end.

Lemma length_interp (after : list (Z * Z)) :
  forall before,
    (length (interp before after) <= length before + length after)%nat.
Proof.
  induction after as [|[xi yi] rest IH]; intros before; simpl; [lia|].
  rewrite length_padd, length_pscale, length_basis, length_app, length_map.
  specialize (IH (before ++ [xi])). rewrite length_app in IH. simpl in IH.
  lia.
Qed.

Lemma interp_at_before (after : list (Z * Z)) :
  forall before x, x ∈ before -> peval (interp before after) x = 0.
Proof.
  induction after as [|[xi yi] rest IH]; intros before x Hin; [reflexivity|].
  simpl. rewrite peval_padd, peval_pscale, basis_at_other, IH.
  - ring.
  - apply elem_of_app. now left.
  - apply elem_of_app. now left.
Qed.

Lemma interp_at_node (after : list (Z * Z)) :
  forall before x y,
    distinct_mod (before ++ map fst after) ->
    (x, y) ∈ after ->
    cong (peval (interp before after) x) y.
Proof.
  induction after as [|[xi yi] rest IH]; intros before x y Hd Hin.
  - now apply elem_of_nil in Hin.
  - simpl. rewrite peval_padd, peval_pscale.
    unfold distinct_mod in Hd. rewrite map_app in Hd. simpl in Hd.
    apply elem_of_cons in Hin as [Heq|Hin].
    + inversion Heq; subst xi yi; clear Heq.
      rewrite interp_at_before by (apply elem_of_app; right; now left).
      rewrite basis_at_self; [now rewrite Z.mul_1_r, Z.add_0_r|].
      intros xj Hj Hc. apply NoDup_app in Hd as (Hb & Hba & Ha).
      apply NoDup_cons in Ha as [Hx Ha].
      apply elem_of_app in Hj as [Hj|Hj].
      * apply (Hba (x mod N)); [|left].
        rewrite Hc. apply list_elem_of_fmap. eauto.
      * apply Hx. rewrite Hc. apply list_elem_of_fmap. eauto.
    + rewrite basis_at_other.
      * rewrite Z.mul_0_r, Z.add_0_l. apply IH; [|exact Hin].
        unfold distinct_mod. rewrite !map_app. simpl.
        now rewrite <- app_assoc.
      * apply elem_of_app. right.
        apply list_elem_of_fmap. exists (x, y). now split.
Qed.

(** Lagrange interpolation at 0: a polynomial with at most as many
    coefficients as there are points, agreeing with the points modulo
    [N], has the interpolant's value at 0 as its constant term. *)
Lemma interp_at_0 (cs : list Z) (pts : list (Z * Z)) :
  (length cs <= length pts)%nat ->
  distinct_mod (map fst pts) ->
  (forall x y, (x, y) ∈ pts -> cong y (peval cs x)) ->
  cong (peval (interp [] pts) 0) (peval cs 0).
Proof.
  intros Hlen Hd Hpts.
  set (D := padd cs (pscale (-1) (interp [] pts))).
  assert (HD : Forall (fun c => cong c 0) D).
  { apply (poly_roots (map fst pts)).
    - subst D. rewrite length_padd, length_pscale, length_map.
      pose proof (length_interp pts []). simpl in *. lia.
    - exact Hd.
    - intros x Hx. apply list_elem_of_fmap in Hx as [[x' y] [-> Hin]].
      subst D. rewrite peval_padd, peval_pscale. simpl.
      rewrite (interp_at_node pts [] x' y Hd Hin), (Hpts x' y Hin).
      apply eq_cong. ring. }
  apply (peval_zero D 0) in HD. subst D.
  rewrite peval_padd, peval_pscale in HD.
  symmetry. apply cong_sub_0.
  etransitivity; [|exact HD]. apply eq_cong. ring.
Qed.

(** *** The spec-modelled [interpolate] computes that value *)

Lemma zsum_cons (a : Z) (l : list Z) : VSS.zsum (a :: l) = a + VSS.zsum l.
Proof. reflexivity. Qed.

Lemma evaluatePolynomial_peval (s : Z) (a : list Z) (x : Z) :
  VSS.evaluatePolynomial N s a x = peval (s :: a) x mod N.
Proof.
  unfold VSS.evaluatePolynomial. simpl peval. do 2 f_equal.
  assert (Hgen : forall j,
    VSS.zsum (imap (fun k a_k => a_k * x ^ Z.of_nat (Datatypes.S (j + k))) a)
    = x ^ Z.of_nat (Datatypes.S j) * peval a x).
  { induction a as [|c a IH]; intros j; [simpl; lia|].
    rewrite imap_cons, zsum_cons. simpl peval.
    rewrite (imap_ext _ (fun k a_k =>
               a_k * x ^ Z.of_nat (Datatypes.S (Datatypes.S j + k)))).
    - rewrite IH, Nat.add_0_r.
      rewrite (Nat2Z.inj_succ (Datatypes.S j)), Z.pow_succ_r by lia. ring.
    - intros k a_k _. simpl. do 3 f_equal. lia. }
  specialize (Hgen 0%nat). simpl Nat.add in Hgen. rewrite Hgen.
  change (Z.of_nat 1) with 1. now rewrite Z.pow_1_r.
Qed.

Definition point_of (sh : VSS.Share) : Z * Z := (VSS.ID sh, VSS.Value sh).

Lemma map_fst_point_of (S : list VSS.Share) :
  map fst (map point_of S) = map VSS.ID S.
Proof. rewrite map_map. now apply map_ext. Qed.

Lemma reconstruct_sum_interp (after : list VSS.Share) :
  forall before,
    cong (VSS.zsum
            (imap (fun i sh =>
                     VSS.lagrange N (before ++ map VSS.ID after)
                       (length before + i) (VSS.ID sh) * VSS.Value sh)
                  after))
         (peval (interp before (map point_of after)) 0).
Proof.
  induction after as [|sh rest IH]; intros before; [reflexivity|].
  rewrite imap_cons, zsum_cons. simpl map. simpl interp.
  rewrite peval_padd, peval_pscale, peval_basis, map_fst_point_of.
  apply cong_add.
  - unfold VSS.lagrange. rewrite Nat.add_0_r, delete_middle.
    rewrite cong_mod, Z.mul_comm. apply cong_mul; [reflexivity|].
    apply eq_cong. f_equal. apply map_ext. intros xj. ring.
  - rewrite <- (IH (before ++ [VSS.ID sh])). apply eq_cong. f_equal.
    apply imap_ext. intros i sh' _. unfold compose.
    rewrite <- app_assoc, length_app. simpl.
    do 2 f_equal. lia.
Qed.

Lemma in_range_mod (xs : list Z) :
  Forall (fun x => 0 < x < N) xs -> map (fun x => x mod N) xs = xs.
Proof.
  induction 1 as [|x xs Hx _ IH]; [reflexivity|].
  simpl. rewrite IH, Z.mod_small by lia. reflexivity.
Qed.

Context {Point : Type}.
Variable base_mul : Z -> Point.

Lemma Create_shares (t : nat) (s : Z) (ids : list Z) (rng : nat -> Z)
    (vs : list Point) (shares : list VSS.Share) :
  VSS.Create N base_mul t s ids rng = inl (vs, shares) ->
  exists a,
    length a = t /\ (t < length ids)%nat /\
    Forall (fun x => 0 < x < N) ids /\ NoDup ids /\
    shares = map (fun id => {| VSS.Threshold := t; VSS.ID := id;
                               VSS.Value := VSS.evaluatePolynomial N s a id |})
                 ids.
Proof.
  unfold VSS.Create, VSS.CheckIndexes.
  destruct (bool_decide (t < length ids)%nat) eqn:Hlen; [|discriminate].
  destruct (bool_decide (1 <= t)%nat); [|discriminate].
  destruct (forallb _ ids) eqn:Hr; [|discriminate].
  destruct (bool_decide (NoDup ids)) eqn:Hnd; [|discriminate].
  simpl. intros Hc. inversion Hc; subst; clear Hc.
  eexists. split; [|split; [|split; [|split; [|reflexivity]]]].
  - now rewrite length_map, length_seq.
  - now apply bool_decide_eq_true in Hlen.
  - apply Forall_forall. intros x Hx. apply list_elem_of_In in Hx.
    rewrite forallb_forall in Hr. specialize (Hr x Hx).
    apply andb_true_iff in Hr as [H1 H2].
    apply Z.ltb_lt in H1, H2. lia.
  - now apply bool_decide_eq_true in Hnd.
Qed.


End Interpolation.

Section ReConstructExamples.

Lemma prime_7 : Z.prime 7.
Proof.
  split; [lia|]. intros n Hn [z Hz].
  assert (Hc : n = 2 \/ n = 3 \/ n = 4 \/ n = 5 \/ n = 6) by lia.
  destruct Hc as [->|[->|[->|[->| ->]]]]; lia.
Qed.

(** Sharing the secret 3 over [Z_7] with threshold 1 among the ids 1, 2
    and 3, the sampled coefficient being 4. *)
Definition dealt : list VSS.Share :=
  [ {| VSS.Threshold := 1; VSS.ID := 1; VSS.Value := 0 |};
    {| VSS.Threshold := 1; VSS.ID := 2; VSS.Value := 4 |};
    {| VSS.Threshold := 1; VSS.ID := 3; VSS.Value := 1 |} ].

Lemma dealt_by_Create :
  VSS.Create 7 (fun k => k mod 7) 1 3 [1; 2; 3] (fun _ => 4)
  = inl ([3; 4], dealt).
Proof. reflexivity. Qed.


(** Sharing the secret 3 over [Z_7] with threshold 3 among the ids 1 to
    5, as [TestReconstruct] does ([num, threshold := 5, 3]); the sampled
    coefficients are 4, 2 and 1. *)
Definition dealt5 : list VSS.Share :=
  [ {| VSS.Threshold := 3; VSS.ID := 1; VSS.Value := 3 |};
    {| VSS.Threshold := 3; VSS.ID := 2; VSS.Value := 6 |};
    {| VSS.Threshold := 3; VSS.ID := 3; VSS.Value := 4 |};
    {| VSS.Threshold := 3; VSS.ID := 4; VSS.Value := 3 |};
    {| VSS.Threshold := 3; VSS.ID := 5; VSS.Value := 2 |} ].

Lemma dealt5_by_Create :
  VSS.Create 7 (fun k => k mod 7) 3 3 [1; 2; 3; 4; 5]
    (fun k => match k with 0%nat => 4 | 1%nat => 2 | _ => 1 end)
  = inl ([3; 4; 2; 1], dealt5).
Proof. reflexivity. Qed.

(** The guard [|S| ≥ t+1] of the specification refuses three shares of
    threshold 3, so the second assertion group of the repository's
    [TestReconstruct] does not hold of [ReConstruct_spec]. *)
Lemma TestReconstruct_expects_t_shares (N : Z) (shares : list VSS.Share) :
  length shares = 5%nat ->
  (forall sh, sh ∈ shares -> VSS.Threshold sh = 3%nat) ->
  exists a3, VSS.TestReconstruct (VSS.Shares_ReConstruct_spec N) shares
             = (true, false, a3).
Proof.
  intros Hlen Hthr.
  destruct shares as [|s1 [|s2 [|s3 [|s4 [|s5 [|? ?]]]]]]; try discriminate.
  assert (H1 : VSS.Threshold s1 = 3%nat) by (apply Hthr; left).
  destruct s1 as [t1 i1 v1]. simpl in H1. subst t1.
  unfold VSS.TestReconstruct, VSS.Shares_ReConstruct_spec,
    VSS.ReConstruct_spec.
  simpl. eauto.
Qed.

(** More generally, no [ReConstruct] that refuses every set of fewer
    than [t+1 = 4] shares passes the second assertion group of
    [TestReconstruct], whatever the shares are. *)
Lemma TestReconstruct_refutes_guard
    (reconstruct : list VSS.Share -> Z + VSS.error)
    (shares : list VSS.Share) :
  (forall S, (length S < 3 + 1)%nat -> exists e, reconstruct S = inr e) ->
  exists a1 a3, VSS.TestReconstruct reconstruct shares = (a1, false, a3).
Proof.
  intros Hguard. unfold VSS.TestReconstruct. cbv zeta.
  destruct (Hguard (take 3 shares)) as [e ->]; [|eauto].
  rewrite length_take. lia.
Qed.


End ReConstructExamples.

Section MoreExamples.
Import Signing.

Lemma WaitingFor_exact_witness :
  (exists ids,
      Signing.WaitingFor Toy.fresh_round = Ret ids /\
      ids = awaited (Signing.ok Toy.fresh_round)
              (Tss.IDs (Signing.params Toy.fresh_round)) /\
      forall p, p ∈ ids <->
        exists j, Signing.ok Toy.fresh_round !! j = Some false /\
                  Tss.IDs (Signing.params Toy.fresh_round) !! j = Some p) /\
  (exists ids,
      Keygen.WaitingFor Toy.keygen_round = Ret ids /\
      ids = awaited (Keygen.ok Toy.keygen_round)
              (Tss.IDs (Keygen.params Toy.keygen_round)) /\
      forall p, p ∈ ids <->
        exists j, Keygen.ok Toy.keygen_round !! j = Some false /\
                  Tss.IDs (Keygen.params Toy.keygen_round) !! j = Some p).
Proof.
  split.
  - apply (proj1 WaitingFor_exact Toy.fresh_round). reflexivity.
  - apply (proj2 WaitingFor_exact Toy.keygen_round). reflexivity.
Defined.

Example WaitingFor_keygen_round :
  Keygen.WaitingFor Toy.keygen_round = Ret [Toy.P1].
Proof. reflexivity. Qed.

Lemma ssid_inputs_reduced_witness :
  @Signing.getSSID Toy.externals Toy.fresh_round
  = match @poseidon_Hash Toy.externals
            (map (fun item => item mod Signing.fieldModulus)
                 [13; 7; 1; 0; 1; 2 ^ 250 + 1; 4; 0; 2; 0; 1; 0]) with
    | Some ssidHash => inl (BigInt.Bytes ssidHash)
    | None =>
        inr (Signing.WrapError Toy.fresh_round
               (Tss.New "Poseidon hashing failed")
               [Tss.partyID (Signing.params Toy.fresh_round)])
    end.
Proof.
  apply (proj1 (proj2 (proj2 (proj2
           (@ssid_inputs_reduced Toy.externals
              [13; 7; 1; 0; 1; 2 ^ 250 + 1; 4; 0; 2; 0; 1; 0]))))
           Toy.fresh_round).
  reflexivity.
Defined.

End MoreExamples.

(** * More of the code *)

(** ** Round bookkeeping: rounds.go and round_1.go *)

Section RoundBookkeeping.
Import Crypto CryptoOps Signing.

Lemma WaitingFor_loop_grows (Ps : list Tss.PartyID) :
  forall oks j ids r,
    WaitingFor_loop Ps j oks ids = Ret r -> (length ids <= length r)%nat.
Proof.
  induction oks as [|o rest IH]; intros j ids r Hr; simpl in Hr.
  - now inversion Hr.
  - destruct o.
    + now apply IH in Hr.
    + step Hr p Hp. apply IH in Hr. rewrite length_app in Hr. simpl in Hr. lia.
Qed.

Lemma WaitingFor_loop_nil (Ps : list Tss.PartyID) :
  forall oks j ids,
    WaitingFor_loop Ps j oks ids = Ret []
    <-> ids = [] /\ forallb (fun o => o) oks = true.
Proof.
  induction oks as [|o rest IH]; intros j ids; simpl.
  - split.
    + intros Hr. now inversion Hr.
    + now intros [-> _].
  - destruct o; simpl.
    + apply IH.
    + split; [|intros [_ Hf]; discriminate].
      intros Hr. step Hr p Hp. apply WaitingFor_loop_grows in Hr.
      rewrite length_app in Hr. simpl in Hr. lia.
Qed.

(** X1. [CanProceed] answers true exactly when the round was started and
    [WaitingFor] returns the empty list; this holds whatever the length of
    the [ok] vector. *)
Theorem CanProceed_iff_nobody_awaited (round : base) :
  CanProceed round = true
  <-> started round = true /\ WaitingFor round = Ret [].
Proof.
  unfold CanProceed, WaitingFor. rewrite WaitingFor_loop_nil.
  destruct (started round); simpl.
  - tauto.
  - split; [discriminate|]. now intros [? _].
Qed.

Lemma awaited_all_false (oks : list bool) :
  forall Ps : list Tss.PartyID,
    length oks = length Ps -> awaited (map (fun _ => false) oks) Ps = Ps.
Proof.
  unfold awaited.
  induction oks as [|o rest IH]; intros [|p Ps] Hlen; simpl in *;
    try discriminate; try reflexivity.
  f_equal. apply IH. lia.
Qed.

(** X2. After [resetOK] a round with one [ok] entry per party waits for
    every party, itself included, in the order of [Parties().IDs()], and
    cannot proceed unless there is no party at all. *)
Theorem resetOK_awaits_everyone (round : base) :
  length (ok round) = length (Tss.IDs (params round)) ->
  WaitingFor (resetOK round) = Ret (Tss.IDs (params round)) /\
  (CanProceed (resetOK round) = true -> Tss.IDs (params round) = []).
Proof.
  intros Hlen. split.
  - unfold WaitingFor, resetOK. simpl.
    rewrite WaitingFor_loop_spec by (rewrite drop_0, length_map; lia).
    rewrite drop_0. simpl. f_equal. now apply awaited_all_false.
  - unfold CanProceed, resetOK. simpl.
    destruct (started round); simpl; [|discriminate].
    destruct (ok round) as [|o rest]; simpl; [|discriminate].
    intros _. destruct (Tss.IDs (params round)); [reflexivity|discriminate].
Qed.

Lemma resetOK_awaits_everyone_witness :
  WaitingFor (resetOK Toy.fresh_round) = Ret [Toy.P0; Toy.P1] /\
  (CanProceed (resetOK Toy.fresh_round) = true -> [Toy.P0; Toy.P1] = []).
Proof.
  apply (resetOK_awaits_everyone Toy.fresh_round). reflexivity.
Defined.

End RoundBookkeeping.

(** ** [round1.Start] and [round1.Update] *)

Section RoundOne.
Import Crypto CryptoOps Signing.

Lemma round1_Start_started `{Externals} (round round' : base)
    (e : option Tss.error) :
  round1_Start round = Ret (round', e) -> started round' = true.
Proof.
  unfold round1_Start. intros Hrun.
  destruct (started round) eqn:Hs.
  { inversion Hrun; subst. assumption. }
  destruct (getSSID _) as [id|err].
  2:{ now inversion Hrun. }
  destruct (GetRandomPositiveInt _ _) as [ri rnd].
  step Hrun pointRi Hpoint.
  step Hrun x Hx.
  step Hrun y Hy.
  destruct (poseidon_HashBytes _) as [h|].
  2:{ now inversion Hrun. }
  destruct (_ || _); [discriminate|].
  now inversion Hrun.
Qed.

(** X3. [round1.Start] runs at most once: whatever a call that returns
    did, the round is marked started afterwards, and a further call
    returns the "round already started" error and leaves the round, the
    random source and both channels as they are. *)
Theorem round1_Start_at_most_once `{Externals} (round round' : base)
    (e : option Tss.error) :
  round1_Start round = Ret (round', e) ->
  started round' = true /\
  round1_Start round'
    = Ret (round',
           Some (WrapError round' (Tss.New "round already started") [])).
Proof.
  intros Hrun. apply round1_Start_started in Hrun.
  split; [assumption|]. unfold round1_Start. now rewrite Hrun.
Qed.

(** The miniature round after its [round1.Start]. *)
Definition after_round1 : base :=
  send_out (NewSignRound1Message Toy.P0 4)
    (set_temp (set_signRound1Messages
                 [Some (NewSignRound1Message Toy.P0 4); None])
       (set_temp (set_deCommit [3; 0])
          (set_rand [5; 6]
             (set_temp
                (set_ssid 0
                   (Some [6; 83; 132; 245; 175; 255; 253; 85; 151;
                          255; 237; 87; 39; 255; 255; 203; 147; 87;
                          255; 247; 57; 190; 255; 249; 114; 106;
                          255; 255; 227; 176]))
                (resetOK (set_started true 1 Toy.fresh_round)))))).

Lemma after_round1_run :
  @round1_Start Toy.externals Toy.fresh_round = Ret (after_round1, None).
Proof. vm_compute. reflexivity. Qed.

Lemma round1_Start_at_most_once_witness :
  started after_round1 = true /\
  @round1_Start Toy.externals after_round1
    = Ret (after_round1,
           Some (WrapError after_round1
                   (Tss.New "round already started") [])).
Proof.
  apply (@round1_Start_at_most_once Toy.externals Toy.fresh_round
           after_round1 None).
  vm_compute. reflexivity.
Defined.

(** X4. A successful [round1.Start] sends one message on [out], a broadcast
    from the party itself that [round1.CanAccept] accepts, and stores that
    same message in the party's own slot of [signRound1Messages], leaving
    the other slots alone; it clears every [ok] entry, sets the round
    number to 1 and sends nothing on [end]. *)
Theorem round1_Start_own_slot `{Externals} (round round' : base) :
  round1_Start round = Ret (round', None) ->
  let i := Z.to_nat (Tss.Index (Tss.partyID (params round))) in
  exists msg,
    out_ch round' = out_ch round ++ [msg] /\
    From msg = Tss.partyID (params round) /\
    Round1.CanAccept msg = true /\
    (i < length (signRound1Messages (temp round)))%nat /\
    signRound1Messages (temp round')
      = <[i := Some msg]> (signRound1Messages (temp round)) /\
    ok round' = map (fun _ => false) (ok round) /\
    number round' = 1 /\
    end_ch round' = end_ch round.
Proof.
  unfold round1_Start. intros Hrun.
  destruct (started round); [discriminate|].
  destruct (getSSID _) as [id|err]; [|discriminate].
  destruct (GetRandomPositiveInt _ _) as [ri rnd] eqn:Hrand.
  step Hrun pointRi Hpoint.
  step Hrun x Hx.
  step Hrun y Hy.
  destruct (poseidon_HashBytes _) as [h|] eqn:Hh; [|discriminate].
  destruct (_ || _) eqn:Hidx; [discriminate|].
  inversion Hrun; subst round'; clear Hrun.
  simpl in *.
  apply orb_false_iff in Hidx as [Hlo Hhi].
  apply Z.ltb_ge in Hlo. apply Z.leb_gt in Hhi.
  eexists. repeat split; try reflexivity. lia.
Qed.

Lemma round1_Start_own_slot_witness :
  exists msg,
    out_ch after_round1 = [] ++ [msg] /\
    From msg = Toy.P0 /\
    Round1.CanAccept msg = true /\
    (0 < 2)%nat /\
    signRound1Messages (temp after_round1)
      = <[0%nat := Some msg]> [None; None] /\
    ok after_round1 = map (fun _ => false) [false; false] /\
    number after_round1 = 1 /\
    end_ch after_round1 = [].
Proof.
  apply (@round1_Start_own_slot Toy.externals Toy.fresh_round after_round1).
  vm_compute. reflexivity.
Defined.

(** *** [round1.Update] *)

(** The round-1 message of slot [k], when it is there and acceptable. *)
Definition acceptable (msgs : list (option ParsedMessage)) (k : nat) : Prop :=
  exists m, msgs !! k = Some (Some m) /\ Round1.CanAccept m = true.

Lemma Update_loop_frame (msgs : list (option ParsedMessage)) :
  forall j oks ret oks' ret',
    Round1.Update_loop j msgs oks ret = Ret (oks', ret') ->
    length oks' = length oks /\
    (forall k, (k < j)%nat -> oks' !! k = oks !! k).
Proof.
  induction msgs as [|msg rest IH]; intros j oks ret oks' ret' Hrun;
    simpl in Hrun.
  - inversion Hrun; subst. now split.
  - step Hrun o Ho. apply deref_Ret in Ho.
    destruct o; [|destruct msg as [m|]; [destruct (negb _)|]];
      apply IH in Hrun as [Hlen Hfr];
      rewrite ?length_insert in Hlen; (split; [exact Hlen|]);
      intros k Hk; rewrite Hfr by lia; try reflexivity.
    apply list_lookup_insert_ne. lia.
Qed.

Lemma Update_loop_spec (msgs : list (option ParsedMessage)) :
  forall j oks ret oks' ret',
    Round1.Update_loop j msgs oks ret = Ret (oks', ret') ->
    (length msgs <= length oks - j)%nat /\
    (forall k, oks' !! k = Some true
               <-> oks !! k = Some true \/
                   ((j <= k < length oks)%nat /\ acceptable msgs (k - j))) /\
    ret' = ret && forallb (fun o => o) (take (length msgs) (drop j oks')).
Proof.
  induction msgs as [|msg rest IH]; intros j oks ret oks' ret' Hrun.
  - simpl in Hrun. inversion Hrun; subst. simpl.
    split; [lia|]. split; [|now rewrite andb_true_r].
    intros k. split; [tauto|]. intros [Hk|[_ (m & Hm & _)]]; [assumption|].
    discriminate Hm.
  - simpl in Hrun. step Hrun o Ho. apply deref_Ret in Ho.
    pose proof (lookup_lt_Some _ _ _ Ho) as Hj.
    assert (Hshift : forall k, (Datatypes.S j <= k)%nat ->
               acceptable (msg :: rest) (k - j) <-> acceptable rest (k - Datatypes.S j)).
    { intros k Hk. unfold acceptable.
      replace (k - j)%nat with (Datatypes.S (k - Datatypes.S j)) by lia.
      reflexivity. }
    assert (Hhead : acceptable (msg :: rest) (j - j)
               <-> exists m, msg = Some m /\ Round1.CanAccept m = true).
    { unfold acceptable. rewrite Nat.sub_diag. simpl.
      split; intros (m & Hm & Hc); exists m; split; congruence. }
    assert (Hcase : forall k, (j <= k)%nat -> k = j \/ (Datatypes.S j <= k)%nat)
      by (intros; lia).
    destruct o.
    + pose proof (Update_loop_frame _ _ _ _ _ _ Hrun) as [Hlen Hfr].
      apply IH in Hrun as (Hb & Hok & Hret).
      split; [simpl; lia|]. split.
      * intros k. rewrite Hok. split.
        -- intros [?|[Hk Hacc]]; [now left|]. right. split; [lia|].
           apply Hshift; [lia|assumption].
        -- intros [?|[Hk Hacc]]; [now left|].
           destruct (Hcase k ltac:(lia)) as [->|Hk'].
           ++ now left.
           ++ right. split; [lia|]. now apply Hshift.
      * rewrite (drop_S oks' true j) by (rewrite Hfr by lia; assumption).
        simpl. assumption.
    + assert (Hfail :
        (forall m, msg = Some m -> Round1.CanAccept m = false) ->
        Round1.Update_loop (Datatypes.S j) rest oks false = Ret (oks', ret') ->
        (length (msg :: rest) <= length oks - j)%nat /\
        (forall k, oks' !! k = Some true
               <-> oks !! k = Some true \/
                   ((j <= k < length oks)%nat /\ acceptable (msg :: rest) (k - j))) /\
        ret' = ret && forallb (fun o => o)
                        (take (length (msg :: rest)) (drop j oks'))).
      { intros Hno Hrun'.
        pose proof (Update_loop_frame _ _ _ _ _ _ Hrun') as [Hlen Hfr].
        apply IH in Hrun' as (Hb & Hok & Hret).
        split; [simpl; lia|]. split.
        - intros k. rewrite Hok. split.
          + intros [?|[Hk Hacc]]; [now left|]. right. split; [lia|].
            apply Hshift; [lia|assumption].
          + intros [?|[Hk Hacc]]; [now left|].
            destruct (Hcase k ltac:(lia)) as [->|Hk'].
            * apply Hhead in Hacc as (m & -> & Hc).
              rewrite (Hno m eq_refl) in Hc. discriminate.
            * right. split; [lia|]. now apply Hshift.
        - rewrite (drop_S oks' false j) by (rewrite Hfr by lia; assumption).
          simpl. rewrite Hret. simpl. now rewrite andb_false_r. }
      destruct msg as [m|].
      * destruct (Round1.CanAccept m) eqn:Hc; simpl in Hrun.
        -- pose proof (Update_loop_frame _ _ _ _ _ _ Hrun) as [Hlen Hfr].
           rewrite length_insert in Hlen.
           apply IH in Hrun as (Hb & Hok & Hret).
           rewrite length_insert in Hb.
           split; [simpl; lia|]. split.
           ++ intros k. rewrite Hok, length_insert.
              rewrite list_lookup_insert_Some. split.
              ** intros [[(-> & _ & _)|[_ ?]]|[Hk Hacc]].
                 --- right. split; [lia|]. apply Hhead. now exists m.
                 --- now left.
                 --- right. split; [lia|]. apply Hshift; [lia|assumption].
              ** intros [Hkt|[Hk Hacc]].
                 --- left. destruct (decide (j = k)) as [->|Hne].
                     +++ congruence.
                     +++ right. now split.
                 --- destruct (Hcase k ltac:(lia)) as [->|Hk'].
                     +++ left. left. repeat split. lia.
                     +++ right. split; [lia|]. now apply Hshift.
           ++ rewrite (drop_S oks' true j).
              ** simpl. assumption.
              ** rewrite Hfr by lia. apply list_lookup_insert_eq. lia.
        -- apply Hfail; [|assumption]. intros m' [= <-]. assumption.
      * apply Hfail; [|assumption]. discriminate.
Qed.

Lemma Update_loop_again (msgs : list (option ParsedMessage)) :
  forall j oks ret oks' ret',
    Round1.Update_loop j msgs oks ret = Ret (oks', ret') ->
    forall ret0,
      Round1.Update_loop j msgs oks' ret0
      = Ret (oks', ret0 && forallb (fun o => o)
                            (take (length msgs) (drop j oks'))).
Proof.
  induction msgs as [|msg rest IH]; intros j oks ret oks' ret' Hrun ret0.
  - simpl. now rewrite andb_true_r.
  - simpl in Hrun. step Hrun o Ho. apply deref_Ret in Ho.
    assert (Hgo : forall X r0 b,
              Round1.Update_loop (Datatypes.S j) rest X r0 = Ret (oks', ret') ->
              X !! j = Some b ->
              oks' !! j = Some b).
    { intros X r0 b HX Hb.
      apply Update_loop_frame in HX as [_ Hfr]. rewrite Hfr by lia. exact Hb. }
    destruct o.
    + pose proof (Hgo _ _ _ Hrun Ho) as Hj.
      simpl. rewrite Hj. simpl.
      rewrite (drop_S oks' true j Hj). simpl. now apply (IH _ _ _ _ _ Hrun).
    + destruct msg as [m|].
      * destruct (Round1.CanAccept m) eqn:Hc; simpl in Hrun.
        -- assert (Hj : oks' !! j = Some true).
           { apply (Hgo _ _ _ Hrun). apply list_lookup_insert_eq.
             now apply lookup_lt_Some in Ho. }
           simpl. rewrite Hj. simpl.
           rewrite (drop_S oks' true j Hj). simpl. now apply (IH _ _ _ _ _ Hrun).
        -- pose proof (Hgo _ _ _ Hrun Ho) as Hj.
           simpl. rewrite Hj. simpl. rewrite Hc. simpl.
           rewrite (drop_S oks' false j Hj). simpl.
           rewrite (IH _ _ _ _ _ Hrun). simpl. now rewrite andb_false_r.
      * pose proof (Hgo _ _ _ Hrun Ho) as Hj.
        simpl. rewrite Hj. simpl.
        rewrite (drop_S oks' false j Hj). simpl.
        rewrite (IH _ _ _ _ _ Hrun). simpl. now rewrite andb_false_r.
Qed.

Lemma Update_loop_total (msgs : list (option ParsedMessage)) :
  forall j oks ret,
    (length msgs <= length oks - j)%nat ->
    exists r, Round1.Update_loop j msgs oks ret = Ret r.
Proof.
  induction msgs as [|msg rest IH]; intros j oks ret Hlen; simpl in *.
  - now eexists.
  - destruct (oks !! j) as [o|] eqn:Ho.
    2:{ apply lookup_ge_None in Ho. lia. }
    simpl.
    destruct o; [|destruct msg as [m|]; [destruct (negb _)|]];
      apply IH; rewrite ?length_insert; lia.
Qed.

Lemma forallb_take_lookup (n : nat) :
  forall l : list bool,
    (n <= length l)%nat ->
    forallb (fun o => o) (take n l) = true
    <-> forall k, (k < n)%nat -> l !! k = Some true.
Proof.
  induction n as [|n IH]; intros l Hn.
  - simpl. split; [intros _ k Hk; lia|reflexivity].
  - destruct l as [|o l]; simpl in Hn; [lia|]. simpl.
    rewrite andb_true_iff, IH by lia. split.
    + intros [-> Hl] [|k] Hk; [reflexivity|]. apply Hl. lia.
    + intros Hl. split.
      * specialize (Hl 0%nat ltac:(lia)). now inversion Hl.
      * intros k Hk. apply (Hl (Datatypes.S k)). lia.
Qed.

(** The miniature round after [round1.Start] and one [round1.Update]:
    the party's own message is in, the peer's is awaited. *)
Definition after_Update : base := set_ok [true; false] after_round1.

(** X5. What [round1.Update] does, slot by slot: it returns no error and
    changes nothing but [ok]; an entry of [ok] is true afterwards exactly
    when it was true before or its slot of [signRound1Messages] holds a
    message that [round1.CanAccept] accepts (so no entry is ever cleared);
    and the boolean returned is true exactly when every slot of
    [signRound1Messages] has its [ok] entry set. *)
Theorem round1_Update_marks_arrived (round round' : base) (ret : bool)
    (err : option Tss.error) :
  Round1.Update round = Ret (round', ret, err) ->
  err = None /\
  round' = set_ok (ok round') round /\
  length (ok round') = length (ok round) /\
  (forall k, ok round' !! k = Some true
             <-> ok round !! k = Some true \/
                 ((k < length (ok round))%nat /\
                  acceptable (signRound1Messages (temp round)) k)) /\
  (ret = true
   <-> forall k, (k < length (signRound1Messages (temp round)))%nat ->
                 ok round' !! k = Some true).
Proof.
  unfold Round1.Update. intros Hrun.
  step Hrun lp Hloop. destruct lp as [oks' ret'].
  inversion Hrun; subst round' ret err; clear Hrun. simpl.
  pose proof (Update_loop_frame _ _ _ _ _ _ Hloop) as [Hlen _].
  apply Update_loop_spec in Hloop as (Hb & Hok & Hret).
  repeat split; try assumption.
  - rewrite Hok. intros [?|[Hk Hacc]]; [now left|right].
    rewrite Nat.sub_0_r in Hacc. split; [lia|assumption].
  - rewrite Hok. intros [?|[Hk Hacc]]; [now left|right].
    rewrite Nat.sub_0_r. split; [lia|assumption].
  - rewrite Hret, drop_0. simpl. apply forallb_take_lookup. lia.
  - rewrite Hret, drop_0. simpl. apply forallb_take_lookup. lia.
Qed.

Lemma round1_Update_marks_arrived_witness :
  @None Tss.error = None /\
  after_Update = set_ok (ok after_Update) after_round1 /\
  length (ok after_Update) = length (ok after_round1) /\
  (forall k, ok after_Update !! k = Some true
             <-> ok after_round1 !! k = Some true \/
                 ((k < length (ok after_round1))%nat /\
                  acceptable (signRound1Messages (temp after_round1)) k)) /\
  (false = true
   <-> forall k,
         (k < length (signRound1Messages (temp after_round1)))%nat ->
         ok after_Update !! k = Some true).
Proof.
  apply (round1_Update_marks_arrived after_round1 after_Update false None).
  reflexivity.
Defined.

(** X6. [round1.Update] can be repeated: a second call on the round it
    left returns the same boolean and changes nothing.  For a started
    round with one [ok] entry per message slot, it returns true exactly
    when the round can proceed. *)
Theorem round1_Update_again (round round' : base) (ret : bool)
    (err : option Tss.error) :
  Round1.Update round = Ret (round', ret, err) ->
  Round1.Update round' = Ret (round', ret, None) /\
  (started round = true ->
   length (signRound1Messages (temp round)) = length (ok round) ->
   (ret = true <-> CanProceed round' = true)).
Proof.
  unfold Round1.Update. intros Hrun.
  step Hrun lp Hloop. destruct lp as [oks' ret'].
  inversion Hrun; subst round' ret err; clear Hrun. simpl.
  pose proof (Update_loop_frame _ _ _ _ _ _ Hloop) as [Hlen _].
  pose proof (Update_loop_again _ _ _ _ _ _ Hloop true) as Hagain.
  apply Update_loop_spec in Hloop as (_ & _ & Hret).
  simpl in Hret, Hagain. split.
  - rewrite Hagain. simpl. now rewrite <- Hret.
  - intros Hs Hn. unfold CanProceed. simpl. rewrite Hs. simpl.
    rewrite Hret, drop_0, Hn, <- Hlen, firstn_all. reflexivity.
Qed.

Lemma round1_Update_again_witness :
  Round1.Update after_Update = Ret (after_Update, false, None) /\
  (started after_round1 = true ->
   length (signRound1Messages (temp after_round1))
     = length (ok after_round1) ->
   (false = true <-> CanProceed after_Update = true)).
Proof.
  apply (round1_Update_again after_round1 after_Update false None).
  reflexivity.
Defined.

(** X7. [round1.Update] panics (index out of range on [round.ok]) exactly
    when [signRound1Messages] has more slots than [ok] has entries; a
    round built by [newRound1] has as many [ok] entries as parties, so on
    it [Update] returns as long as [temp] holds at most one slot per
    party. *)
Theorem round1_Update_panics_iff (round : base) :
  (Round1.Update round = Panic
   <-> (length (ok round) < length (signRound1Messages (temp round)))%nat)
  /\
  forall params key data temp out end_,
    (length (signRound1Messages temp) <= length (Tss.IDs params))%nat ->
    Round1.Update (Round1.newRound1 params key data temp out end_) <> Panic.
Proof.
  assert (Hiff : forall round : base,
            Round1.Update round = Panic
            <-> (length (ok round)
                 < length (signRound1Messages (temp round)))%nat).
  2:{ split; [apply Hiff|].
      intros params0 key0 data0 temp0 out end_ Hlen Hp.
      apply Hiff in Hp. simpl in Hp. rewrite length_replicate in Hp. lia. }
  clear round. intros round.
  unfold Round1.Update. split.
  - intros Hrun.
    destruct (Nat.lt_ge_cases (length (ok round))
                (length (signRound1Messages (temp round)))) as [|Hge];
      [assumption|].
    destruct (Update_loop_total (signRound1Messages (temp round)) 0 (ok round)
                true ltac:(lia)) as [r Hr].
    rewrite Hr in Hrun. discriminate.
  - intros Hlt.
    destruct (Round1.Update_loop _ _ _ _) as [[oks' ret']|] eqn:Hloop;
      [|reflexivity].
    apply Update_loop_spec in Hloop as (Hb & _). lia.
Qed.

Lemma awaited_all_but (oks : list bool) :
  forall (Ps : list Tss.PartyID) (i : nat),
    length oks = length Ps ->
    awaited (<[i := true]> (map (fun _ => false) oks)) Ps = delete i Ps.
Proof.
  induction oks as [|o rest IH]; intros [|p Ps] i Hlen; simpl in *;
    try discriminate; try reflexivity.
  destruct i as [|i]; simpl.
  - unfold awaited. simpl. apply (awaited_all_false rest Ps). lia.
  - unfold awaited in *. simpl. f_equal. apply IH. lia.
Qed.

(** X8. First [Start], then [Update], on a round that has one [ok] entry
    and one empty message slot per party: the party's own broadcast
    counts as arrived, and the round then waits for exactly the other
    parties, in the order of [Parties().IDs()]; [Update] reports
    completion only when the party is alone. *)
Theorem round1_Start_then_Update `{Externals} (round round' : base) :
  round1_Start round = Ret (round', None) ->
  length (ok round) = length (Tss.IDs (params round)) ->
  signRound1Messages (temp round)
    = replicate (length (Tss.IDs (params round))) None ->
  exists round'' ret,
    Round1.Update round' = Ret (round'', ret, None) /\
    WaitingFor round''
      = Ret (delete (Z.to_nat (Tss.Index (Tss.partyID (params round))))
               (Tss.IDs (params round))) /\
    (ret = true <-> length (Tss.IDs (params round)) = 1%nat).
Proof.
  intros Hrun Hok Hmsgs.
  set (n := length (Tss.IDs (params round))) in *.
  set (i := Z.to_nat (Tss.Index (Tss.partyID (params round)))).
  assert (Hshape : exists msg,
            Round1.CanAccept msg = true /\ (i < n)%nat /\
            signRound1Messages (temp round')
              = <[i := Some msg]> (replicate n None) /\
            ok round' = map (fun _ => false) (ok round) /\
            Tss.IDs (params round') = Tss.IDs (params round)).
  { revert Hrun. unfold round1_Start. intros Hrun.
    destruct (started round); [discriminate|].
    destruct (getSSID _) as [id|err]; [|discriminate].
    destruct (GetRandomPositiveInt _ _) as [ri rnd] eqn:Hrand.
    step Hrun pointRi Hpoint.
    step Hrun x Hx.
    step Hrun y Hy.
    destruct (poseidon_HashBytes _) as [h|] eqn:Hh; [|discriminate].
    destruct (_ || _) eqn:Hidx; [discriminate|].
    inversion Hrun; subst round'; clear Hrun.
    simpl in *.
    apply orb_false_iff in Hidx as [Hlo Hhi].
    apply Z.ltb_ge in Hlo. apply Z.leb_gt in Hhi.
    rewrite Hmsgs in *. rewrite length_replicate in Hhi.
    eexists. repeat split; try reflexivity. unfold i, n. lia. }
  destruct Hshape as (msg & Hacc & Hi & Hmsgs' & Hok' & Hids).
  destruct (Update_loop_total (signRound1Messages (temp round')) 0 (ok round')
              true) as [[oks'' ret] Hloop].
  { rewrite Hmsgs', Hok', length_insert, length_replicate, length_map. lia. }
  exists (set_ok oks'' round'), ret.
  assert (Hupd : Round1.Update round' = Ret (set_ok oks'' round', ret, None)).
  { unfold Round1.Update. now rewrite Hloop. }
  split; [exact Hupd|].
  pose proof (Update_loop_frame _ _ _ _ _ _ Hloop) as [Hlen _].
  apply Update_loop_spec in Hloop as (_ & Hchar & Hret).
  rewrite Hok', length_map, Hok in Hlen.
  assert (Honly : forall k, acceptable (signRound1Messages (temp round')) k
                            <-> k = i).
  { intros k. unfold acceptable. rewrite Hmsgs'. split.
    - intros (m0 & Hm0 & _).
      apply list_lookup_insert_Some in Hm0 as [(-> & _)|[_ Hm0]];
        [reflexivity|].
      apply lookup_replicate in Hm0 as [Hm0 _]. discriminate.
    - intros ->. exists msg. split; [|assumption].
      apply list_lookup_insert_eq. now rewrite length_replicate. }
  assert (Hoks : oks'' = <[i := true]> (map (fun _ => false) (ok round))).
  { apply list_eq. intros k.
    destruct (oks'' !! k) as [b|] eqn:Hk.
    - pose proof (lookup_lt_Some _ _ _ Hk) as Hkn.
      destruct (decide (k = i)) as [->|Hne].
      + rewrite list_lookup_insert_eq by (rewrite length_map; lia).
        rewrite <- Hk. apply Hchar. right.
        rewrite Hok', length_map, Nat.sub_0_r. split; [lia|]. now apply Honly.
      + rewrite list_lookup_insert_ne by congruence.
        rewrite list_lookup_fmap.
        destruct (ok round !! k) as [o|] eqn:Hko.
        2:{ apply lookup_ge_None in Hko. lia. }
        simpl. destruct b; [|reflexivity].
        apply Hchar in Hk as [Hk|[_ Hk]].
        * rewrite Hok', list_lookup_fmap, Hko in Hk. discriminate.
        * rewrite Nat.sub_0_r in Hk. apply Honly in Hk. congruence.
    - apply lookup_ge_None in Hk. symmetry. apply lookup_ge_None.
      rewrite length_insert, length_map. lia. }
  split.
  - unfold WaitingFor. simpl. rewrite Hids.
    rewrite WaitingFor_loop_spec by (rewrite drop_0; fold n; lia).
    rewrite drop_0, Hoks. simpl. f_equal. now apply awaited_all_but.
  - rewrite Hret, drop_0, Hmsgs', length_insert, length_replicate. simpl.
    rewrite take_ge by lia. rewrite Hoks.
    destruct (ok round) as [|o [|o' rest]]; simpl in Hok.
    + lia.
    + destruct i; [|lia]. simpl. split; [intros _; lia|reflexivity].
    + destruct i as [|[|i']]; simpl; (split; [discriminate|]); intros Hn;
        try lia.
Qed.

Lemma round1_Start_then_Update_witness :
  exists round'' ret,
    Round1.Update after_round1 = Ret (round'', ret, None) /\
    WaitingFor round'' = Ret (delete 0%nat [Toy.P0; Toy.P1]) /\
    (ret = true <-> length [Toy.P0; Toy.P1] = 1%nat).
Proof.
  apply (@round1_Start_then_Update Toy.externals Toy.fresh_round after_round1).
  - vm_compute. reflexivity.
  - reflexivity.
  - reflexivity.
Defined.

End RoundOne.

(** ** math/big: how many bytes [Bytes] takes *)

Section BytesLength.
Import BigInt.

Lemma le_digits_length (fuel : nat) :
  forall a, 0 <= a < 256 ^ Z.of_nat fuel ->
  forall n, (length (le_digits fuel a) <= n)%nat <-> a < 256 ^ Z.of_nat n.
Proof.
  induction fuel as [|f IH]; intros a Ha n.
  - simpl in *. assert (a = 0) as -> by lia.
    split; [intros _; apply Z.pow_pos_nonneg; lia|lia].
  - simpl le_digits. destruct (Z.eqb_spec a 0) as [->|Hnz].
    + simpl. split; [intros _; apply Z.pow_pos_nonneg; lia|lia].
    + simpl. rewrite Nat2Z.inj_succ, Z.pow_succ_r in Ha by lia.
      destruct n as [|n].
      * simpl. split; [lia|]. intros H1. lia.
      * rewrite Nat2Z.inj_succ, Z.pow_succ_r by lia.
        assert (Hq : 0 <= a / 256 < 256 ^ Z.of_nat f).
        { split; [apply Z.div_pos; lia|apply Z.div_lt_upper_bound; lia]. }
        specialize (IH _ Hq n).
        assert (a / 256 < 256 ^ Z.of_nat n <-> a < 256 * 256 ^ Z.of_nat n).
        { pose proof (Z.div_mod a 256 ltac:(lia)) as Hdm.
          pose proof (Z.mod_pos_bound a 256 ltac:(lia)) as Hm.
          split; intros Hlt; nia. }
        split; intros Hl.
        -- apply H, IH. lia.
        -- apply H, IH in Hl. lia.
Qed.

Lemma Bytes_length (x : Z) (n : nat) :
  (length (Bytes x) <= n)%nat <-> Z.abs x < 256 ^ Z.of_nat n.
Proof.
  unfold Bytes. cbv zeta. rewrite length_rev.
  apply le_digits_length. split; [lia|]. apply log2_fuel. lia.
Qed.

Lemma SetBytes_zeros (k : nat) (b : bytes) :
  SetBytes (replicate k 0 ++ b) = SetBytes b.
Proof.
  unfold SetBytes. rewrite fold_left_app.
  replace (fold_left (fun acc d => acc * 256 + d) (replicate k 0) 0) with 0;
    [reflexivity|].
  induction k as [|k IH]; [reflexivity|]. simpl. exact IH.
Qed.

Lemma FillBytes_Ret (x : Z) (n : nat) (b : bytes) :
  FillBytes x n = Ret b ->
  length b = n /\ SetBytes b = Z.abs x /\ Z.abs x < 256 ^ Z.of_nat n.
Proof.
  unfold FillBytes. cbv zeta.
  destruct (Nat.leb_spec (length (Bytes x)) n) as [Hle|Hgt]; [|discriminate].
  intros [= <-]. rewrite length_app, length_replicate, SetBytes_zeros.
  split; [lia|]. split; [apply SetBytes_Bytes|]. now apply Bytes_length.
Qed.

Lemma FillBytes_Panic (x : Z) (n : nat) :
  FillBytes x n = Panic <-> 256 ^ Z.of_nat n <= Z.abs x.
Proof.
  unfold FillBytes. cbv zeta.
  pose proof (Bytes_length x n) as Hb.
  destruct (Nat.leb_spec (length (Bytes x)) n) as [Hle|Hgt].
  - split; [discriminate|]. intros Hx. apply Hb in Hle. lia.
  - split; [|reflexivity]. intros _.
    destruct (Z.le_gt_cases (256 ^ Z.of_nat n) (Z.abs x)) as [|Hlt];
      [assumption|]. apply Hb in Hlt. lia.
Qed.

End BytesLength.

(** ** Finalization: bookkeeping, panics and repeated calls *)

Section FinalizationBookkeeping.
Import Crypto Signing.
Context `{Externals}.

(** Slot [j] of [signRound3Messages] holds a round-3 message. *)
Definition has_share (msgs : list (option ParsedMessage)) (j : nat) : Prop :=
  exists msg r3, msgs !! j = Some (Some msg) /\ Content msg = Round3Content r3.

Lemma sum_fold_Panic (self : Z) (msgs : list (option ParsedMessage))
    (js : list nat) :
  fold_left (Finalize.sum_step self msgs) js Panic = Panic.
Proof. induction js as [|j js IH]; [reflexivity|exact IH]. Qed.

Lemma sum_step_Ret (self : Z) (msgs : list (option ParsedMessage))
    (oks oks1 : list bool) (sumS sumS1 : BigInt.bytes) (j : nat) :
  Finalize.sum_step self msgs (Ret (oks, sumS)) j = Ret (oks1, sumS1) ->
  (j < length oks)%nat /\ oks1 = <[j := true]> oks /\
  (Z.of_nat j <> self -> has_share msgs j).
Proof.
  unfold Finalize.sum_step. simpl.
  destruct (Nat.leb_spec (length oks) j) as [|Hj]; [discriminate|].
  destruct (Z.eqb_spec (Z.of_nat j) self) as [Hself|Hself].
  - intros [= <- <-]. repeat split; [assumption|]. congruence.
  - intros Hrun. step Hrun msg Hmsg. apply deref_Ret in Hmsg.
    destruct (Content msg) as [| |r3] eqn:Hc; try discriminate.
    inversion Hrun; subst. repeat split; [assumption|]. intros _.
    exists msg, r3. split; [|assumption].
    destruct (msgs !! j) as [[m0|]|]; simpl in Hmsg; congruence.
Qed.

Lemma sum_step_total (self : Z) (msgs : list (option ParsedMessage))
    (oks : list bool) (sumS : BigInt.bytes) (j : nat) :
  (j < length oks)%nat ->
  (Z.of_nat j <> self -> has_share msgs j) ->
  exists sumS1,
    Finalize.sum_step self msgs (Ret (oks, sumS)) j
    = Ret (<[j := true]> oks, sumS1).
Proof.
  intros Hj Hshare. unfold Finalize.sum_step. simpl.
  destruct (Nat.leb_spec (length oks) j) as [|_]; [lia|].
  destruct (Z.eqb_spec (Z.of_nat j) self) as [Hself|Hself].
  - now eexists.
  - destruct (Hshare Hself) as (msg & r3 & Hmsg & Hc).
    rewrite Hmsg. simpl. rewrite Hc. now eexists.
Qed.

Lemma sum_fold_Ret (self : Z) (msgs : list (option ParsedMessage)) :
  forall js oks sumS oks' sumS',
    fold_left (Finalize.sum_step self msgs) js (Ret (oks, sumS))
    = Ret (oks', sumS') ->
    (forall j, j ∈ js ->
       (j < length oks)%nat /\ (Z.of_nat j <> self -> has_share msgs j)) /\
    length oks' = length oks /\
    (forall k, oks' !! k = Some true
               <-> oks !! k = Some true \/ (k ∈ js /\ (k < length oks)%nat)).
Proof.
  induction js as [|j js IH]; intros oks sumS oks' sumS' Hrun.
  - simpl in Hrun. inversion Hrun; subst. repeat split.
    + now apply elem_of_nil in H0.
    + now apply elem_of_nil in H0.
    + now left.
    + intros [?|[Hk _]]; [assumption|]. now apply elem_of_nil in Hk.
  - cbn [fold_left] in Hrun.
    destruct (Finalize.sum_step self msgs (Ret (oks, sumS)) j)
      as [[oks1 sumS1]|] eqn:Hstep.
    2:{ rewrite sum_fold_Panic in Hrun. discriminate. }
    apply sum_step_Ret in Hstep as (Hj & -> & Hshare).
    apply IH in Hrun as (Hall & Hlen & Hchar).
    rewrite length_insert in Hall, Hlen, Hchar.
    repeat split.
    + apply elem_of_cons in H0 as [->|Hin]; [assumption|]. now apply Hall.
    + apply elem_of_cons in H0 as [->|Hin]; [assumption|]. now apply Hall.
    + assumption.
    + rewrite Hchar, list_lookup_insert_Some.
      intros [[(-> & _ & _)|[_ ?]]|[Hk Hlt]].
      * right. split; [apply elem_of_cons; now left|assumption].
      * now left.
      * right. split; [apply elem_of_cons; now right|assumption].
    + rewrite Hchar, list_lookup_insert_Some.
      intros [Hk|[Hk Hlt]].
      * left. destruct (decide (j = k)) as [->|Hne]; [|right; now split].
        left. repeat split. assumption.
      * apply elem_of_cons in Hk as [->|Hin].
        -- left. left. repeat split. assumption.
        -- right. now split.
Qed.

Lemma sum_fold_total (self : Z) (msgs : list (option ParsedMessage)) :
  forall js oks sumS,
    (forall j, j ∈ js ->
       (j < length oks)%nat /\ (Z.of_nat j <> self -> has_share msgs j)) ->
    exists r,
      fold_left (Finalize.sum_step self msgs) js (Ret (oks, sumS)) = Ret r.
Proof.
  induction js as [|j js IH]; intros oks sumS Hall.
  - now eexists.
  - destruct (Hall j ltac:(apply elem_of_cons; now left)) as [Hj Hshare].
    destruct (sum_step_total self msgs oks sumS j Hj Hshare) as [sumS1 Hstep].
    cbn [fold_left]. rewrite Hstep. apply IH. intros k Hk.
    rewrite length_insert.
    apply Hall. apply elem_of_cons. now right.
Qed.

(** What makes the summation loop of [finalization.Start] panic: the
    party's own share [si] is nil, [ok] has fewer entries than there are
    parties, or some peer's slot of [signRound3Messages] is missing, nil
    or not a round-3 message. *)
Definition share_missing (round : base) : Prop :=
  si (temp round) = None \/
  (length (ok round) < length (Tss.IDs (params round)))%nat \/
  exists j, (j < length (Tss.IDs (params round)))%nat /\
            Z.of_nat j <> Tss.Index (Tss.partyID (params round)) /\
            ~ has_share (signRound3Messages (temp round)) j.

Lemma has_share_dec (msgs : list (option ParsedMessage)) (j : nat) :
  has_share msgs j \/ ~ has_share msgs j.
Proof.
  unfold has_share.
  destruct (msgs !! j) as [[msg|]|] eqn:Hm.
  - destruct (Content msg) as [| |r3] eqn:Hc.
    + right. intros (m0 & r3 & [= <-] & Hc'). congruence.
    + right. intros (m0 & r3 & [= <-] & Hc'). congruence.
    + left. now exists msg, r3.
  - right. intros (m0 & r3 & Hm0 & _). discriminate.
  - right. intros (m0 & r3 & Hm0 & _). discriminate.
Qed.

Lemma all_or_one_missing (self : Z) (msgs : list (option ParsedMessage))
    (n : nat) :
  (forall j, (j < n)%nat -> Z.of_nat j <> self -> has_share msgs j) \/
  (exists j, (j < n)%nat /\ Z.of_nat j <> self /\ ~ has_share msgs j).
Proof.
  induction n as [|n [IH|(j & Hj & Hs & Hno)]].
  - left. intros j Hj. lia.
  - destruct (Z.eq_dec (Z.of_nat n) self) as [Heq|Hne].
    + left. intros j Hj Hs. destruct (decide (j = n)) as [->|]; [congruence|].
      apply IH; [lia|assumption].
    + destruct (has_share_dec msgs n) as [Hyes|Hno].
      * left. intros j Hj Hs. destruct (decide (j = n)) as [->|];
          [assumption|]. apply IH; [lia|assumption].
      * right. exists n. repeat split; [lia|assumption|assumption].
  - right. exists j. repeat split; [lia|assumption|assumption].
Qed.

Lemma sum_and_save_Panic_iff (round : base) :
  Finalize.sum_and_save round = Panic <-> share_missing round.
Proof.
  unfold Finalize.sum_and_save, Finalize.sum_loop, share_missing. simpl.
  set (self := Tss.Index (Tss.partyID (params round))).
  set (msgs := signRound3Messages (temp round)).
  set (n := length (Tss.IDs (params round))).
  destruct (si (temp round)) as [sumS|]; simpl.
  2:{ split; [now left|reflexivity]. }
  destruct (fold_left _ _ _) as [[oks' sumS']|] eqn:Hfold; simpl.
  - split; [discriminate|].
    apply sum_fold_Ret in Hfold as (Hall & _ & _).
    rewrite length_map in Hall.
    intros [Hsi|[Hlen|(j & Hj & Hs & Hno)]]; [discriminate| |].
    + destruct n as [|n']; [lia|].
      destruct (Hall n' ltac:(apply elem_of_seq; lia)) as [Hlt _]. lia.
    + destruct (Hall j ltac:(apply elem_of_seq; lia)) as [_ Hshare]. tauto.
  - split; [|reflexivity]. intros _. right.
    destruct (Nat.lt_ge_cases (length (ok round)) n) as [|Hge]; [now left|].
    right.
    destruct (all_or_one_missing self msgs n) as [Hall|Hone]; [|exact Hone].
    exfalso.
    destruct (sum_fold_total self msgs (seq 0 n)
                (map (fun _ => false) (ok round)) sumS) as [r Hr].
    + intros j Hj. apply elem_of_seq in Hj. rewrite length_map.
      split; [lia|]. apply Hall. lia.
    + rewrite Hr in Hfold. discriminate.
Qed.

Lemma forallb_all_lookup (l : list bool) :
  forallb (fun o => o) l = true
  <-> forall k, (k < length l)%nat -> l !! k = Some true.
Proof.
  rewrite <- (forallb_take_lookup (length l) l) by lia.
  now rewrite firstn_all.
Qed.

Lemma sum_and_save_marks (round round1 : base) (s : Z) :
  Finalize.sum_and_save round = Ret (round1, s) ->
  started round1 = true /\
  length (ok round1) = length (ok round) /\
  (forall k, ok round1 !! k = Some true
             <-> (k < length (Tss.IDs (params round)))%nat).
Proof.
  unfold Finalize.sum_and_save, Finalize.sum_loop. simpl. intros Hrun.
  apply res_bind_Ret in Hrun as ([oks' sumS'] & Hloop & Hrun).
  inversion Hrun; subst round1 s; clear Hrun. simpl.
  step Hloop sumS Hsi.
  apply sum_fold_Ret in Hloop as (Hall & Hlen & Hchar).
  rewrite length_map in Hall, Hlen, Hchar.
  repeat split; [assumption| |].
  - rewrite Hchar. intros [Hk|[Hk _]].
    + rewrite list_lookup_fmap in Hk.
      destruct (ok round !! k); discriminate.
    + apply elem_of_seq in Hk. lia.
  - intros Hk. apply Hchar. right.
    assert (Hin : k ∈ seq 0 (length (Tss.IDs (params round))))
      by (apply elem_of_seq; lia).
    split; [assumption|]. now apply Hall.
Qed.

(** A run of either finalization that returns ends in the round the
    shared statements built, possibly with [M] set and the data sent. *)
Lemma Start_shape (round round' : base) (err : option Tss.error) :
  started round = false ->
  Finalize.finalization_Start round = Ret (round', err) \/
  FinalizePart001.finalization_Start round = Ret (round', err) ->
  exists round1 s,
    Finalize.sum_and_save round = Ret (round1, s) /\
    (round' = round1 \/
     exists mb, round' = Finalize.set_M mb round1 \/
                round' = send_end (Finalize.set_M mb round1)).
Proof.
  intros Hns [Hrun|Hrun].
  - unfold Finalize.finalization_Start in Hrun. rewrite Hns in Hrun.
    apply res_bind_Ret in Hrun as ([round1 s] & Hsum & Hrun).
    exists round1, s. split; [exact Hsum|].
    step Hrun padded Hpad.
    destruct (poseidon_HashBytes padded) as [h|].
    + step Hrun pub Hpub. step Hrun pkX Hx. step Hrun pkY Hy.
      destruct (negb _); inversion Hrun; right; eexists; eauto.
    + inversion Hrun. now left.
  - unfold FinalizePart001.finalization_Start in Hrun. rewrite Hns in Hrun.
    apply res_bind_Ret in Hrun as ([round1 s] & Hsum & Hrun).
    exists round1, s. split; [exact Hsum|].
    step Hrun MBytes HM.
    step Hrun pub Hpub. step Hrun pkX Hx. step Hrun pkY Hy.
    destruct (FinalizePart001.challenge _ _ _ _) as [h|].
    + destruct (edwards_ParsePubKey _) as [RPoint|].
      * destruct (negb _); inversion Hrun; right; eexists; eauto.
      * inversion Hrun. right; eexists; eauto.
    + inversion Hrun. right; eexists; eauto.
Qed.

(** X9. Either finalization panics in its summation loop exactly when a
    share is missing: the party's own [si] is nil, [ok] has fewer entries
    than there are parties, or the slot of some peer in
    [signRound3Messages] is out of range, nil or not a round-3 message.
    Started on such a round, [Start] panics in both files. *)
Theorem finalization_panics_iff_share_missing (round : base) :
  (Finalize.sum_and_save round = Panic <-> share_missing round) /\
  (started round = false -> share_missing round ->
   Finalize.finalization_Start round = Panic /\
   FinalizePart001.finalization_Start round = Panic).
Proof.
  split; [apply sum_and_save_Panic_iff|].
  intros Hns Hmiss. apply sum_and_save_Panic_iff in Hmiss.
  unfold Finalize.finalization_Start, FinalizePart001.finalization_Start.
  rewrite Hns, Hmiss. now split.
Qed.

(** X10. A finalization that returns, with or without an error, leaves
    the round started, numbered 4, with the [ok] entry of every party set
    (so a round with one entry per party can proceed and waits for
    nobody), and with the summed signature, [R] and [S] written to
    [round.data]: a failed verification rolls nothing back. *)
Theorem finalization_leaves_round_complete (round round' : base)
    (err : option Tss.error) :
  started round = false ->
  Finalize.finalization_Start round = Ret (round', err) \/
  FinalizePart001.finalization_Start round = Ret (round', err) ->
  started round' = true /\ number round' = 4 /\
  (forall k, ok round' !! k = Some true
             <-> (k < length (Tss.IDs (params round)))%nat) /\
  (length (ok round) = length (Tss.IDs (params round)) ->
   CanProceed round' = true /\ WaitingFor round' = Ret []) /\
  exists sumS,
    Signature (data round')
      = bigIntToEncodedBytes (r (temp round)) ++ sumS /\
    SigR (data round') = BigInt.Bytes (r (temp round)) /\
    SigS (data round') = BigInt.Bytes (encodedBytesToBigInt sumS).
Proof.
  intros Hns Hrun.
  destruct (Start_shape _ _ _ Hns Hrun) as (round1 & s & Hsum & Hshape).
  destruct (sum_and_save_marks _ _ _ Hsum) as (Hst & Hlen & Hok).
  destruct (sum_and_save_frame _ _ _ Hsum)
    as (Hp & _ & _ & _ & Hn & sumS & -> & Hsig & HR & HS).
  assert (Hsame : started round' = started round1 /\
                  number round' = number round1 /\
                  ok round' = ok round1 /\
                  params round' = params round1 /\
                  Signature (data round') = Signature (data round1) /\
                  SigR (data round') = SigR (data round1) /\
                  SigS (data round') = SigS (data round1)).
  { destruct Hshape as [->|[mb [->| ->]]]; repeat split. }
  destruct Hsame as (E1 & E2 & Hoks & Hps & E3 & E4 & E5).
  unfold CanProceed, WaitingFor.
  rewrite E1, E2, Hoks, E3, E4, E5.
  split; [assumption|]. split; [assumption|]. split; [assumption|].
  split; [intros Hn'; split|].
  - rewrite Hst. simpl.
    apply forallb_all_lookup. intros k Hk. apply Hok. lia.
  - apply WaitingFor_loop_nil. split; [reflexivity|].
    apply forallb_all_lookup. intros k Hk. apply Hok. lia.
  - exists sumS. now repeat split.
Qed.

Lemma Start_started (round round' : base) (err : option Tss.error) :
  Finalize.finalization_Start round = Ret (round', err) \/
  FinalizePart001.finalization_Start round = Ret (round', err) ->
  started round' = true.
Proof.
  intros Hrun. destruct (started round) eqn:Hs.
  - unfold Finalize.finalization_Start, FinalizePart001.finalization_Start
      in Hrun.
    rewrite Hs in Hrun. unfold Finalize.already_started in Hrun.
    destruct Hrun as [Hrun|Hrun]; inversion Hrun; now subst.
  - destruct (Start_shape _ _ _ Hs Hrun) as (round1 & s & Hsum & Hshape).
    destruct (sum_and_save_marks _ _ _ Hsum) as (Hst & _).
    destruct Hshape as [->|[mb [->| ->]]]; exact Hst.
Qed.

(** X11. Either finalization delivers at most once: after a call that
    returned, whatever its outcome, a further call of [Start] (of either
    file) returns the "round already started" error and leaves the round
    and the [end] channel as they are. *)
Theorem finalization_Start_at_most_once (round round' : base)
    (err : option Tss.error) :
  Finalize.finalization_Start round = Ret (round', err) \/
  FinalizePart001.finalization_Start round = Ret (round', err) ->
  Finalize.finalization_Start round'
    = Ret (round',
           Some (WrapError round' (Tss.New "round already started") [])) /\
  FinalizePart001.finalization_Start round'
    = Ret (round',
           Some (WrapError round' (Tss.New "round already started") [])).
Proof.
  intros Hrun. apply Start_started in Hrun.
  unfold Finalize.finalization_Start, FinalizePart001.finalization_Start.
  rewrite Hrun. now split.
Qed.

(** X12. A message that does not fit the buffer makes [Start] panic
    instead of returning an error: in eddsa/signing/finalize.go as soon
    as [|m| >= 2^256] (the copy into the 32-byte [paddedMsg]), in
    unnamed/part_001 as soon as [fullBytesLen] is not zero and
    [|m| >= 256^fullBytesLen] ([FillBytes]). *)
Theorem finalization_message_too_long (round : base) :
  started round = false ->
  (256 ^ 32 <= Z.abs (m (temp round)) ->
   Finalize.finalization_Start round = Panic) /\
  (fullBytesLen (temp round) <> 0%nat ->
   256 ^ Z.of_nat (fullBytesLen (temp round)) <= Z.abs (m (temp round)) ->
   FinalizePart001.finalization_Start round = Panic).
Proof.
  intros Hns.
  unfold Finalize.finalization_Start, FinalizePart001.finalization_Start.
  rewrite Hns.
  destruct (Finalize.sum_and_save round) as [[round1 s]|] eqn:Hsum;
    [|now split].
  destruct (sum_and_save_frame _ _ _ Hsum) as (_ & _ & Ht & _).
  simpl. rewrite Ht. split.
  - intros Hm. apply (FillBytes_Panic _ 32) in Hm. now rewrite Hm.
  - intros Hnz Hm. apply FillBytes_Panic in Hm.
    destruct (Nat.eqb_spec (fullBytesLen (temp round)) 0) as [|_];
      [contradiction|].
    now rewrite Hm.
Qed.

(** X13. The [M] that the finalization of unnamed/part_001 delivers is
    the message itself: read back as a big-endian number it is [|m|]; it
    has exactly [fullBytesLen] bytes when that is not zero, and is
    [m.Bytes()] otherwise. *)
Theorem finalization_part001_M (round round' : base) :
  started round = false ->
  FinalizePart001.finalization_Start round = Ret (round', None) ->
  BigInt.SetBytes (SigM (data round')) = Z.abs (m (temp round)) /\
  (fullBytesLen (temp round) <> 0%nat ->
   length (SigM (data round')) = fullBytesLen (temp round)) /\
  (fullBytesLen (temp round) = 0%nat ->
   SigM (data round') = BigInt.Bytes (m (temp round))) /\
  end_ch round' = end_ch round ++ [data round'].
Proof.
  intros Hns Hrun.
  destruct (FinalizePart001_Start_cases _ _ _ Hns Hrun)
    as (round1 & s & _ & [(_ & _ & Hend & _ & HM)|(_ & _ & e & He)]);
    [|discriminate].
  unfold MBytes_of in HM.
  destruct (Nat.eqb_spec (fullBytesLen (temp round)) 0) as [Hz|Hnz].
  - injection HM as HM'. rewrite <- HM'.
    split; [apply SetBytes_Bytes|]. split; [contradiction|].
    split; [reflexivity|assumption].
  - apply FillBytes_Ret in HM as (Hlen & Hval & _).
    split; [assumption|]. split; [intros _; assumption|].
    split; [contradiction|assumption].
Qed.

End FinalizationBookkeeping.

Section FinalizationBookkeepingExamples.
Import Crypto Signing.

(** The miniature round after a finalization whose check failed. *)
Definition rejected_round : base :=
  Finalize.set_M [201] (Toy.summed_round 1 2).

Lemma rejected_round_run :
  @Finalize.finalization_Start Toy.externals (Toy.final_round 1 2)
  = Ret (Finalize.verification_failed rejected_round).
Proof. vm_compute. reflexivity. Qed.

Lemma finalization_leaves_round_complete_witness :
  started rejected_round = true /\ number rejected_round = 4 /\
  (forall k, ok rejected_round !! k = Some true
             <-> (k < length [Toy.P0; Toy.P1])%nat) /\
  (length (ok (Toy.final_round 1 2)) = length [Toy.P0; Toy.P1] ->
   CanProceed rejected_round = true /\ WaitingFor rejected_round = Ret []) /\
  exists sumS,
    Signature (data rejected_round)
      = @bigIntToEncodedBytes Toy.externals 2 ++ sumS /\
    SigR (data rejected_round) = BigInt.Bytes 2 /\
    SigS (data rejected_round)
      = BigInt.Bytes (@encodedBytesToBigInt Toy.externals sumS).
Proof.
  apply (@finalization_leaves_round_complete Toy.externals
           (Toy.final_round 1 2) rejected_round
           (Finalize.verification_failed rejected_round).2).
  - reflexivity.
  - left. vm_compute. reflexivity.
Defined.

Lemma finalization_Start_at_most_once_witness :
  @Finalize.finalization_Start Toy.externals rejected_round
    = Ret (rejected_round,
           Some (WrapError rejected_round
                   (Tss.New "round already started") [])) /\
  @FinalizePart001.finalization_Start Toy.externals rejected_round
    = Ret (rejected_round,
           Some (WrapError rejected_round
                   (Tss.New "round already started") [])).
Proof.
  apply (@finalization_Start_at_most_once Toy.externals
           (Toy.final_round 1 2) rejected_round
           (Finalize.verification_failed rejected_round).2).
  left. vm_compute. reflexivity.
Defined.

(** The miniature round with a 33-byte message. *)
Definition long_message_round : base :=
  set_temp (fun t =>
    {| signRound1Messages := signRound1Messages t;
       signRound3Messages := signRound3Messages t; m := 256 ^ 32;
       fullBytesLen := 32; deCommit := deCommit t; si := si t;
       r := r t; ssid := ssid t; ssidNonce := ssidNonce t |})
    (Toy.final_round 1 5).

Lemma finalization_message_too_long_witness :
  @Finalize.finalization_Start Toy.externals long_message_round = Panic /\
  @FinalizePart001.finalization_Start Toy.externals long_message_round
    = Panic.
Proof.
  destruct (@finalization_message_too_long Toy.externals long_message_round
              eq_refl) as [H1 H2].
  split.
  - apply H1. vm_compute. discriminate.
  - apply H2; [discriminate|]. vm_compute. discriminate.
Defined.

Lemma finalization_part001_M_witness :
  BigInt.SetBytes [200] = Z.abs 200 /\
  (0%nat <> 0%nat -> length [200] = 0%nat) /\
  (0%nat = 0%nat -> [200] = BigInt.Bytes 200) /\
  @nil SignatureData ++ [data (Finalize.set_M [200] (Toy.summed_round 3 5))]
    = [] ++ [data (send_end (Finalize.set_M [200] (Toy.summed_round 3 5)))].
Proof.
  apply (@finalization_part001_M Toy.externals (Toy.final_round 3 5)
           (send_end (Finalize.set_M [200] (Toy.summed_round 3 5)))).
  - reflexivity.
  - vm_compute. reflexivity.
Defined.

End FinalizationBookkeepingExamples.

(** ** ECPoint: flattening, unflattening and the checked constructors *)

Section ECPointFacts.
Import Crypto CryptoOps ECPointOps.

(** The coordinates of a list of points, two entries a point. *)
Fixpoint flat_coords (xys : list (Z * Z)) : list Z :=
  match xys with
  | [] => []
  | (x, y) :: rest => x :: y :: flat_coords rest
  end.

Definition point_at (c : Curve) (xy : Z * Z) : ECPoint :=
  {| curve := c; coords := (Some (fst xy), Some (snd xy)) |}.

Lemma length_flat_coords (xys : list (Z * Z)) :
  length (flat_coords xys) = (2 * length xys)%nat.
Proof. induction xys as [|[x y] rest IH]; simpl; lia. Qed.

Lemma pair_ind {A} (P : list A -> Prop) :
  P [] -> (forall x, P [x]) -> (forall x y l, P l -> P (x :: y :: l)) ->
  forall l, P l.
Proof.
  intros H0 H1 H2 l.
  enough (P l /\ forall x, P (x :: l)) by tauto.
  induction l as [|a l [IH1 IH2]]; split; auto.
Qed.

Lemma mod2_SS (n : nat) : (Datatypes.S (Datatypes.S n) mod 2 = n mod 2)%nat.
Proof.
  replace (Datatypes.S (Datatypes.S n)) with (n + 1 * 2)%nat by lia.
  apply Nat.Div0.mod_add.
Qed.

Lemma flatten_loop_spec (points : list (option ECPoint)) :
  forall acc flat,
    flatten_loop points acc = inl flat
    <-> exists xys,
          Forall2 (fun op xy => exists p, op = Some p /\
                      coords p = (Some (fst xy), Some (snd xy)))
                  points xys /\
          flat = acc ++ flat_coords xys.
Proof.
  induction points as [|op rest IH]; intros acc flat.
  - simpl. split.
    + intros [= <-]. exists []. split; [constructor|]. now rewrite app_nil_r.
    + intros (xys & Hall & ->). inversion Hall; subst. simpl.
      now rewrite app_nil_r.
  - split.
    + intros Hrun. simpl in Hrun.
      destruct op as [[c [[x|] [y|]]]|]; try discriminate.
      apply IH in Hrun as (xys & Hall & ->).
      exists ((x, y) :: xys). split.
      * constructor; [|assumption]. now eexists.
      * simpl. now rewrite <- app_assoc.
    + intros (xys & Hall & ->).
      inversion Hall as [|? [x y] ? xys' (p & -> & Hp) Hrest]; subst.
      simpl in Hp. destruct p as [c cs]. simpl in Hp. subst cs. simpl.
      apply IH. exists xys'. split; [assumption|].
      simpl. now rewrite <- app_assoc.
Qed.

Lemma unflatten_loop_spec (c : Curve) (check : bool) :
  forall input unFlat,
    (length input mod 2 = 0)%nat ->
    unflatten_loop c check input = inl unFlat ->
    existsb nil_coordinate unFlat = false ->
    exists xys,
      input = map Some (flat_coords xys) /\
      unFlat = map (point_at c) xys /\
      (check = true ->
       Forall (fun xy => IsOnCurve c (fst xy) (snd xy) = true) xys).
Proof.
  intros input. induction input as [|x|x y rest IH] using pair_ind;
    intros unFlat Hlen Hrun Hnil.
  - simpl in Hrun. inversion Hrun; subst. exists []. repeat split.
    intros _. constructor.
  - simpl in Hlen. discriminate.
  - simpl length in Hlen. rewrite mod2_SS in Hlen.
    simpl in Hrun.
    assert (Hnext : forall p,
      match unflatten_loop c check rest with
      | inl unFlat => inl (p :: unFlat)
      | inr err => inr err
      end = inl unFlat ->
      coords p = (x, y) -> curve p = c ->
      (check = true -> isOnCurve c x y = true) ->
      exists xys,
        x :: y :: rest = map Some (flat_coords xys) /\
        unFlat = map (point_at c) xys /\
        (check = true ->
         Forall (fun xy => IsOnCurve c (fst xy) (snd xy) = true) xys)).
    { intros p Hp Hcs Hc Hon.
      destruct (unflatten_loop c check rest) as [unFlat'|] eqn:Hrest;
        [|discriminate].
      inversion Hp; subst unFlat; clear Hp. simpl in Hnil.
      apply orb_false_iff in Hnil as [Hnp Hnil].
      destruct (IH _ Hlen eq_refl Hnil) as (xys & -> & -> & Hall).
      unfold nil_coordinate in Hnp. rewrite Hcs in Hnp.
      destruct x as [x|]; [|discriminate]. destruct y as [y|]; [|discriminate].
      exists ((x, y) :: xys). repeat split.
      - destruct p as [pc pcs]. simpl in *. now subst.
      - intros Hck. constructor; [exact (Hon Hck)|exact (Hall Hck)]. }
    destruct check.
    + unfold NewECPoint in Hrun.
      destruct (isOnCurve c x y) eqn:Hon; simpl in Hrun; [|discriminate].
      now apply (Hnext _ Hrun).
    + apply (Hnext _ Hrun); try reflexivity. discriminate.
Qed.

Lemma unflatten_loop_flat (c : Curve) (check : bool) (xys : list (Z * Z)) :
  (check = true ->
   Forall (fun xy => IsOnCurve c (fst xy) (snd xy) = true) xys) ->
  unflatten_loop c check (map Some (flat_coords xys))
  = inl (map (point_at c) xys).
Proof.
  induction xys as [|[x y] rest IH]; intros Hon; [reflexivity|].
  simpl. rewrite IH.
  2:{ intros Hck. specialize (Hon Hck). now inversion Hon. }
  destruct check; [|reflexivity].
  unfold NewECPoint. simpl.
  specialize (Hon eq_refl). inversion Hon as [|? ? Hxy _]; subst.
  simpl in Hxy. now rewrite Hxy.
Qed.

Lemma no_nil_coordinate (c : Curve) (xys : list (Z * Z)) :
  existsb nil_coordinate (map (point_at c) xys) = false.
Proof. induction xys as [|[x y] rest IH]; [reflexivity|exact IH]. Qed.

Lemma unflatten_loop_checked (c : Curve) (xys : list (Z * Z))
    (unFlat : list ECPoint) :
  unflatten_loop c true (map Some (flat_coords xys)) = inl unFlat ->
  Forall (fun xy => IsOnCurve c (fst xy) (snd xy) = true) xys.
Proof.
  revert unFlat. induction xys as [|[x y] rest IH]; intros unFlat Hrun;
    [constructor|].
  simpl in Hrun. unfold NewECPoint in Hrun. simpl in Hrun.
  destruct (IsOnCurve c x y) eqn:Hon; simpl in Hrun; [|discriminate].
  destruct (unflatten_loop c true _) as [r|] eqn:Hrest; [|discriminate].
  constructor; [exact Hon|]. now apply (IH r).
Qed.

Lemma flattened_points (c : Curve) (points : list (option ECPoint))
    (xys : list (Z * Z)) :
  Forall2 (fun op xy => exists p, op = Some p /\
              coords p = (Some (fst xy), Some (snd xy))) points xys ->
  exists ps,
    points = map Some ps /\ length ps = length xys /\
    map (SetCurve c) ps = map (point_at c) xys /\
    (Forall (fun p => ECPoint_IsOnCurve (SetCurve c p) = true) ps
     <-> Forall (fun xy => IsOnCurve c (fst xy) (snd xy) = true) xys).
Proof.
  induction 1 as [|op [x y] points xys (p & -> & Hp) _ (ps & -> & Hl & Hm & Hon)].
  - exists []. repeat split; constructor.
  - exists (p :: ps). simpl in *.
    assert (Hpt : SetCurve c p = point_at c (x, y)).
    { unfold SetCurve, point_at. now rewrite Hp. }
    repeat split.
    + now rewrite Hl.
    + now rewrite Hpt, Hm.
    + intros Hall. inversion Hall as [|? ? Hh Ht]; subst.
      rewrite Hpt in Hh. constructor; [exact Hh|now apply Hon].
    + intros Hall. inversion Hall as [|? ? Hh Ht]; subst.
      constructor; [rewrite Hpt; exact Hh|now apply Hon].
Qed.

Lemma even_flat (xys : list (Z * Z)) :
  (length (map Some (flat_coords xys)) mod 2 =? 0)%nat = true.
Proof.
  rewrite length_map, length_flat_coords. apply Nat.eqb_eq.
  rewrite Nat.mul_comm. apply Nat.Div0.mod_mul.
Qed.

(** X14. What [UnFlattenECPoints] returns, [FlattenECPoints] takes back
    to the input: on success the input was a non-nil slice of non-nil
    numbers, two for each point returned; every point carries the curve
    passed in and both coordinates; and unless the caller switched the
    check off, every point passes [ValidateBasic]. *)
Theorem UnFlatten_then_Flatten (c : Curve) (input : option (list (option Z)))
    (noCurveCheck : list bool) (unFlat : list ECPoint) :
  UnFlattenECPoints c input noCurveCheck = inl unFlat ->
  exists flat,
    input = Some (map Some flat) /\
    length flat = (2 * length unFlat)%nat /\
    FlattenECPoints (Some (map Some unFlat)) = inl flat /\
    Forall (fun p => curve p = c) unFlat /\
    (head noCurveCheck <> Some true ->
     Forall (fun p => ValidateBasic (Some p) = true) unFlat).
Proof.
  unfold UnFlattenECPoints. intros Hrun.
  destruct input as [l|]; [|discriminate].
  destruct (Nat.eqb_spec (length l mod 2) 0) as [Hlen|]; [|discriminate].
  simpl in Hrun.
  set (check := match noCurveCheck with [] => true | b :: _ => negb b end)
    in Hrun.
  destruct (unflatten_loop c check l) as [r|] eqn:Hloop; [|discriminate].
  destruct (existsb nil_coordinate r) eqn:Hnil; [discriminate|].
  inversion Hrun; subst r; clear Hrun.
  destruct (unflatten_loop_spec c check l unFlat Hlen Hloop Hnil)
    as (xys & -> & -> & Hon).
  exists (flat_coords xys).
  split; [reflexivity|].
  split; [now rewrite length_flat_coords, length_map|].
  split.
  { unfold FlattenECPoints. apply flatten_loop_spec. exists xys.
    split; [|reflexivity].
    clear. induction xys as [|[x y] rest IH]; constructor; [|exact IH].
    now eexists. }
  split.
  { apply Forall_forall. intros p Hp.
    apply list_elem_of_fmap in Hp as (xy & -> & _). reflexivity. }
  intros Hck.
  assert (Hcheck : check = true).
  { unfold check. destruct noCurveCheck as [|[] ?]; simpl in *;
      [reflexivity|congruence|reflexivity]. }
  specialize (Hon Hcheck).
  apply Forall_forall. intros p Hp.
  apply list_elem_of_fmap in Hp as ([x y] & -> & Hin).
  rewrite Forall_forall in Hon. exact (Hon _ Hin).
Qed.

(** X15. What [FlattenECPoints] returns, [UnFlattenECPoints] takes back
    to the points, rebound to the curve passed in: flattening succeeds
    only on a non-nil slice of non-nil points and gives two numbers a
    point; unflattening that list without the curve check returns the
    same points on the new curve, and with the check it does so exactly
    when every point is on that curve. *)
Theorem Flatten_then_UnFlatten (c : Curve)
    (input : option (list (option ECPoint))) (flat : list Z) :
  FlattenECPoints input = inl flat ->
  exists ps,
    input = Some (map Some ps) /\
    length flat = (2 * length ps)%nat /\
    UnFlattenECPoints c (Some (map Some flat)) [true]
      = inl (map (SetCurve c) ps) /\
    (UnFlattenECPoints c (Some (map Some flat)) []
       = inl (map (SetCurve c) ps)
     <-> Forall (fun p => ECPoint_IsOnCurve (SetCurve c p) = true) ps).
Proof.
  unfold FlattenECPoints. intros Hrun.
  destruct input as [points|]; [|discriminate].
  apply flatten_loop_spec in Hrun as (xys & Hall & ->). rewrite app_nil_l.
  destruct (flattened_points c _ _ Hall) as (ps & -> & Hl & Hm & Hon).
  exists ps. split; [reflexivity|].
  split; [rewrite length_flat_coords; lia|].
  unfold UnFlattenECPoints. rewrite even_flat. simpl. rewrite Hm.
  split.
  - rewrite unflatten_loop_flat by discriminate.
    now rewrite no_nil_coordinate.
  - rewrite Hon. split.
    + intros Hrun.
      destruct (unflatten_loop c true _) as [r|] eqn:Hloop; [|discriminate].
      now apply unflatten_loop_checked in Hloop.
    + intros Hcurve. rewrite unflatten_loop_flat by (intros _; exact Hcurve).
      now rewrite no_nil_coordinate.
Qed.

Lemma NewECPoint_inl (c : Curve) (x y : option Z) (q : ECPoint) :
  NewECPoint c x y = inl q ->
  ValidateBasic (Some q) = true /\ curve q = c /\ coords q = (x, y).
Proof.
  unfold NewECPoint. destruct (isOnCurve c x y) eqn:Hon; [|discriminate].
  intros [= <-]. unfold ValidateBasic, ECPoint_IsOnCurve. simpl.
  destruct x as [x|]; [|discriminate]. destruct y as [y|]; [|discriminate].
  now rewrite Hon.
Qed.

(** X16. The constructors that check never hand out a point off its
    curve: whatever [NewECPoint], [(p).Add], [(p).ScalarMult] and
    [crypto.ScalarBaseMult] return without error or panic passes
    [ValidateBasic]; [Add] and [ScalarMult] bind the result to the
    receiver's curve, whatever curve the argument of [Add] is on. *)
Theorem checked_constructors_validate `{Externals} (c : Curve)
    (p p1 q : ECPoint) (k : Z) :
  (forall x y, NewECPoint c x y = inl q ->
     ValidateBasic (Some q) = true /\ curve q = c /\ coords q = (x, y)) /\
  (ECPointOps.Add p p1 = Ret (inl q) ->
     ValidateBasic (Some q) = true /\ curve q = curve p) /\
  (ECPointOps.ScalarMult p k = Ret q ->
     ValidateBasic (Some q) = true /\ curve q = curve p) /\
  (CryptoOps.ScalarBaseMult c k = Ret q ->
     ValidateBasic (Some q) = true /\ curve q = c).
Proof.
  split; [intros x y; apply NewECPoint_inl|]. split; [|split].
  - unfold ECPointOps.Add. intros Hrun.
    step Hrun x0 Hx0. step Hrun y0 Hy0. step Hrun x1 Hx1. step Hrun y1 Hy1.
    injection Hrun as Hrun. apply NewECPoint_inl in Hrun. tauto.
  - unfold ECPointOps.ScalarMult. intros Hrun.
    step Hrun x0 Hx0. step Hrun y0 Hy0.
    destruct (NewECPoint _ _ _) as [newP|] eqn:Hnew; [|discriminate].
    injection Hrun as ->. apply NewECPoint_inl in Hnew. tauto.
  - unfold CryptoOps.ScalarBaseMult. cbv zeta.
    destruct (NewECPoint _ _ _) as [newP|] eqn:Hnew; [|discriminate].
    intros [= ->]. apply NewECPoint_inl in Hnew. tauto.
Qed.

(** X17. [crypto.ScalarBaseMult(curve, k)] depends on [k] only through
    [k mod N], and on the curve only through its parameters and its
    membership test: the multiple returned is the one of the Baby Jubjub
    base point, whatever [curve.ScalarBaseMult] computes. *)
Theorem ScalarBaseMult_only_reads_order `{Externals} (c c' : Curve)
    (k j : Z) :
  N (Params c) <> 0 ->
  CryptoOps.ScalarBaseMult c (k + j * N (Params c))
    = CryptoOps.ScalarBaseMult c k /\
  (Params c' = Params c ->
   (forall x y, IsOnCurve c' x y = IsOnCurve c x y) ->
   forall q, CryptoOps.ScalarBaseMult c k = Ret q ->
             CryptoOps.ScalarBaseMult c' k = Ret (SetCurve c' q)).
Proof.
  intros HN. unfold CryptoOps.ScalarBaseMult, BigInt.Mod. cbv zeta. split.
  - replace ((k + j * N (Params c)) mod Z.abs (N (Params c)))
      with (k mod Z.abs (N (Params c))); [reflexivity|].
    destruct (Z.abs_eq_or_opp (N (Params c))) as [->| ->].
    + now rewrite Z_mod_plus_full.
    + replace (k + j * N (Params c))
        with (k + (- j) * - N (Params c)) by ring.
      now rewrite Z_mod_plus_full.
  - intros Hp Hon q. rewrite Hp. unfold NewECPoint, isOnCurve.
    rewrite Hon.
    destruct (IsOnCurve c _ _); simpl; [|discriminate].
    now intros [= <-].
Qed.

End ECPointFacts.

Section ECPointExamples.
Import Crypto CryptoOps ECPointOps.

Lemma UnFlatten_then_Flatten_witness :
  exists flat,
    Some [Some 3; Some 0; Some 5; Some 0] = Some (map Some flat) /\
    length flat = (2 * length [Toy.point 3; Toy.point 5])%nat /\
    FlattenECPoints (Some (map Some [Toy.point 3; Toy.point 5])) = inl flat /\
    Forall (fun p => curve p = Toy.curve) [Toy.point 3; Toy.point 5] /\
    (head [] <> Some true ->
     Forall (fun p => ValidateBasic (Some p) = true)
       [Toy.point 3; Toy.point 5]).
Proof.
  apply (UnFlatten_then_Flatten Toy.curve
           (Some [Some 3; Some 0; Some 5; Some 0]) []).
  reflexivity.
Defined.

Lemma Flatten_then_UnFlatten_witness :
  exists ps,
    Some [Some (Toy.point 3); Some (Toy.point 5)] = Some (map Some ps) /\
    length [3; 0; 5; 0] = (2 * length ps)%nat /\
    UnFlattenECPoints Toy.curve (Some (map Some [3; 0; 5; 0])) [true]
      = inl (map (SetCurve Toy.curve) ps) /\
    (UnFlattenECPoints Toy.curve (Some (map Some [3; 0; 5; 0])) []
       = inl (map (SetCurve Toy.curve) ps)
     <-> Forall (fun p => ECPoint_IsOnCurve (SetCurve Toy.curve p) = true)
           ps).
Proof.
  apply (Flatten_then_UnFlatten Toy.curve
           (Some [Some (Toy.point 3); Some (Toy.point 5)])).
  reflexivity.
Defined.

Lemma ScalarBaseMult_only_reads_order_witness :
  @CryptoOps.ScalarBaseMult Toy.externals Toy.curve (3 + 2 * 7)
    = @CryptoOps.ScalarBaseMult Toy.externals Toy.curve 3 /\
  (Params Toy.curve = Params Toy.curve ->
   (forall x y, IsOnCurve Toy.curve x y = IsOnCurve Toy.curve x y) ->
   forall q, @CryptoOps.ScalarBaseMult Toy.externals Toy.curve 3 = Ret q ->
             @CryptoOps.ScalarBaseMult Toy.externals Toy.curve 3
             = Ret (SetCurve Toy.curve q)).
Proof.
  apply (@ScalarBaseMult_only_reads_order Toy.externals Toy.curve Toy.curve
           3 2).
  discriminate.
Defined.

End ECPointExamples.

(** ** Signing messages: what the receiver reads back *)

Section MessageRoundTrips.
Import Crypto Signing Messages.

(** X18. What a signing message carries comes back as the absolute value
    of what was put in: the round-1 commitment through
    [UnmarshalCommitment], the round-3 share through [UnmarshalS], and
    the proof of a round-2 message through [UnmarshalZKProof], which
    binds the point to the curve the receiver passes and returns an
    error exactly when the point read back is not on that curve. *)
Theorem signing_messages_read_back `{Externals} (from : Tss.PartyID)
    (commitment si : Z) (deCommitment : list Z) (proof : ZKProof)
    (ec : Curve) :
  (exists c, Content (NewSignRound1Message from commitment) = Round1Content c
             /\ UnmarshalCommitment c = Z.abs commitment) /\
  (exists c, Content (NewSignRound3Message from si) = Round3Content c
             /\ UnmarshalS c = Z.abs si) /\
  (forall msg,
     NewSignRound2Message from deCommitment proof = Ret msg ->
     exists c x y,
       Content msg = Round2Content c /\
       coords (Alpha proof) = (Some x, Some y) /\
       (IsOnCurve ec (Z.abs x) (Z.abs y) = true ->
        UnmarshalZKProof ec c
        = inl {| Alpha := {| curve := ec;
                             coords := (Some (Z.abs x), Some (Z.abs y)) |};
                 T := Z.abs (T proof) |}) /\
       (IsOnCurve ec (Z.abs x) (Z.abs y) = false ->
        exists err, UnmarshalZKProof ec c = inr err)).
Proof.
  split; [|split].
  - eexists. split; [reflexivity|]. apply SetBytes_Bytes.
  - eexists. split; [reflexivity|]. apply SetBytes_Bytes.
  - intros msg Hrun. unfold NewSignRound2Message in Hrun.
    step Hrun dcBzs Hdc. step Hrun ax Hax. step Hrun ay Hay.
    apply deref_Ret in Hax, Hay.
    injection Hrun as <-. simpl.
    eexists _, ax, ay. split; [reflexivity|].
    split.
    { destruct (coords (Alpha proof)) as [cx cy]. simpl in *. now subst. }
    unfold UnmarshalZKProof, NewECPoint. simpl.
    rewrite !SetBytes_Bytes.
    split; intros ->; simpl; [reflexivity|now eexists].
Qed.

End MessageRoundTrips.

(** ** rsa: the wire format of a signature share *)

Section SignShareWire.
Import RSA.

Definition is_byte (b : Z) : Prop := 0 <= b < 256.

Lemma Bytes_are_bytes (x : Z) : Forall is_byte (BigInt.Bytes x).
Proof.
  unfold BigInt.Bytes. cbv zeta. apply Forall_rev, le_digits_range.
Qed.

Lemma Bytes_length_Z (x n : Z) :
  0 <= n ->
  Z.of_nat (length (BigInt.Bytes x)) <= n <-> Z.abs x < 256 ^ n.
Proof.
  intros Hn. rewrite <- (Z2Nat.id n) at 2 by lia.
  rewrite <- Bytes_length. lia.
Qed.

Lemma Bytes_nil (x : Z) : BigInt.Bytes x = [] -> Z.abs x = 0.
Proof.
  intros Hb. rewrite <- (SetBytes_Bytes x), Hb. reflexivity.
Qed.

Lemma Uint16_PutUint16 (v : Z) :
  0 <= v <= 65535 ->
  Uint16 (v / 256) (v mod 256) = v /\ is_byte (v / 256) /\ is_byte (v mod 256).
Proof.
  intros Hv. unfold Uint16, is_byte.
  pose proof (Z.div_mod v 256 ltac:(lia)).
  pose proof (Z.mod_pos_bound v 256 ltac:(lia)).
  assert (0 <= v / 256) by (apply Z.div_pos; lia).
  assert (v / 256 < 256) by (apply Z.div_lt_upper_bound; lia).
  lia.
Qed.

Lemma uint16_small (v : Z) : 0 <= v <= 65535 -> uint16 v = v.
Proof. intros Hv. unfold uint16. apply Z.mod_small. lia. Qed.

(** The header and payload [MarshalBinary] writes. *)
Definition wire (players threshold index : Z) (xiBytes : BigInt.bytes)
    : BigInt.bytes :=
  PutUint16 players ++ PutUint16 threshold ++ PutUint16 index
    ++ PutUint16 (Z.of_nat (length xiBytes)) ++ xiBytes.

Lemma UnmarshalBinary_wire (players threshold index : Z)
    (xiBytes extra : BigInt.bytes) :
  0 <= players <= 65535 -> 0 <= threshold <= 65535 ->
  0 <= index <= 65535 ->
  0 < Z.of_nat (length xiBytes) <= 65527 ->
  Z.of_nat (length xiBytes + length extra) <= 65535 ->
  UnmarshalBinary (wire players threshold index xiBytes ++ extra)
  = Ret (inl {| Xi := Some (BigInt.SetBytes xiBytes);
                Index := Z.to_N index; Players := Z.to_N players;
                Threshold := Z.to_N threshold |}).
Proof.
  intros Hp Ht Hi [Hpos Hmax] Hlen.
  unfold wire, PutUint16, UnmarshalBinary. cbn [app].
  destruct (Uint16_PutUint16 _ Hp) as (-> & _).
  destruct (Uint16_PutUint16 _ Ht) as (-> & _).
  destruct (Uint16_PutUint16 _ Hi) as (-> & _).
  destruct (Uint16_PutUint16 (Z.of_nat (length xiBytes)) ltac:(lia))
    as (-> & _).
  destruct (Z.eqb_spec (Z.of_nat (length xiBytes)) 0) as [|_]; [lia|].
  rewrite length_app, uint16_small by lia.
  destruct (Z.ltb_spec (Z.of_nat (length xiBytes + length extra))
              (Z.of_nat (length xiBytes))) as [|_]; [lia|].
  cbv zeta. rewrite uint16_small by lia.
  destruct (Z.ltb_spec (8 + Z.of_nat (length xiBytes)) 8) as [|_]; [lia|].
  replace (8 + Z.of_nat (length xiBytes) - 8)
    with (Z.of_nat (length xiBytes)) by lia.
  rewrite Nat2Z.id, take_app_length. reflexivity.
Qed.

Lemma MarshalBinary_wire (s : SignShare) (data : BigInt.bytes) :
  MarshalBinary s = Ret (inl data) ->
  exists xi xiBytes,
    Xi s = Some xi /\
    Z.of_N (Players s) <= 65535 /\ Z.of_N (Threshold s) <= 65535 /\
    Z.of_N (Index s) <= 65535 /\
    Z.of_nat (length (BigInt.Bytes xi)) <= 32767 /\
    xiBytes = (if bool_decide (BigInt.Bytes xi = [])
               then [0] else BigInt.Bytes xi) /\
    data = wire (Z.of_N (Players s)) (Z.of_N (Threshold s))
             (Z.of_N (Index s)) xiBytes.
Proof.
  unfold MarshalBinary, MaxUint16, MaxInt16. intros Hrun.
  destruct (Z.ltb_spec 65535 (Z.of_N (Players s))) as [|Hp]; [discriminate|].
  destruct (Z.ltb_spec 65535 (Z.of_N (Threshold s))) as [|Ht]; [discriminate|].
  destruct (Z.ltb_spec 65535 (Z.of_N (Index s))) as [|Hi]; [discriminate|].
  step Hrun xi Hxi. apply deref_Ret in Hxi.
  destruct (Z.ltb_spec 32767 (Z.of_nat (length (BigInt.Bytes xi))))
    as [|Hl]; [discriminate|].
  exists xi. eexists. repeat split; try eassumption.
  rewrite !uint16_small in Hrun by lia.
  destruct (BigInt.Bytes xi) as [|b bs] eqn:Hb.
  - simpl in Hrun. injection Hrun as <-.
    rewrite bool_decide_eq_true_2 by reflexivity. reflexivity.
  - rewrite bool_decide_eq_false_2 by discriminate.
    destruct (Z.eqb_spec (Z.of_nat (length (b :: bs))) 0) as [Hz|_];
      [simpl in Hz; lia|].
    rewrite uint16_small in Hrun by lia. injection Hrun as <-. reflexivity.
Qed.

(** X19. [UnmarshalBinary] undoes [MarshalBinary]: whatever
    [MarshalBinary] returns without error decodes to the same players,
    threshold and index and to [|Xi|] (the sign of [Xi] is not carried);
    the encoding has between 9 and 8 + 32767 bytes. *)
Theorem MarshalBinary_round_trip (s : SignShare) (data : BigInt.bytes) :
  MarshalBinary s = Ret (inl data) ->
  exists xi,
    Xi s = Some xi /\
    UnmarshalBinary data
    = Ret (inl {| Xi := Some (Z.abs xi); Index := Index s;
                  Players := Players s; Threshold := Threshold s |}) /\
    Forall is_byte data /\
    9 <= Z.of_nat (length data) <= 8 + 32767.
Proof.
  intros Hrun.
  destruct (MarshalBinary_wire _ _ Hrun)
    as (xi & xiBytes & Hxi & Hp & Ht & Hi & Hl & HB & ->).
  exists xi. split; [assumption|].
  assert (Hlen : 0 < Z.of_nat (length xiBytes) <= 32767).
  { subst xiBytes. destruct (BigInt.Bytes xi); simpl in *; lia. }
  assert (Hval : BigInt.SetBytes xiBytes = Z.abs xi).
  { subst xiBytes. destruct (bool_decide_reflect (BigInt.Bytes xi = [])) as [Hn|_].
    - now rewrite (Bytes_nil _ Hn).
    - apply SetBytes_Bytes. }
  assert (Hbytes : Forall is_byte xiBytes).
  { subst xiBytes. destruct (bool_decide _).
    - repeat constructor; unfold is_byte; lia.
    - apply Bytes_are_bytes. }
  pose proof (N2Z.is_nonneg (Players s)).
  pose proof (N2Z.is_nonneg (Threshold s)).
  pose proof (N2Z.is_nonneg (Index s)).
  split; [|split].
  - rewrite <- (app_nil_r (wire _ _ _ _)).
    rewrite UnmarshalBinary_wire by (cbn [length]; lia).
    now rewrite Hval, !N2Z.id.
  - unfold wire, PutUint16.
    repeat (apply Forall_app; split); try assumption;
      repeat constructor; apply Uint16_PutUint16; lia.
  - unfold wire, PutUint16. rewrite !length_app. cbn [length]. lia.
Qed.

Lemma MarshalBinary_round_trip_witness :
  exists xi,
    Some (-515) = Some xi /\
    UnmarshalBinary [0; 5; 0; 3; 0; 2; 0; 2; 2; 3]
    = Ret (inl {| Xi := Some (Z.abs xi); Index := 2%N;
                  Players := 5%N; Threshold := 3%N |}) /\
    Forall is_byte [0; 5; 0; 3; 0; 2; 0; 2; 2; 3] /\
    9 <= Z.of_nat (length [0; 5; 0; 3; 0; 2; 0; 2; 2; 3]) <= 8 + 32767.
Proof.
  apply (MarshalBinary_round_trip
           {| Xi := Some (-515); Index := 2%N; Players := 5%N;
              Threshold := 3%N |}).
  vm_compute. reflexivity.
Defined.

Lemma SetBytes_nonneg (b : BigInt.bytes) :
  Forall is_byte b -> 0 <= BigInt.SetBytes b.
Proof.
  induction b as [|d b IH] using rev_ind; intros Hb; [unfold BigInt.SetBytes; simpl; lia|].
  apply Forall_app in Hb as [Hb Hd]. inversion Hd as [|? ? Hd' _]; subst.
  rewrite SetBytes_app. specialize (IH Hb). unfold is_byte in Hd'. lia.
Qed.

Lemma SetBytes_lt_pow (b : BigInt.bytes) (n : Z) :
  Forall is_byte b -> Z.of_nat (length b) <= n ->
  BigInt.SetBytes b < 256 ^ n.
Proof.
  intros Hb Hn.
  enough (Hlt : BigInt.SetBytes b < 256 ^ Z.of_nat (length b)).
  { eapply Z.lt_le_trans; [exact Hlt|].
    apply Z.pow_le_mono_r; lia. }
  clear Hn n. induction b as [|d b IH] using rev_ind.
  - unfold BigInt.SetBytes. simpl. lia.
  - apply Forall_app in Hb as [Hb Hd]. inversion Hd as [|? ? Hd' _]; subst.
    rewrite SetBytes_app, length_app. cbn [length].
    rewrite Nat2Z.inj_add, Z.pow_add_r by lia.
    change (256 ^ Z.of_nat 1) with 256.
    specialize (IH Hb). unfold is_byte in Hd'.
    pose proof (SetBytes_nonneg b Hb). nia.
Qed.

(** The length field [xiLen] of an input: bytes 6 and 7, big-endian. *)
Definition xiLen_of (data : BigInt.bytes) : Z :=
  match data !! 6%nat, data !! 7%nat with
  | Some l0, Some l1 => Uint16 l0 l1
  | _, _ => 0
  end.

(** X20. The length checks of [UnmarshalBinary].  The payload length is
    compared after conversion to [uint16], so an input whose payload
    length is a multiple of 65536 (the empty payload included) is always
    refused with an error, however many bytes follow the header; bytes
    after the [xiLen] payload bytes are ignored: an input that returns a
    share returns the same share when more bytes are appended (up to a
    payload of 65535 bytes); and the call panics, instead of returning,
    exactly when [xiLen] is 65528 or more and passes the length test:
    the upper bound [8+xiLen] of the slice then wraps around below 8. *)
Theorem UnmarshalBinary_length_check (data extra : BigInt.bytes) :
  Forall is_byte data ->
  ((Z.of_nat (length data) - 8) mod 65536 = 0 ->
   exists err, UnmarshalBinary data = Ret (inr err)) /\
  (forall s, UnmarshalBinary data = Ret (inl s) ->
             Z.of_nat (length data + length extra) - 8 <= 65535 ->
             UnmarshalBinary (data ++ extra) = Ret (inl s)) /\
  (UnmarshalBinary data = Panic
   <-> (8 <= length data)%nat /\
       65528 <= xiLen_of data
       /\ xiLen_of data <= (Z.of_nat (length data) - 8) mod 65536).
Proof.
  intros Hbytes.
  destruct data as [|p0 [|p1 [|t0 [|t1 [|i0 [|i1 [|l0 [|l1 rest]]]]]]]];
    try (split; [intros _; now eexists|];
         split; [intros s Hs; discriminate Hs|];
         split; [discriminate|]; cbn [length]; lia).
  assert (Hl : is_byte l0 /\ is_byte l1).
  { repeat (apply Forall_cons in Hbytes as [? Hbytes]). now split. }
  destruct Hl as [Hl0 Hl1]. unfold is_byte in Hl0, Hl1.
  unfold xiLen_of. cbn [lookup list_lookup]. unfold UnmarshalBinary, Uint16.
  cbn [app length]. cbv zeta.
  replace (Z.of_nat (Datatypes.S (Datatypes.S (Datatypes.S (Datatypes.S
             (Datatypes.S (Datatypes.S (Datatypes.S (Datatypes.S
             (length rest))))))))) - 8)
    with (Z.of_nat (length rest)) by lia.
  set (xiLen := l0 * 256 + l1).
  assert (HxiLen : 0 <= xiLen <= 65535) by (unfold xiLen; lia).
  clearbody xiLen.
  assert (Hhigh : (uint16 (8 + xiLen) <? 8) = (65528 <=? xiLen)).
  { unfold uint16.
    destruct (Z.leb_spec 65528 xiLen) as [Hbig|Hsmall].
    - replace (8 + xiLen) with (8 + xiLen - 65536 + 1 * 65536) by lia.
      rewrite Z.mod_add, Z.mod_small by lia. apply Z.ltb_lt. lia.
    - rewrite Z.mod_small by lia. apply Z.ltb_ge. lia. }
  assert (Hsnd : xiLen <= 65527 -> uint16 (8 + xiLen) - 8 = xiLen).
  { intros Hsmall. rewrite uint16_small; lia. }
  pose proof (Z.mod_pos_bound (Z.of_nat (length rest)) 65536 ltac:(lia))
    as Hmod.
  change (Z.of_nat (length rest) mod 65536)
    with (uint16 (Z.of_nat (length rest))) in *.
  destruct (Z.eqb_spec xiLen 0) as [Hz|Hnz].
  { split; [intros _; now eexists|].
    split; [intros s Hs; discriminate Hs|].
    split; [discriminate|lia]. }
  destruct (Z.ltb_spec (uint16 (Z.of_nat (length rest))) xiLen)
    as [Hshort|Hlong].
  { split; [intros _; now eexists|].
    split; [intros s Hs; discriminate Hs|].
    split; [discriminate|lia]. }
  rewrite Hhigh.
  destruct (Z.leb_spec 65528 xiLen) as [Hbig|Hsmall].
  { split; [intros Hm; rewrite Hm in Hlong; lia|].
    split; [intros s Hs; discriminate Hs|].
    split; [intros _; lia|reflexivity]. }
  split; [intros Hm; rewrite Hm in Hlong; lia|].
  split; [|split; [discriminate|lia]].
  intros s Hs Hlen. rewrite length_app.
  rewrite uint16_small by lia.
  rewrite uint16_small in Hlong by lia.
  destruct (Z.ltb_spec (Z.of_nat (length rest + length extra)) xiLen)
    as [|_]; [lia|].
  rewrite Hsnd in Hs |- * by lia.
  rewrite take_app_le by lia. exact Hs.
Qed.

Lemma UnmarshalBinary_length_check_witness :
  ((Z.of_nat (length [0; 5; 0; 3; 0; 2; 0; 1; 7]) - 8) mod 65536 = 0 ->
   exists err, UnmarshalBinary [0; 5; 0; 3; 0; 2; 0; 1; 7] = Ret (inr err)) /\
  (forall s, UnmarshalBinary [0; 5; 0; 3; 0; 2; 0; 1; 7] = Ret (inl s) ->
             Z.of_nat (length [0; 5; 0; 3; 0; 2; 0; 1; 7] + length [9; 9])
               - 8 <= 65535 ->
             UnmarshalBinary ([0; 5; 0; 3; 0; 2; 0; 1; 7] ++ [9; 9])
             = Ret (inl s)) /\
  (UnmarshalBinary [0; 5; 0; 3; 0; 2; 0; 1; 7] = Panic
   <-> (8 <= length [0; 5; 0; 3; 0; 2; 0; 1; 7])%nat /\
       65528 <= xiLen_of [0; 5; 0; 3; 0; 2; 0; 1; 7]
       /\ xiLen_of [0; 5; 0; 3; 0; 2; 0; 1; 7]
          <= (Z.of_nat (length [0; 5; 0; 3; 0; 2; 0; 1; 7]) - 8) mod 65536).
Proof.
  apply (UnmarshalBinary_length_check [0; 5; 0; 3; 0; 2; 0; 1; 7] [9; 9]).
  repeat constructor; unfold is_byte; lia.
Defined.

(** A length field of 65535 in front of 65535 payload bytes: the length
    test passes, the slice bound [8+xiLen] wraps to 7, and the call
    panics. *)
Example UnmarshalBinary_panics :
  UnmarshalBinary
    ([0; 5; 0; 3; 0; 2; 255; 255] ++ replicate (Z.to_nat 65535) 1)
  = Panic.
Proof. vm_compute. reflexivity. Qed.

Lemma MarshalBinary_run (s : SignShare) (xi : Z) :
  Xi s = Some xi ->
  Z.of_N (Players s) <= 65535 -> Z.of_N (Threshold s) <= 65535 ->
  Z.of_N (Index s) <= 65535 ->
  (Z.abs xi < 256 ^ 32767 ->
   exists xiBytes,
     0 < Z.of_nat (length xiBytes) <= 32767 /\
     BigInt.SetBytes xiBytes = Z.abs xi /\
     MarshalBinary s
     = Ret (inl (wire (Z.of_N (Players s)) (Z.of_N (Threshold s))
                   (Z.of_N (Index s)) xiBytes))) /\
  (256 ^ 32767 <= Z.abs xi -> exists err, MarshalBinary s = Ret (inr err)).
Proof.
  intros Hxi Hp Ht Hi.
  pose proof (N2Z.is_nonneg (Players s)).
  pose proof (N2Z.is_nonneg (Threshold s)).
  pose proof (N2Z.is_nonneg (Index s)).
  pose proof (Bytes_length_Z xi 32767 ltac:(lia)) as Hbl.
  remember (256 ^ 32767) as bound eqn:Hbound. clear Hbound.
  unfold MarshalBinary, MaxUint16, MaxInt16. rewrite Hxi.
  destruct (Z.ltb_spec 65535 (Z.of_N (Players s))) as [|_]; [lia|].
  destruct (Z.ltb_spec 65535 (Z.of_N (Threshold s))) as [|_]; [lia|].
  destruct (Z.ltb_spec 65535 (Z.of_N (Index s))) as [|_]; [lia|].
  unfold mbind, res_mbind. cbn [res_bind deref]. cbv zeta.
  rewrite !uint16_small by lia.
  destruct (Z.ltb_spec 32767 (Z.of_nat (length (BigInt.Bytes xi))))
    as [Hlong|Hshort].
  - split; [|intros _; now eexists].
    intros Hlt. apply Hbl in Hlt. lia.
  - split; [|intros Hge; assert (Z.abs xi < bound) by (apply Hbl; lia);
             lia].
    intros _.
    destruct (BigInt.Bytes xi) as [|b bs] eqn:Hb.
    + exists [0]. simpl. repeat split; try lia.
      now rewrite (Bytes_nil _ Hb).
    + exists (b :: bs).
      destruct (Z.eqb_spec (Z.of_nat (length (b :: bs))) 0) as [Hz|_];
        [simpl in Hz; lia|].
      rewrite uint16_small by lia.
      repeat split; try (simpl in *; lia).
      rewrite <- Hb. apply SetBytes_Bytes.
Qed.

(** X21. A share that [UnmarshalBinary] returns has an [Xi] of at most
    65527 bytes ([0 <= Xi < 256^65527]: with a longer length field the
    call panics or fails).  [MarshalBinary] encodes the share again, to
    a form that decodes to the same share, provided its [Xi] takes fewer
    than 32768 bytes; a share with a longer [Xi] is refused by
    [MarshalBinary]. *)
Theorem UnmarshalBinary_then_Marshal (data : BigInt.bytes) (s : SignShare) :
  Forall is_byte data ->
  UnmarshalBinary data = Ret (inl s) ->
  exists xi,
    Xi s = Some xi /\ 0 <= xi /\ xi < 256 ^ 65527 /\
    (xi < 256 ^ 32767 ->
     exists data', MarshalBinary s = Ret (inl data') /\
                   UnmarshalBinary data' = Ret (inl s)) /\
    (256 ^ 32767 <= xi -> exists err, MarshalBinary s = Ret (inr err)).
Proof.
  intros Hbytes Hrun.
  pose proof MarshalBinary_run as Hmarshal.
  assert (Hup : forall b, Forall is_byte b ->
                          Z.of_nat (length b) <= 65527 ->
                          BigInt.SetBytes b < 256 ^ 65527)
    by (intros b Hb Hn; exact (SetBytes_lt_pow b 65527 Hb Hn)).
  remember (256 ^ 32767) as bound eqn:Hbound. clear Hbound.
  remember (256 ^ 65527) as bound2 eqn:Hbound2. clear Hbound2.
  destruct data as [|p0 [|p1 [|t0 [|t1 [|i0 [|i1 [|l0 [|l1 rest]]]]]]]];
    try discriminate Hrun.
  assert (Hhdr : 0 <= Uint16 p0 p1 <= 65535 /\ 0 <= Uint16 t0 t1 <= 65535 /\
                 0 <= Uint16 i0 i1 <= 65535 /\ Forall is_byte rest).
  { repeat (apply Forall_cons in Hbytes as [? Hbytes]).
    unfold is_byte, Uint16 in *. repeat split; try lia. assumption. }
  destruct Hhdr as (Hp & Ht & Hi & Hrest).
  unfold UnmarshalBinary in Hrun.
  destruct (Uint16 l0 l1 =? 0); [discriminate|].
  destruct (uint16 _ <? _); [discriminate|].
  cbv zeta in Hrun.
  destruct (Z.ltb_spec (uint16 (8 + Uint16 l0 l1)) 8) as [|Hhigh];
    [discriminate|].
  injection Hrun as <-.
  assert (Hhi : uint16 (8 + Uint16 l0 l1) - 8 <= 65527).
  { unfold uint16.
    pose proof (Z.mod_pos_bound (8 + Uint16 l0 l1) 65536 ltac:(lia)). lia. }
  set (bytes := take (Z.to_nat (uint16 (8 + Uint16 l0 l1) - 8)) rest).
  assert (Hbs : Forall is_byte bytes)
    by (unfold bytes; revert Hrest; apply Forall_take).
  assert (Hblen : Z.of_nat (length bytes) <= 65527).
  { unfold bytes. rewrite length_take. lia. }
  set (xi := BigInt.SetBytes bytes).
  assert (Hxi : 0 <= xi) by (apply SetBytes_nonneg; exact Hbs).
  assert (Hxi2 : xi < bound2) by (apply Hup; assumption).
  exists xi. split; [reflexivity|]. split; [assumption|].
  split; [assumption|].
  destruct (Hmarshal
              {| Xi := Some xi; Index := Z.to_N (Uint16 i0 i1);
                 Players := Z.to_N (Uint16 p0 p1);
                 Threshold := Z.to_N (Uint16 t0 t1) |} xi eq_refl)
    as [Hok Herr];
    try (cbn [Players Threshold Index]; rewrite Z2N.id; lia).
  clear Hmarshal Hup.
  rewrite Z.abs_eq in Hok, Herr by assumption.
  split; [|exact Herr].
  intros Hlt. destruct (Hok Hlt) as (xiBytes & Hlen & Hval & Hm).
  eexists. split; [exact Hm|]. cbn [Players Threshold Index].
  rewrite <- (app_nil_r (wire _ _ _ _)).
  rewrite UnmarshalBinary_wire by (cbn [length]; rewrite ?Z2N.id; lia).
  rewrite Hval, !N2Z.id. reflexivity.
Qed.

Lemma UnmarshalBinary_then_Marshal_witness :
  exists xi,
    Some 7 = Some xi /\ 0 <= xi /\ xi < 256 ^ 65527 /\
    (xi < 256 ^ 32767 ->
     exists data',
       MarshalBinary {| Xi := Some 7; Index := 2%N; Players := 5%N;
                        Threshold := 3%N |} = Ret (inl data') /\
       UnmarshalBinary data'
       = Ret (inl {| Xi := Some 7; Index := 2%N; Players := 5%N;
                     Threshold := 3%N |})) /\
    (256 ^ 32767 <= xi ->
     exists err,
       MarshalBinary {| Xi := Some 7; Index := 2%N; Players := 5%N;
                        Threshold := 3%N |} = Ret (inr err)).
Proof.
  apply (UnmarshalBinary_then_Marshal [0; 5; 0; 3; 0; 2; 0; 2; 0; 7; 9]
           {| Xi := Some 7; Index := 2%N; Players := 5%N;
              Threshold := 3%N |}).
  - repeat constructor; unfold is_byte; lia.
  - reflexivity.
Defined.

End SignShareWire.

(** ** rsa: [ComputeLambda] *)

Section LagrangeCoefficient.
Import RSA.

Lemma lambda_loop_foundi (S : list SignShare) (i j : Z) :
  forall v, foundi v = false -> foundi (lambda_loop S i j v) = false.
Proof.
  induction S as [|s rest IH]; intros v Hv; simpl; [assumption|].
  destruct (_ =? j); [now apply IH|].
  destruct (_ =? i); [reflexivity|]. now apply IH.
Qed.

Lemma lambda_loop_break (S1 S2 : list SignShare) (s : SignShare) (i j : Z) :
  int64 (Z.of_N (Index s)) = i -> i <> j ->
  forall v, foundi v = false ->
            lambda_loop (S1 ++ s :: S2) i j v = lambda_loop S1 i j v.
Proof.
  intros Hs Hij. induction S1 as [|s1 rest IH]; intros v Hv; simpl.
  - rewrite Hs.
    destruct (Z.eqb_spec i j) as [|_]; [contradiction|].
    rewrite Z.eqb_refl. destruct v; simpl in *. now subst.
  - destruct (_ =? j); [now apply IH|].
    destruct (_ =? i); [reflexivity|]. now apply IH.
Qed.

(** X22. [ComputeLambda] does not enforce that [i] is not in [S]: the
    flag [foundi] is never set, so the error "i should not be in S" is
    never returned; instead the loop stops at the first share whose index
    is [i], and that share and all the shares after it are ignored, as if
    [S] ended there. *)
Theorem ComputeLambda_ignores_i_in_S (delta : Z) (S1 S2 : list SignShare)
    (s : SignShare) (i j : Z) :
  int64 (Z.of_N (Index s)) = i -> i <> j ->
  ComputeLambda delta (S1 ++ s :: S2) i j = ComputeLambda delta S1 i j /\
  forall S, ComputeLambda delta S i j
            <> Ret (inr "rsa_threshold: i should not be in S"%string).
Proof.
  intros Hs Hij. split.
  - unfold ComputeLambda. now rewrite (lambda_loop_break S1 S2 s i j Hs Hij).
  - intros S. unfold ComputeLambda.
    destruct (Z.eqb_spec i j) as [|_]; [contradiction|]. cbv zeta.
    rewrite (lambda_loop_foundi S i j) by reflexivity.
    destruct (Div _ _); simpl; [|discriminate].
    destruct (negb _); discriminate.
Qed.

Lemma ComputeLambda_ignores_i_in_S_witness :
  ComputeLambda 6
    ([{| Xi := None; Index := 1%N; Players := 3%N; Threshold := 2%N |}]
       ++ {| Xi := None; Index := 0%N; Players := 3%N; Threshold := 2%N |}
       :: [{| Xi := None; Index := 3%N; Players := 3%N; Threshold := 2%N |}])
    0 3
  = ComputeLambda 6
      [{| Xi := None; Index := 1%N; Players := 3%N; Threshold := 2%N |}] 0 3
  /\
  forall S, ComputeLambda 6 S 0 3
            <> Ret (inr "rsa_threshold: i should not be in S"%string).
Proof.
  apply (ComputeLambda_ignores_i_in_S 6
           [{| Xi := None; Index := 1%N; Players := 3%N; Threshold := 2%N |}]
           [{| Xi := None; Index := 3%N; Players := 3%N; Threshold := 2%N |}]
           {| Xi := None; Index := 0%N; Players := 3%N; Threshold := 2%N |}
           0 3).
  - reflexivity.
  - discriminate.
Defined.

(** The indices of [S] other than [j], in order. *)
Definition others (S : list SignShare) (j : Z) : list Z :=
  filter (fun j' => j' <> j) (map (fun s => Z.of_N (Index s)) S).

Definition product (l : list Z) : Z := fold_right Z.mul 1 l.

(** Euclidean quotient, as [big.Int.Div] computes it. *)
Definition ediv (x y : Z) : Z := if 0 <? y then x / y else - (x / - y).

Lemma int64_small (z : Z) : - 2 ^ 63 <= z < 2 ^ 63 -> int64 z = z.
Proof. intros Hz. unfold int64. rewrite Z.mod_small; lia. Qed.

Lemma bound_skip (a B p : Z) :
  1 <= B -> 0 < p -> Z.abs a * (B * p) < 2 ^ 63 -> Z.abs a * p < 2 ^ 63.
Proof.
  intros HB Hp Ha.
  assert (H1 : 1 * p <= B * p) by (apply Z.mul_le_mono_nonneg_r; lia).
  assert (H2 : Z.abs a * p <= Z.abs a * (B * p))
    by (apply Z.mul_le_mono_nonneg_l; lia).
  lia.
Qed.

Lemma bound_step (a f B p : Z) :
  Z.abs f < B -> 0 < p -> Z.abs a * (B * p) < 2 ^ 63 ->
  Z.abs (a * f) * p < 2 ^ 63 /\ - 2 ^ 63 <= a * f < 2 ^ 63.
Proof.
  intros Hf Hp Ha.
  assert (H1 : Z.abs (a * f) <= Z.abs a * B).
  { rewrite Z.abs_mul. apply Z.mul_le_mono_nonneg_l; lia. }
  assert (H2 : Z.abs (a * f) * p <= Z.abs a * B * p)
    by (apply Z.mul_le_mono_nonneg_r; lia).
  assert (H3 : Z.abs (a * f) * 1 <= Z.abs (a * f) * p)
    by (apply Z.mul_le_mono_nonneg_l; lia).
  replace (Z.abs a * (B * p)) with (Z.abs a * B * p) in Ha by ring.
  split; [lia|]. lia.
Qed.

Lemma lambda_loop_products (B i j : Z) (S : list SignShare) :
  0 <= i < B -> 0 <= j < B -> B < 2 ^ 63 -> i <> j ->
  Forall (fun s => Z.of_N (Index s) < B /\ Z.of_N (Index s) <> i) S ->
  forall v,
    Z.abs (num v) * B ^ Z.of_nat (length S) < 2 ^ 63 ->
    Z.abs (den v) * B ^ Z.of_nat (length S) < 2 ^ 63 ->
    lambda_loop S i j v
    = {| foundi := foundi v;
         foundj := foundj v
                   || bool_decide (j ∈ map (fun s => Z.of_N (Index s)) S);
         num := num v * product (map (fun j' => i - j') (others S j));
         den := den v * product (map (fun j' => j - j') (others S j)) |}.
Proof.
  intros Hi Hj HB63 Hij. induction S as [|s rest IH]; intros Hall v Hn Hd.
  - simpl. unfold others, product. simpl.
    rewrite orb_false_r, !Z.mul_1_r. now destruct v.
  - apply Forall_cons in Hall as [[Hs Hsi] Hall].
    pose proof (N2Z.is_nonneg (Index s)) as Hs0.
    assert (HB : 1 <= B) by lia.
    assert (Hpow : 0 < B ^ Z.of_nat (length rest))
      by (apply Z.pow_pos_nonneg; lia).
    cbn [length] in Hn, Hd.
    rewrite Nat2Z.inj_succ, Z.pow_succ_r in Hn, Hd by lia.
    cbn [lambda_loop].
    rewrite (int64_small (Z.of_N (Index s))) by lia.
    unfold others. cbn [map]. rewrite filter_cons.
    destruct (Z.eqb_spec (Z.of_N (Index s)) j) as [Hsj|Hsj].
    + rewrite decide_False by tauto.
      rewrite IH; [|assumption
                   |cbn [num]; now apply (bound_skip _ B)
                   |cbn [den]; now apply (bound_skip _ B)].
      cbn [foundi foundj num den].
      f_equal. rewrite orb_true_l.
      rewrite bool_decide_eq_true_2; [now rewrite orb_true_r|].
      rewrite Hsj. apply elem_of_cons. now left.
    + destruct (Z.eqb_spec (Z.of_N (Index s)) i) as [|_]; [contradiction|].
      rewrite decide_True by assumption.
      assert (Hfi : Z.abs (i - Z.of_N (Index s)) < B) by lia.
      assert (Hfj : Z.abs (j - Z.of_N (Index s)) < B) by lia.
      rewrite (int64_small (i - _)), (int64_small (j - _)) by lia.
      destruct (bound_step (num v) _ B _ Hfi Hpow Hn) as [Hn1 Hn2].
      destruct (bound_step (den v) _ B _ Hfj Hpow Hd) as [Hd1 Hd2].
      rewrite (int64_small (num v * _)), (int64_small (den v * _))
        by assumption.
      rewrite IH; [|assumption|exact Hn1|exact Hd1].
      cbn [foundi foundj num den].
      f_equal.
      * f_equal. apply bool_decide_ext. rewrite elem_of_cons.
        split; [tauto|]. intros [Heq|?]; [congruence|assumption].
      * unfold product, others. cbn [map fold_right]. ring.
      * unfold product, others. cbn [map fold_right]. ring.
Qed.

Definition numerator (S : list SignShare) (i j : Z) : Z :=
  product (map (fun j' => i - j') (others S j)).

Definition denominator (S : list SignShare) (j : Z) : Z :=
  product (map (fun j' => j - j') (others S j)).

Lemma denominator_nonzero (S : list SignShare) (j : Z) :
  denominator S j <> 0.
Proof.
  unfold denominator, others.
  induction (map (fun s => Z.of_N (Index s)) S) as [|a l IH];
    [unfold product; simpl; lia|].
  rewrite filter_cons. destruct (decide (a <> j)) as [Ha|_]; [|exact IH].
  unfold product in *. cbn [map fold_right]. intros Hz.
  apply Z.mul_eq_0 in Hz as [Hz|Hz]; [lia|contradiction].
Qed.

Lemma ediv_exact (x y : Z) : y <> 0 -> ediv x y * y = x <-> (y | x).
Proof.
  intros Hy. unfold ediv. destruct (Z.ltb_spec 0 y) as [Hpos|Hneg].
  - rewrite <- (Z.mod_divide x y) by lia.
    pose proof (Z.div_mod x y ltac:(lia)). split; intros; lia.
  - rewrite <- Z.divide_opp_l, <- (Z.mod_divide x (- y)) by lia.
    pose proof (Z.div_mod x (- y) ltac:(lia)). split; intros; lia.
Qed.

(** X23. The value of [ComputeLambda].  With the indices of [S], [i] and
    [j] below a bound [B] small enough that no [int64] product overflows,
    [j] among the indices and [i] not, the call returns
    [delta * (num div den)], where [num] and [den] are the products of
    [i - j'] and of [j - j'] over the indices [j'] of [S] other than [j],
    and the division is the Euclidean one, taken before the
    multiplication by [delta]: the result is the Lagrange coefficient
    [delta * num / den] exactly when [den] divides [num] (or [delta] is
    zero). *)
Theorem ComputeLambda_value (delta B : Z) (S : list SignShare) (i j : Z) :
  0 <= i < B -> 0 <= j < B -> i <> j ->
  Forall (fun s => Z.of_N (Index s) < B /\ Z.of_N (Index s) <> i) S ->
  j ∈ map (fun s => Z.of_N (Index s)) S ->
  B ^ Z.of_nat (length S) < 2 ^ 63 ->
  ComputeLambda delta S i j
    = Ret (inl (delta * ediv (numerator S i j) (denominator S j))) /\
  (delta * ediv (numerator S i j) (denominator S j) * denominator S j
     = delta * numerator S i j
   <-> delta = 0 \/ (denominator S j | numerator S i j)).
Proof.
  intros Hi Hj Hij Hall Hin Hpow.
  assert (HB63 : B < 2 ^ 63).
  { destruct S as [|s rest]; [now apply elem_of_nil in Hin|].
    cbn [length] in Hpow.
    rewrite Nat2Z.inj_succ, Z.pow_succ_r in Hpow by lia.
    assert (0 < B ^ Z.of_nat (length rest)) by (apply Z.pow_pos_nonneg; lia).
    assert (B * 1 <= B * B ^ Z.of_nat (length rest))
      by (apply Z.mul_le_mono_nonneg_l; lia).
    lia. }
  pose proof (denominator_nonzero S j) as Hden.
  split.
  - unfold ComputeLambda.
    destruct (Z.eqb_spec i j) as [|_]; [contradiction|]. cbv zeta.
    rewrite (lambda_loop_products B i j S Hi Hj HB63 Hij Hall)
      by (cbn [num den]; rewrite Z.mul_1_l; exact Hpow).
    cbn [foundi foundj num den]. rewrite !Z.mul_1_l.
    fold (numerator S i j). fold (denominator S j).
    rewrite bool_decide_eq_true_2 by assumption.
    unfold Div. destruct (Z.eqb_spec (denominator S j) 0) as [|_];
      [contradiction|].
    reflexivity.
  - rewrite <- (ediv_exact (numerator S i j)) by assumption.
    rewrite <- Z.mul_assoc. split.
    + intros Heq. destruct (Z.eq_dec delta 0) as [|Hnz]; [now left|right].
      now apply Z.mul_reg_l in Heq.
    + intros [->|Heq]; [reflexivity|now rewrite Heq].
Qed.

(** Two shares, with indices 1 and 3, of three players. *)
Definition shares_1_3 : list SignShare :=
  [{| Xi := None; Index := 1%N; Players := 3%N; Threshold := 2%N |};
   {| Xi := None; Index := 3%N; Players := 3%N; Threshold := 2%N |}].

Lemma ComputeLambda_value_witness :
  ComputeLambda 6 shares_1_3 0 1
    = Ret (inl (6 * ediv (numerator shares_1_3 0 1)
                      (denominator shares_1_3 1))) /\
  (6 * ediv (numerator shares_1_3 0 1) (denominator shares_1_3 1)
     * denominator shares_1_3 1
     = 6 * numerator shares_1_3 0 1
   <-> 6 = 0 \/ (denominator shares_1_3 1 | numerator shares_1_3 0 1)).
Proof.
  apply (ComputeLambda_value 6 4 shares_1_3 0 1); try lia.
  - repeat constructor; simpl; lia.
  - apply elem_of_cons. now left.
  - reflexivity.
Defined.

(** On those shares the quotient is not exact: the call returns 12 where
    the Lagrange coefficient [6 * (-3) / (-2)] is 9. *)
Example ComputeLambda_rounds :
  ComputeLambda 6 shares_1_3 0 1 = Ret (inl 12) /\
  numerator shares_1_3 0 1 = -3 /\ denominator shares_1_3 1 = -2.
Proof. repeat split. Qed.

End LagrangeCoefficient.

(** ** ecdsa/signing: the chunked Poseidon hash of [getSSID] *)

Section ChunkedHash.
Import Crypto CryptoOps.
Context `{Externals}.

(** [cs] cuts a list into chunks of sixteen, the last one possibly
    shorter but not empty. *)
Definition chunked (cs : list (list Z)) : Prop :=
  Forall (fun c => (1 <= length c <= 16)%nat) cs /\
  forall k c, cs !! k = Some c -> (Datatypes.S k < length cs)%nat ->
              length c = 16%nat.

Lemma ceil16_step (n : nat) :
  (1 <= n)%nat ->
  Z.succ ((Z.of_nat (n - 16) + 15) / 16) = (Z.of_nat n + 15) / 16.
Proof.
  intros Hn. destruct (Nat.le_gt_cases n 16) as [Hle|Hgt].
  - replace (n - 16)%nat with 0%nat by lia.
    change ((Z.of_nat 0 + 15) / 16) with 0.
    apply Z.div_unique with (r := Z.of_nat n - 1); lia.
  - rewrite Nat2Z.inj_sub by lia.
    replace (Z.of_nat n + 15)
      with (Z.of_nat n - Z.of_nat 16 + 15 + 1 * 16) by lia.
    rewrite Z.div_add by lia. lia.
Qed.

Lemma chunk_loop_chunks (fuel : nat) :
  forall rest acc hs,
    (length rest <= fuel)%nat ->
    EcdsaSigning.chunk_loop fuel rest acc = Some hs ->
    exists cs hs',
      hs = acc ++ hs' /\ concat cs = rest /\ chunked cs /\
      Forall2 (fun c h => poseidon_Hash c = Some h) cs hs' /\
      Z.of_nat (length hs') = (Z.of_nat (length rest) + 15) / 16.
Proof.
  induction fuel as [|f IH]; intros rest acc hs Hfuel Hrun.
  - destruct rest; [|simpl in Hfuel; lia]. simpl in Hrun.
    injection Hrun as <-. exists [], []. rewrite app_nil_r.
    repeat split; try constructor. intros k c Hk. discriminate.
  - destruct rest as [|x rest].
    { simpl in Hrun. injection Hrun as <-. exists [], [].
      rewrite app_nil_r. repeat split; try constructor.
      intros k c Hk. discriminate. }
    cbn [EcdsaSigning.chunk_loop] in Hrun.
    destruct (poseidon_Hash (take EcdsaSigning.maxInputs (x :: rest)))
      as [chunkHash|] eqn:Hh; [|discriminate].
    cbn [mbind option_bind] in Hrun.
    apply IH in Hrun as (cs & hs' & -> & Hcat & [Hsz Hfull] & Hall & Hcount).
    2:{ rewrite length_drop. unfold EcdsaSigning.maxInputs.
        cbn [length] in *. lia. }
    assert (Hlen : length (take EcdsaSigning.maxInputs (x :: rest))
                   = Nat.min 16 (length (x :: rest)))
      by apply length_take.
    set (chunk := take EcdsaSigning.maxInputs (x :: rest)) in *.
    exists (chunk :: cs), (chunkHash :: hs').
    split; [now rewrite <- app_assoc|].
    split; [cbn [concat]; rewrite Hcat; apply take_drop|].
    clearbody chunk.
    split; [split|split].
    + constructor; [|assumption]. cbv beta. rewrite Hlen. cbn [length]. lia.
    + intros [|k] c Hk Hlast.
      * injection Hk as <-. rewrite Hlen.
        destruct cs as [|c1 cs']; [cbn [length] in Hlast; lia|].
        assert (Hne : drop EcdsaSigning.maxInputs (x :: rest) <> []).
        { rewrite <- Hcat. cbn [concat].
          apply Forall_cons in Hsz as [Hc1 _].
          destruct c1; [cbn [length] in Hc1; lia|discriminate]. }
        destruct (Nat.le_gt_cases (length (x :: rest)) 16) as [Hle|Hgt];
          [|lia].
        exfalso. apply Hne. apply drop_ge. exact Hle.
      * apply (Hfull k c Hk). cbn [length] in Hlast. lia.
    + constructor; assumption.
    + cbn [length]. rewrite Nat2Z.inj_succ, Hcount, length_drop.
      apply (ceil16_step (length (x :: rest))). cbn [length]. lia.
Qed.

(** X24. How [getSSID] of the ECDSA signing rounds hashes.  When it
    returns an SSID, the reduced tuple was cut, in order and without
    loss, into chunks of sixteen entries (the last chunk possibly
    shorter); each chunk was hashed with Poseidon; and the SSID is the
    bytes of the Poseidon hash of the list of chunk hashes, one hash for
    every sixteen entries or part thereof. *)
Theorem ecdsa_getSSID_chunks (round : EcdsaSigning.base)
    (ssid : BigInt.bytes) :
  EcdsaSigning.getSSID round = inl ssid ->
  exists items cs hs finalHash,
    EcdsaSigning.ssidList round = inl items /\
    concat cs = map (fun item => item mod EcdsaSigning.fieldModulus) items /\
    chunked cs /\
    Forall2 (fun c h => poseidon_Hash c = Some h) cs hs /\
    Z.of_nat (length hs) = (Z.of_nat (length items) + 15) / 16 /\
    poseidon_Hash hs = Some finalHash /\
    ssid = BigInt.Bytes finalHash.
Proof.
  unfold EcdsaSigning.getSSID. intros Hrun.
  destruct (EcdsaSigning.ssidList round) as [items|] eqn:Hl; [|discriminate].
  cbv zeta in Hrun.
  rewrite (proj2 fieldModulus_value) in Hrun.
  rewrite validate_loop_map in Hrun by apply (proj1 fieldModulus_bounds).
  rewrite app_nil_l in Hrun.
  destruct (EcdsaSigning.chunk_loop _ _ _) as [hs|] eqn:Hc; [|discriminate].
  destruct (poseidon_Hash hs) as [finalHash|] eqn:Hf; [|discriminate].
  injection Hrun as <-.
  apply chunk_loop_chunks in Hc as (cs & hs' & -> & Hcat & Hch & Hall & Hn);
    [|lia].
  rewrite length_map in Hn. rewrite app_nil_l in *.
  exists items, cs, hs', finalHash.
  rewrite (proj2 fieldModulus_value).
  split; [reflexivity|]. do 4 (split; [assumption|]).
  split; [assumption|reflexivity].
Qed.

End ChunkedHash.

Section ChunkedHashExample.
Import Crypto CryptoOps.

(** A round of the ECDSA signing package on the miniature instance, with
    a tuple of twenty-two entries. *)
Definition ecdsa_round : EcdsaSigning.base :=
  {| EcdsaSigning.params := Toy.parameters;
     EcdsaSigning.key :=
       {| EcdsaSigning.BigXj := Some [Some (Toy.point 3); Some (Toy.point 5)];
          EcdsaSigning.NTildej := [11; 12; 13];
          EcdsaSigning.H1j := [21; 22; 23];
          EcdsaSigning.H2j := [31; 32; 33] |};
     EcdsaSigning.ssidNonce := 0; EcdsaSigning.number := 1 |}.

Lemma ecdsa_getSSID_chunks_witness :
  exists items cs hs finalHash,
    EcdsaSigning.ssidList ecdsa_round = inl items /\
    concat cs = map (fun item => item mod EcdsaSigning.fieldModulus) items /\
    chunked cs /\
    Forall2 (fun c h => @poseidon_Hash Toy.externals c = Some h) cs hs /\
    Z.of_nat (length hs) = (Z.of_nat (length items) + 15) / 16 /\
    @poseidon_Hash Toy.externals hs = Some finalHash /\
    [6; 83; 132; 245; 175; 255; 253; 85; 151; 255; 237; 87; 39; 255;
     255; 203; 147; 87; 255; 247; 57; 190; 255; 249; 114; 106; 255; 255;
     228; 127] = BigInt.Bytes finalHash.
Proof.
  apply (@ecdsa_getSSID_chunks Toy.externals ecdsa_round).
  vm_compute. reflexivity.
Defined.

End ChunkedHashExample.

(** ** Gob encoding of an ECPoint *)

Section GobFacts.
Import Crypto Gob.

Lemma read_length_PutUint32 (n : Z) (rest : BigInt.bytes) :
  0 <= n < 2 ^ 32 ->
  read_length (PutUint32 (uint32 n) ++ rest) = Some (n, rest).
Proof.
  intros Hn. unfold uint32. rewrite Z.mod_small by exact Hn.
  unfold PutUint32, read_length. cbn [app]. do 2 f_equal.
  change 65536 with (256 * 256). change 16777216 with (256 * 256 * 256).
  rewrite <- !Z.div_div by lia.
  set (a := n / 256). set (b := a / 256). set (c := b / 256).
  pose proof (Z.div_mod n 256 ltac:(lia)) as Hn0. fold a in Hn0.
  pose proof (Z.div_mod a 256 ltac:(lia)) as Ha0. fold b in Ha0.
  pose proof (Z.div_mod b 256 ltac:(lia)) as Hb0. fold c in Hb0.
  assert (Hc : 0 <= c < 256).
  { unfold c, b, a. rewrite !Z.div_div by lia.
    split; [apply Z.div_pos; lia|apply Z.div_lt_upper_bound; lia]. }
  rewrite (Z.mod_small c) by exact Hc. lia.
Qed.

Lemma read_bytes_app (x rest : BigInt.bytes) :
  x ++ rest <> [] ->
  read_bytes (Z.of_nat (length x)) (x ++ rest) = Some (x, rest).
Proof.
  intros Hne. unfold read_bytes.
  destruct (x ++ rest) as [|b l] eqn:Hxl; [contradiction|].
  rewrite <- Hxl, length_app.
  destruct (Z.ltb_spec (Z.of_nat (length x + length rest))
              (Z.of_nat (length x))) as [|_]; [lia|].
  now rewrite Nat2Z.id, take_app_length, drop_app_length.
Qed.

Lemma read_bytes_zero (unread : BigInt.bytes) :
  unread <> [] -> read_bytes 0 unread = Some ([], unread).
Proof.
  intros Hne. apply (read_bytes_app [] unread Hne).
Qed.

Lemma read_bytes_all (unread : BigInt.bytes) :
  unread <> [] ->
  read_bytes (Z.of_nat (length unread)) unread = Some (unread, []).
Proof.
  intros Hne. pose proof (read_bytes_app unread []) as Hr.
  rewrite app_nil_r in Hr. now apply Hr.
Qed.

Lemma Int_Gob_round_trip (v : Z) :
  Int_GobDecode (Int_GobEncode (Some v)) = inl v.
Proof.
  unfold Int_GobEncode, Int_GobDecode.
  destruct (Z.ltb_spec v 0) as [Hneg|Hpos]; simpl; rewrite SetBytes_Bytes;
    f_equal; lia.
Qed.

(** X25. [GobDecode] undoes [GobEncode] up to the curve.  For a point with
    both coordinates set (each of fewer than 2^32 - 1 bytes), decoding
    its encoding, whatever bytes follow it, assigns to the receiver the
    same coordinates, signs included, on the default curve [tss.EC()],
    whatever curve the encoded point and the receiver had; the call
    returns nil when that point is on [tss.EC()] and an error otherwise,
    the receiver being overwritten in both cases. *)
Theorem GobDecode_GobEncode (g : Tss.Globals) (p q : ECPoint) (x y : Z)
    (extra : BigInt.bytes) :
  coords p = (Some x, Some y) ->
  Z.of_nat (length (BigInt.Bytes x)) < 2 ^ 32 - 1 ->
  Z.of_nat (length (BigInt.Bytes y)) < 2 ^ 32 - 1 ->
  (IsOnCurve (Tss.ec g) x y = true ->
   GobDecode g q (GobEncode p ++ extra)
   = ({| curve := Tss.ec g; coords := (Some x, Some y) |}, None)) /\
  (IsOnCurve (Tss.ec g) x y = false ->
   exists err,
     GobDecode g q (GobEncode p ++ extra)
     = ({| curve := Tss.ec g; coords := (Some x, Some y) |}, Some err)).
Proof.
  intros Hp Hx Hy.
  assert (Hrun : GobDecode g q (GobEncode p ++ extra)
                 = (let p' := {| curve := Tss.ec g;
                                 coords := (Some x, Some y) |} in
                    if negb (ECPoint_IsOnCurve p')
                    then (p', Some "ECPoint.UnmarshalJSON: the point is not on the elliptic curve"%string)
                    else (p', None))).
  { unfold GobDecode, GobEncode. rewrite Hp. cbn [fst snd]. cbv zeta.
    set (ex := Int_GobEncode (Some x)). set (ey := Int_GobEncode (Some y)).
    assert (Hex : Z.of_nat (length ex) < 2 ^ 32
                  /\ Z.of_nat (length ey) < 2 ^ 32 /\ ey <> []).
    { unfold ex, ey, Int_GobEncode. cbn [length].
      rewrite !Nat2Z.inj_succ. repeat split; try lia. discriminate. }
    destruct Hex as (Hlx & Hly & Hney).
    rewrite <- !app_assoc.
    rewrite read_length_PutUint32 by lia.
    rewrite read_bytes_app.
    2:{ unfold ex, Int_GobEncode. discriminate. }
    rewrite read_length_PutUint32 by lia.
    rewrite read_bytes_app.
    2:{ destruct ey; [contradiction|discriminate]. }
    unfold ex, ey. now rewrite !Int_Gob_round_trip. }
  rewrite Hrun. cbv zeta. unfold ECPoint_IsOnCurve, isOnCurve. cbn [fst snd coords curve].
  split; intros ->; simpl; [reflexivity|now eexists].
Qed.

(** X26. A nil coordinate does not survive the encoding.  [GobEncode]
    writes a nil coordinate as a zero length.  With [Y] nil the encoding
    ends there, and [GobDecode] refuses it (the reader is at its end)
    and leaves the receiver alone; with [X] nil and [Y] set, [GobDecode]
    reads [X] as zero. *)
Theorem GobDecode_nil_coordinate (g : Tss.Globals) (p q : ECPoint) :
  (forall X,
     coords p = (X, None) ->
     Z.of_nat (length (Int_GobEncode X)) < 2 ^ 32 ->
     exists err, GobDecode g q (GobEncode p) = (q, Some err)) /\
  (forall y,
     coords p = (None, Some y) ->
     Z.of_nat (length (BigInt.Bytes y)) < 2 ^ 32 - 1 ->
     exists err,
       GobDecode g q (GobEncode p)
       = ({| curve := Tss.ec g; coords := (Some 0, Some y) |}, err) /\
       (err = None <-> IsOnCurve (Tss.ec g) 0 y = true)).
Proof.
  split.
  - intros X Hp HX. unfold GobDecode, GobEncode. rewrite Hp.
    cbn [fst snd]. cbv zeta.
    set (ex := Int_GobEncode X) in *.
    rewrite read_length_PutUint32 by lia.
    change (Int_GobEncode None) with (@nil Z). cbn [length].
    rewrite app_nil_r.
    rewrite read_bytes_app by (unfold PutUint32; destruct ex; discriminate).
    rewrite <- (app_nil_r (PutUint32 _)).
    rewrite read_length_PutUint32 by (simpl; lia).
    simpl. now eexists.
  - intros y Hp Hy. unfold GobDecode, GobEncode. rewrite Hp.
    cbn [fst snd]. cbv zeta.
    change (Int_GobEncode None) with (@nil Z). cbn [length app].
    set (ey := Int_GobEncode (Some y)).
    assert (Hey : Z.of_nat (length ey) < 2 ^ 32 /\ ey <> []).
    { unfold ey, Int_GobEncode. cbn [length]. rewrite Nat2Z.inj_succ.
      split; [lia|discriminate]. }
    destruct Hey as [Hly Hney].
    rewrite read_length_PutUint32 by (simpl; lia).
    rewrite read_bytes_zero by (unfold PutUint32; discriminate).
    rewrite read_length_PutUint32 by lia.
    rewrite read_bytes_all by exact Hney.
    unfold ey. rewrite Int_Gob_round_trip. cbn [Int_GobDecode].
    unfold ECPoint_IsOnCurve, isOnCurve. cbn [fst snd coords curve].
    destruct (IsOnCurve (Tss.ec g) 0 y); simpl; eexists; split;
      try reflexivity; split; congruence.
Qed.

End GobFacts.

Section GobExamples.
Import Crypto Gob.

Lemma GobDecode_GobEncode_witness :
  (IsOnCurve (Tss.ec Toy.globals) 3 0 = true ->
   GobDecode Toy.globals (Toy.point 5) (GobEncode (Toy.point 3) ++ [9])
   = ({| curve := Tss.ec Toy.globals; coords := (Some 3, Some 0) |}, None)) /\
  (IsOnCurve (Tss.ec Toy.globals) 3 0 = false ->
   exists err,
     GobDecode Toy.globals (Toy.point 5) (GobEncode (Toy.point 3) ++ [9])
     = ({| curve := Tss.ec Toy.globals; coords := (Some 3, Some 0) |},
        Some err)).
Proof.
  apply (GobDecode_GobEncode Toy.globals (Toy.point 3) (Toy.point 5) 3 0 [9]).
  - reflexivity.
  - vm_compute. reflexivity.
  - vm_compute. reflexivity.
Defined.

End GobExamples.

(** ** common: [RejectionSample] never rejects *)

Section RejectionSampleFacts.
Import Common.

(** X27. [RejectionSample] rejects nothing: for [q <> 0] it returns, for
    every hash value, its residue modulo [|q|], a number of [0, |q|)
    congruent to the hash, which it also leaves in the caller's [eHash];
    values already in range are returned unchanged; for [q = 0] it
    panics.  [RejectionSampleWithPoseidon] is the same reduction applied
    to the Poseidon hash of the inputs, and returns the error of the hash
    before looking at [q]. *)
Theorem RejectionSample_reduces `{Externals} (q eHash : Z)
    (inputs : list Z) :
  (q = 0 <-> RejectionSample q eHash = Panic) /\
  (q <> 0 ->
   exists e,
     RejectionSample q eHash = Ret (e, e) /\
     0 <= e < Z.abs q /\ (q | eHash - e) /\
     (0 <= eHash < Z.abs q -> e = eHash) /\
     RejectionSample q e = Ret (e, e)) /\
  RejectionSampleWithPoseidon q inputs
  = match poseidon_Hash inputs with
    | None => Ret (inr "poseidon.Hash failed"%string)
    | Some h =>
        match RejectionSample q h with
        | Ret (e, _) => Ret (inl e)
        | Panic => Panic
        end
    end.
Proof.
  unfold RejectionSample, RejectionSampleWithPoseidon, Mod, BigInt.Mod.
  split; [|split].
  - destruct (Z.eqb_spec q 0) as [->|Hq]; simpl; split; try tauto;
      discriminate.
  - intros Hq. destruct (Z.eqb_spec q 0) as [|_]; [contradiction|].
    pose proof (Z.mod_pos_bound eHash (Z.abs q) ltac:(lia)) as Hr.
    exists (eHash mod Z.abs q). simpl.
    split; [reflexivity|]. split; [exact Hr|]. split; [|split].
    + apply Z.divide_abs_l. exists (eHash / Z.abs q).
      pose proof (Z.div_mod eHash (Z.abs q) ltac:(lia)). lia.
    + intros Hin. now apply Z.mod_small.
    + now rewrite Z.mod_mod by lia.
  - destruct (poseidon_Hash inputs) as [h|]; [|reflexivity].
    now destruct (q =? 0).
Qed.

Lemma RejectionSample_reduces_witness :
  (-7 = 0 <-> RejectionSample (-7) 23 = Panic) /\
  (-7 <> 0 ->
   exists e,
     RejectionSample (-7) 23 = Ret (e, e) /\
     0 <= e < Z.abs (-7) /\ (-7 | 23 - e) /\
     (0 <= 23 < Z.abs (-7) -> e = 23) /\
     RejectionSample (-7) e = Ret (e, e)) /\
  @RejectionSampleWithPoseidon Toy.externals (-7) [1; 2]
  = match @poseidon_Hash Toy.externals [1; 2] with
    | None => Ret (inr "poseidon.Hash failed"%string)
    | Some h =>
        match RejectionSample (-7) h with
        | Ret (e, _) => Ret (inl e)
        | Panic => Panic
        end
    end.
Proof.
  exact (@RejectionSample_reduces Toy.externals (-7) 23 [1; 2]).
Defined.

End RejectionSampleFacts.

(** ** ecdsa/resharing: the two [ok] vectors and the SSID *)

Section ResharingFacts.
Import Crypto CryptoOps.
Context `{Externals}.

Lemma forallb_true_map (l : list bool) :
  forallb (fun o => o) (map (fun _ => true) l) = true.
Proof. induction l; simpl; auto. Qed.

Lemma forallb_false_map (l : list bool) :
  forallb (fun o => o) (map (fun _ => false) l) = true <-> l = [].
Proof. destruct l; simpl; split; congruence. Qed.

(** X28. The two [ok] vectors of the resharing rounds.  A round can
    proceed exactly when it is started and every entry of both [oldOK]
    and [newOK] is set.  Hence after [allOldOK] it can proceed exactly
    when it is started and [newOK] is all set (and symmetrically for
    [allNewOK]); after both it can proceed as soon as it is started; and
    after [resetOK] only if both vectors are empty. *)
Theorem resharing_CanProceed (round : Resharing.base) :
  (Resharing.CanProceed round = true
   <-> Resharing.started round = true /\
       forallb (fun o => o) (Resharing.oldOK round) = true /\
       forallb (fun o => o) (Resharing.newOK round) = true) /\
  (Resharing.CanProceed (Resharing.allOldOK round) = true
   <-> Resharing.started round = true /\
       forallb (fun o => o) (Resharing.newOK round) = true) /\
  (Resharing.CanProceed (Resharing.allNewOK round) = true
   <-> Resharing.started round = true /\
       forallb (fun o => o) (Resharing.oldOK round) = true) /\
  Resharing.CanProceed (Resharing.allNewOK (Resharing.allOldOK round))
    = Resharing.started round /\
  (Resharing.CanProceed (Resharing.resetOK round) = true
   <-> Resharing.started round = true /\
       Resharing.oldOK round = [] /\ Resharing.newOK round = []).
Proof.
  unfold Resharing.CanProceed, Resharing.allOldOK, Resharing.allNewOK,
    Resharing.resetOK, Resharing.set_ok.
  cbn [Resharing.started Resharing.oldOK Resharing.newOK].
  rewrite !forallb_app, !forallb_true_map.
  destruct (Resharing.started round); cbn [negb]; cbv iota.
  - rewrite ?andb_true_l, ?andb_true_r, !andb_true_iff, !forallb_false_map.
    repeat split; try tauto.
  - repeat split; try discriminate; intros [? _]; discriminate.
Qed.

Lemma poseidonPrime_value : Resharing.poseidonPrime = BN254_scalar_field.
Proof. reflexivity. Qed.

(** X29. How [getSSID(true)] of the resharing rounds hashes.  When it
    returns an SSID, every entry of the tuple (the curve parameters [P],
    [N], [B], [Gx], [Gy], the party keys, the [BigXj] coordinates,
    [NTildej], [H1j], [H2j], the round number and the nonce) was reduced
    modulo the BN254 scalar-field prime, so that Poseidon only absorbs
    numbers of [0, p_F); the reduced tuple was cut in order into chunks
    of sixteen, each chunk hashed, and the SSID is the bytes of the hash
    of the chunk hashes.  With [usePoseidon] false the SSID is the
    SHA-512/256 digest of the unreduced tuple. *)
Theorem resharing_getSSID_chunks (round : Resharing.base)
    (ssid : BigInt.bytes) :
  Resharing.getSSID round true = inl ssid ->
  exists items cs hs finalHash,
    Resharing.ssidList round = inl items /\
    concat cs = map (fun item => item mod BN254_scalar_field) items /\
    Forall (Forall (fun v => 0 <= v < BN254_scalar_field)) cs /\
    chunked cs /\
    Forall2 (fun c h => poseidon_Hash c = Some h) cs hs /\
    Z.of_nat (length hs) = (Z.of_nat (length items) + 15) / 16 /\
    poseidon_Hash hs = Some finalHash /\
    ssid = BigInt.Bytes finalHash /\
    Resharing.getSSID round false = inl (BigInt.Bytes (SHA512_256i items)).
Proof.
  unfold Resharing.getSSID, Resharing.hashWithPoseidon. intros Hrun.
  destruct (Resharing.ssidList round) as [items|] eqn:Hl; [|discriminate].
  cbv zeta in Hrun.
  assert (Hmod : map (fun input => BigInt.Mod input Resharing.poseidonPrime)
                   items
                 = map (fun item => item mod BN254_scalar_field) items).
  { apply map_ext. intros a. unfold BigInt.Mod.
    now rewrite poseidonPrime_value. }
  rewrite Hmod in Hrun.
  destruct (EcdsaSigning.chunk_loop _ _ _) as [hs|] eqn:Hc; [|discriminate].
  destruct (poseidon_Hash hs) as [finalHash|] eqn:Hf; [|discriminate].
  injection Hrun as <-.
  apply chunk_loop_chunks in Hc as (cs & hs' & -> & Hcat & Hch & Hall & Hn);
    [|lia].
  rewrite length_map in Hn. rewrite app_nil_l in *.
  exists items, cs, hs', finalHash.
  split; [reflexivity|]. split; [assumption|]. split.
  { apply Forall_forall. intros c Hc. apply Forall_forall. intros v Hv.
    assert (Hin : In v (concat cs)).
    { apply in_concat. exists c. split; now apply list_elem_of_In. }
    rewrite Hcat in Hin. apply in_map_iff in Hin as (item & <- & _).
    apply Z.mod_pos_bound. reflexivity. }
  do 3 (split; [assumption|]).
  split; [assumption|]. split; reflexivity.
Qed.

End ResharingFacts.

Section ResharingExample.
Import Crypto CryptoOps.

(** A resharing round on the miniature instance, with the key material of
    [ecdsa_round]. *)
Definition resharing_round : Resharing.base :=
  {| Resharing.params := Toy.parameters;
     Resharing.input := EcdsaSigning.key ecdsa_round;
     Resharing.ssidNonce := 0; Resharing.oldOK := [false; false];
     Resharing.newOK := [false]; Resharing.started := true;
     Resharing.number := 1 |}.

Lemma resharing_getSSID_chunks_witness :
  exists items cs hs finalHash,
    Resharing.ssidList resharing_round = inl items /\
    concat cs = map (fun item => item mod BN254_scalar_field) items /\
    Forall (Forall (fun v => 0 <= v < BN254_scalar_field)) cs /\
    chunked cs /\
    Forall2 (fun c h => @poseidon_Hash Toy.externals c = Some h) cs hs /\
    Z.of_nat (length hs) = (Z.of_nat (length items) + 15) / 16 /\
    @poseidon_Hash Toy.externals hs = Some finalHash /\
    [4; 0; 0; 0; 0; 0; 0; 0; 0; 0; 0; 0; 0; 0; 0; 0; 0; 0; 0; 0; 0; 0;
     0; 0; 0; 0; 0; 0; 0; 0; 0; 238] = BigInt.Bytes finalHash /\
    @Resharing.getSSID Toy.externals resharing_round false
    = inl (BigInt.Bytes (@SHA512_256i Toy.externals items)).
Proof.
  apply (@resharing_getSSID_chunks Toy.externals resharing_round).
  vm_compute. reflexivity.
Defined.

End ResharingExample.
